(** * Instanced panel groups of uikit: buffer allocation and update scheduling

    A shallow embedding of [packages/uikit/src/panel/instanced-panel-group.ts]
    (class [InstancedPanelGroup]) together with a model of the sorted-bucket
    allocator it drives, and the properties of the buffer group that follow
    from them. *)

From Stdlib Require Import ZArith List Lia Bool Arith.
Import ListNotations.
Open Scope Z_scope.

(** ** Faults and results

    A JavaScript exception aborts the running method.  [NullDereference] is the
    [TypeError] of a property access on [undefined], [RangeError] the one thrown
    by [TypedArray.prototype.set] when source and offset exceed the target, and
    [ContractViolation] an error raised by the allocator on a caller mistake. *)

Inductive Fault : Type :=
| NullDereference
| RangeError
| ContractViolation.

Inductive result (A : Type) : Type :=
| OK (a : A)
| Error (f : Fault).
Arguments OK {A} a.
Arguments Error {A} f.

Definition bind {A B : Type} (r : result A) (k : A -> result B) : result B :=
  match r with
  | OK a => k a
  | Error f => Error f
  end.

Notation "x <- c1 ;; c2" := (bind c1 (fun x => c2))
  (at level 61, c1 at next level, right associativity).

(** ** Instance data

    Every attribute has item size 16 and every access of the group is aligned
    to a slot ([16 * index]), so a [Float32Array] of [16 * n] floats is a list
    of [n] blocks.  Floats are only copied and zero-filled; a float is
    represented by an integer payload, [0] standing for [+0.0].  The upload
    bookkeeping of an attribute ([addUpdateRange], [needsUpdate]) is left
    out. *)

Definition block : Type := list Z.
Definition zeroBlock : block := repeat 0 16.

Definition readSlot {A : Type} (arr : list A) (s : Z) : option A :=
  if (0 <=? s) then nth_error arr (Z.to_nat s) else None.

Fixpoint updNth {A : Type} (n : nat) (v : A) (l : list A) : list A :=
  match l, n with
  | [], _ => []
  | _ :: r, O => v :: r
  | x :: r, S m => x :: updNth m v r
  end.

(** The array with slot [s] replaced; a slot outside the array changes
    nothing. *)
Definition writeSlot {A : Type} (arr : list A) (s : Z) (v : A) : list A :=
  if (0 <=? s) then updNth (Z.to_nat s) v arr else arr.

Definition len {A : Type} (l : list A) : Z := Z.of_nat (length l).
Arguments len : simpl never.

(** An instanced panel, as far as the group reads it: its identity and the
    default style data of its material configuration. *)
Record InstancedPanel : Type := mkPanel {
  pid : nat;
  defaultData : block
}.

Definition samePanel (a b : InstancedPanel) : bool := Nat.eqb (pid a) (pid b).

(** ** The sorted-bucket allocator

    [allocation/sorted-buckets.ts] is not part of the sources at hand: the
    group file shows the four functions it imports, their arguments and the
    fields [offset] and [elements] of a bucket.  Everything in this module is
    modelled from the spec (sections 3 and 4.1). *)

Module SortedBuckets.

(** Modelled from the spec: the type [Bucket] of [allocation/sorted-buckets.ts],
    which is not part of the sources at hand.  A bucket has its render-order
    [index], the [offset] of its first slot and its ordered [elements].  Each
    element carries the slot its instance data currently lives in, or [None]
    when it was appended logically and its slot is not yet known.  [slack] is
    the space the group has reserved for the bucket beyond its elements; it
    drops below zero while elements wait for a slot. *)
Record Bucket : Type := mkBucket {
  index : Z;
  offset : Z;
  elements : list (InstancedPanel * option Z);
  slack : Z
}.

(** The calls the allocator makes on the callbacks the group hands it
    ([activateElement], [clearBufferAt], [setElementIndex],
    [bufferCopyWithin]), in the order it makes them. *)
Inductive Call : Type :=
| Activate (element : InstancedPanel) (bucketOffset indexInBucket : Z)
| ClearBufferAt (slot : Z)
| SetElementIndex (element : InstancedPanel) (indexInBucket : Z)
| BufferCopyWithin (targetIndex startIndex endIndex : Z).

Definition size (b : Bucket) : Z := len (elements b).

(** Modelled from the spec: the end of the region reserved for a bucket, its
    elements and its slack. *)
Definition regionEnd (b : Bucket) : Z := offset b + size b + slack b.

(** Modelled from the spec: [aligned o els] says that the elements sit, in
    order, at slots [o], [o+1], ... *)
Fixpoint aligned (o : Z) (els : list (InstancedPanel * option Z)) : bool :=
  match els with
  | [] => true
  | (_, Some s) :: r => (s =? o) && aligned (o + 1) r
  | (_, None) :: _ => false
  end.

(** Modelled from the spec: a bucket has a clean region past its logical end
    when its elements are packed from its offset and reserved space is
    left. *)
Definition hasCleanSlack (b : Bucket) : bool :=
  aligned (offset b) (elements b) && (0 <? slack b).

(** Modelled from the spec: the element goes into the next free slot and is
    activated, or is appended without a slot. *)
Definition addElement (b : Bucket) (e : InstancedPanel) : Bucket * list Call * bool :=
  if hasCleanSlack b then
    (mkBucket (index b) (offset b)
              (elements b ++ [(e, Some (offset b + size b))]) (slack b - 1),
     [Activate e (offset b) (size b)], false)
  else
    (mkBucket (index b) (offset b) (elements b ++ [(e, None)]) (slack b - 1),
     [], true).

(** Modelled from the spec: [addToSortedBuckets].  Finds or creates the bucket
    of [bucketIndex] at its ordered position; a bucket with a clean reserved
    slot past its end takes the element in place and activates it (result
    [false]); otherwise the element is appended without a slot and the result
    is [true]: a rearrangement is needed.  A bucket created at the end starts
    where the region of its predecessor ends, one created in front of a bucket
    starts at that bucket's offset. *)
Fixpoint addFrom (prevEnd : Z) (buckets : list Bucket) (bucketIndex : Z)
    (e : InstancedPanel) : list Bucket * list Call * bool :=
  match buckets with
  | [] =>
      let '(b', calls, r) := addElement (mkBucket bucketIndex prevEnd [] 0) e in
      ([b'], calls, r)
  | b :: rest =>
      if bucketIndex =? index b then
        let '(b', calls, r) := addElement b e in (b' :: rest, calls, r)
      else if bucketIndex <? index b then
        let '(b', calls, r) := addElement (mkBucket bucketIndex (offset b) [] 0) e in
        (b' :: b :: rest, calls, r)
      else
        let '(rest', calls, r) := addFrom (regionEnd b) rest bucketIndex e in
        (b :: rest', calls, r)
  end.

Definition addToSortedBuckets (buckets : list Bucket) (bucketIndex : Z)
    (e : InstancedPanel) : list Bucket * list Call * bool :=
  addFrom 0 buckets bucketIndex e.

Fixpoint findElement (e : InstancedPanel) (els : list (InstancedPanel * option Z))
    (i : Z) : option Z :=
  match els with
  | [] => None
  | (e', _) :: r => if samePanel e e' then Some i else findElement e r (i + 1)
  end.

(** Modelled from the spec: the known index is checked against the bucket;
    without it the bucket is scanned for the element. *)
Definition locate (els : list (InstancedPanel * option Z)) (e : InstancedPanel)
    (elementIndex : option Z) : option Z :=
  match elementIndex with
  | Some i =>
      match readSlot els i with
      | Some (e', _) => if samePanel e e' then Some i else None
      | None => None
      end
  | None => findElement e els 0
  end.

Fixpoint removeNth {A : Type} (n : nat) (l : list A) : list A :=
  match l, n with
  | [], _ => []
  | _ :: r, O => r
  | x :: r, S m => x :: removeNth m r
  end.

Definition isNil {A : Type} (l : list A) : bool :=
  match l with [] => true | _ => false end.

(** Modelled from the spec: [removeFromSortedBuckets].  An unknown bucket or
    element is a contract violation.  The last element of the last bucket is
    taken out with its slot cleared in place (result [false]); any other
    removal asks for a rearrangement (result [true]).  The spec does not say
    at which point a bucket that lost its last element leaves the array, nor
    what the function does to the hole before the rearrangement.  This model
    makes two choices of its own there: the emptied bucket stays in the array
    until the next rearrangement drops it, and a removal that asks for a
    rearrangement moves no data and calls none of the callbacks. *)
Fixpoint removeFromSortedBuckets (buckets : list Bucket) (bucketIndex : Z)
    (e : InstancedPanel) (elementIndex : option Z)
    : result (list Bucket * list Call * bool) :=
  match buckets with
  | [] => Error ContractViolation
  | b :: rest =>
      if bucketIndex =? index b then
        match locate (elements b) e elementIndex with
        | None => Error ContractViolation
        | Some i =>
            let b' := mkBucket (index b) (offset b)
                        (removeNth (Z.to_nat i) (elements b)) (slack b + 1) in
            if (i =? size b - 1) && isNil rest then
              match readSlot (elements b) i with
              | Some (_, Some s) => OK (b' :: rest, [ClearBufferAt s], false)
              | _ => OK (b' :: rest, [], false)
              end
            else OK (b' :: rest, [], true)
        end
      else
        r <- removeFromSortedBuckets rest bucketIndex e elementIndex ;;
        let '(rest', calls, needs) := r in
        OK (b :: rest', calls, needs)
  end.

Definition nonEmpty (b : Bucket) : bool := negb (isNil (elements b)).

(** Modelled from the spec: the elements of a bucket packed from slot [o]
    on. *)
Fixpoint packElements (o : Z) (els : list (InstancedPanel * option Z))
    : list (InstancedPanel * option Z) :=
  match els with
  | [] => []
  | (e, _) :: r => (e, Some o) :: packElements (o + 1) r
  end.

(** Modelled from the spec: every offset is the running sum of the sizes of
    the buckets in front. *)
Fixpoint packBuckets (o : Z) (buckets : list Bucket) : list Bucket :=
  match buckets with
  | [] => []
  | b :: rest =>
      mkBucket (index b) o (packElements o (elements b)) 0
        :: packBuckets (o + size b) rest
  end.

Definition totalSlack (buckets : list Bucket) : Z :=
  fold_right (fun b acc => slack b + acc) 0 buckets.

Fixpoint giveSlackToLast (s : Z) (buckets : list Bucket) : list Bucket :=
  match buckets with
  | [] => []
  | b :: rest =>
      if isNil rest
      then [mkBucket (index b) (offset b) (elements b) (slack b + s)]
      else b :: giveSlackToLast s rest
  end.

(** Modelled from the spec: the pairs (current slot, new slot) of the
    elements that have a slot. *)
Fixpoint elementMoves (o : Z) (els : list (InstancedPanel * option Z))
    : list (Z * Z) :=
  match els with
  | [] => []
  | (_, Some s) :: r => (s, o) :: elementMoves (o + 1) r
  | (_, None) :: r => elementMoves (o + 1) r
  end.

Fixpoint bucketMoves (o : Z) (buckets : list Bucket) : list (Z * Z) :=
  match buckets with
  | [] => []
  | b :: rest => elementMoves o (elements b) ++ bucketMoves (o + size b) rest
  end.

(** Modelled from the spec: elements without a slot are activated at their
    new place; elements whose place changed are told their new index. *)
Fixpoint elementNotices (o i : Z) (els : list (InstancedPanel * option Z))
    : list Call :=
  match els with
  | [] => []
  | (e, Some s) :: r =>
      (if s =? o + i then [] else [SetElementIndex e i])
        ++ elementNotices o (i + 1) r
  | (e, None) :: r => Activate e o i :: elementNotices o (i + 1) r
  end.

Fixpoint bucketNotices (o : Z) (buckets : list Bucket) : list Call :=
  match buckets with
  | [] => []
  | b :: rest =>
      elementNotices o 0 (elements b) ++ bucketNotices (o + size b) rest
  end.

Definition copyCall (m : Z * Z) : Call :=
  BufferCopyWithin (snd m) (fst m) (fst m + 1).

Definition movesLeft (m : Z * Z) : bool := snd m <? fst m.
Definition movesRight (m : Z * Z) : bool := fst m <? snd m.

(** Modelled from the spec: the copy pass, which the spec leaves unordered.
    Moves towards lower slots are copied in ascending order, moves towards
    higher slots in descending order, so that no copy overwrites data that is
    still to be read. *)
Definition copyCalls (moves : list (Z * Z)) : list Call :=
  map copyCall (filter movesLeft moves)
    ++ map copyCall (rev (filter movesRight moves)).

(** Modelled from the spec: [updateSortedBucketsAllocation], the rearrangement
    pass.  Emptied buckets are dropped, every bucket's offset becomes the
    running sum of the sizes in front of it, every element whose slot differs
    from its new one is copied into place, elements without a slot are
    activated, and all reserved space is gathered behind the last bucket.  The
    spec's bulk copies of contiguous runs are issued one slot at a time. *)
Definition updateSortedBucketsAllocation (buckets : list Bucket)
    : list Bucket * list Call :=
  let kept := filter nonEmpty buckets in
  (giveSlackToLast (totalSlack buckets) (packBuckets 0 kept),
   copyCalls (bucketMoves 0 kept) ++ bucketNotices 0 kept).

Fixpoint reoffset (o : Z) (buckets : list Bucket) : list Bucket :=
  match buckets with
  | [] => []
  | b :: rest =>
      mkBucket (index b) o (elements b) (slack b) :: reoffset (o + size b) rest
  end.

(** Modelled from the spec: [resizeSortedBucketsSpace].  Bucket offsets are
    recomputed and the change of capacity is booked on the last bucket; no
    instance data moves. *)
Definition resizeSortedBucketsSpace (buckets : list Bucket) (oldSize newSize : Z)
    : list Bucket :=
  giveSlackToLast (newSize - oldSize) (reoffset 0 buckets).

End SortedBuckets.

(** ** The buffer group

    [InstancedPanelGroup] with the part of its host it talks to: the clock
    ([performance.now]), the timers ([setTimeout], [clearTimeout]) and the
    render requests of the root. *)

Module Group.
Import SortedBuckets.

(** The mesh fields the group assigns. *)
Record Mesh : Type := mkMesh {
  count : Z;
  visible : bool;
  meshRenderOrder : Z
}.

(** [typeof nextFrame | number]; [undefined] is [None]. *)
Inductive UpdateTime : Type :=
| NextFrame
| AtTime (t : Z).

(** What a run of the group did, recorded for the statements below. *)
Inductive Event : Type :=
| EvUpdate
| EvResize (oldSize newSize : Z)
| EvRearrange.

(** The fields of [InstancedPanelGroup] that [insert], [delete], [onFrame],
    [update] and [resize] read or write, followed by the state of the host the
    group acts on: the clock, the pending timers (identifier and due time),
    the next timer identifier and the number of render requests.  [trace]
    records the events of the run.  The material, the shadow flags and the
    order info are constants handed to the mesh and are left out, and with
    them [setDepthTest] and [destroy]. *)
Record Group : Type := mkGroup {
  mesh : option Mesh;
  instanceMatrix : option (list block);
  instanceData : option (list block);
  instanceClipping : option (list block);
  buckets : list Bucket;
  elementCount : Z;
  bufferElementSize : Z;
  nextUpdateTime : option UpdateTime;
  nextUpdateTimeoutRef : option nat;
  renderOrder : Z;
  now : Z;
  timers : list (nat * Z);
  nextTimerId : nat;
  renderRequests : nat;
  trace : list Event
}.

Definition setMesh (m : option Mesh) (g : Group) : Group :=
  mkGroup m (instanceMatrix g) (instanceData g) (instanceClipping g) (buckets g)
    (elementCount g) (bufferElementSize g) (nextUpdateTime g)
    (nextUpdateTimeoutRef g) (renderOrder g) (now g) (timers g) (nextTimerId g)
    (renderRequests g) (trace g).

Definition setArrays (m d c : option (list block)) (g : Group) : Group :=
  mkGroup (mesh g) m d c (buckets g)
    (elementCount g) (bufferElementSize g) (nextUpdateTime g)
    (nextUpdateTimeoutRef g) (renderOrder g) (now g) (timers g) (nextTimerId g)
    (renderRequests g) (trace g).

Definition setBuckets (bs : list Bucket) (g : Group) : Group :=
  mkGroup (mesh g) (instanceMatrix g) (instanceData g) (instanceClipping g) bs
    (elementCount g) (bufferElementSize g) (nextUpdateTime g)
    (nextUpdateTimeoutRef g) (renderOrder g) (now g) (timers g) (nextTimerId g)
    (renderRequests g) (trace g).

Definition setElementCount (n : Z) (g : Group) : Group :=
  mkGroup (mesh g) (instanceMatrix g) (instanceData g) (instanceClipping g)
    (buckets g) n (bufferElementSize g) (nextUpdateTime g)
    (nextUpdateTimeoutRef g) (renderOrder g) (now g) (timers g) (nextTimerId g)
    (renderRequests g) (trace g).

Definition setBufferElementSize (n : Z) (g : Group) : Group :=
  mkGroup (mesh g) (instanceMatrix g) (instanceData g) (instanceClipping g)
    (buckets g) (elementCount g) n (nextUpdateTime g)
    (nextUpdateTimeoutRef g) (renderOrder g) (now g) (timers g) (nextTimerId g)
    (renderRequests g) (trace g).

Definition setNextUpdateTime (t : option UpdateTime) (g : Group) : Group :=
  mkGroup (mesh g) (instanceMatrix g) (instanceData g) (instanceClipping g)
    (buckets g) (elementCount g) (bufferElementSize g) t
    (nextUpdateTimeoutRef g) (renderOrder g) (now g) (timers g) (nextTimerId g)
    (renderRequests g) (trace g).

Definition setRenderOrderField (r : Z) (g : Group) : Group :=
  mkGroup (mesh g) (instanceMatrix g) (instanceData g) (instanceClipping g)
    (buckets g) (elementCount g) (bufferElementSize g) (nextUpdateTime g)
    (nextUpdateTimeoutRef g) r (now g) (timers g) (nextTimerId g)
    (renderRequests g) (trace g).

Definition setNow (t : Z) (g : Group) : Group :=
  mkGroup (mesh g) (instanceMatrix g) (instanceData g) (instanceClipping g)
    (buckets g) (elementCount g) (bufferElementSize g) (nextUpdateTime g)
    (nextUpdateTimeoutRef g) (renderOrder g) t (timers g) (nextTimerId g)
    (renderRequests g) (trace g).

(** [this.root.requestRender()] *)
Definition requestRender (g : Group) : Group :=
  mkGroup (mesh g) (instanceMatrix g) (instanceData g) (instanceClipping g)
    (buckets g) (elementCount g) (bufferElementSize g) (nextUpdateTime g)
    (nextUpdateTimeoutRef g) (renderOrder g) (now g) (timers g) (nextTimerId g)
    (S (renderRequests g)) (trace g).

Definition emit (e : Event) (g : Group) : Group :=
  mkGroup (mesh g) (instanceMatrix g) (instanceData g) (instanceClipping g)
    (buckets g) (elementCount g) (bufferElementSize g) (nextUpdateTime g)
    (nextUpdateTimeoutRef g) (renderOrder g) (now g) (timers g) (nextTimerId g)
    (renderRequests g) (trace g ++ [e]).

(** [clearTimeout(this.nextUpdateTimeoutRef)]: the timer, if still pending, is
    removed from the host; the field itself is left as it is. *)
Definition clearTimeout (g : Group) : Group :=
  mkGroup (mesh g) (instanceMatrix g) (instanceData g) (instanceClipping g)
    (buckets g) (elementCount g) (bufferElementSize g) (nextUpdateTime g)
    (nextUpdateTimeoutRef g) (renderOrder g) (now g)
    (match nextUpdateTimeoutRef g with
     | Some id => filter (fun t => negb (Nat.eqb (fst t) id)) (timers g)
     | None => timers g
     end)
    (nextTimerId g) (renderRequests g) (trace g).

(** [this.nextUpdateTimeoutRef = setTimeout(this.requestUpdateNextFrame.bind(this), time)]:
    a fresh timer due [time] milliseconds from now. *)
Definition setTimeoutRef (time : Z) (g : Group) : Group :=
  mkGroup (mesh g) (instanceMatrix g) (instanceData g) (instanceClipping g)
    (buckets g) (elementCount g) (bufferElementSize g) (nextUpdateTime g)
    (Some (nextTimerId g)) (renderOrder g) (now g)
    (timers g ++ [(nextTimerId g, now g + time)])
    (S (nextTimerId g)) (renderRequests g) (trace g).

Definition unsetTimeoutRef (g : Group) : Group :=
  mkGroup (mesh g) (instanceMatrix g) (instanceData g) (instanceClipping g)
    (buckets g) (elementCount g) (bufferElementSize g) (nextUpdateTime g)
    None (renderOrder g) (now g) (timers g) (nextTimerId g)
    (renderRequests g) (trace g).

(** A group as its constructor leaves it, on a host whose clock shows [t0]. *)
Definition newGroup (renderOrder0 t0 : Z) : Group :=
  mkGroup None None None None [] 0 0 None None renderOrder0 t0 [] O O [].

(** *** Attribute arrays *)

(** Relative index of [Array.prototype.copyWithin]: negative values count from
    the end, everything is clamped to the array. *)
Definition relIndex (l x : Z) : Z :=
  if x <? 0 then Z.max (l + x) 0 else Z.min x l.

(** [array.copyWithin(target, start, end)] on an array of blocks. *)
Definition copyWithin {A : Type} (arr : list A) (target start end_ : Z) : list A :=
  let l := len arr in
  let to := relIndex l target in
  let from := relIndex l start in
  let final := relIndex l end_ in
  let cnt := Z.min (final - from) (l - to) in
  if 0 <? cnt then
    firstn (Z.to_nat to) arr
      ++ firstn (Z.to_nat cnt) (skipn (Z.to_nat from) arr)
      ++ skipn (Z.to_nat (to + cnt)) arr
  else arr.

(** [array.fill(value, start, end)] on an array of blocks: negative bounds
    count from the end and both bounds are clamped to the array, as for
    [copyWithin]. *)
Definition fill {A : Type} (arr : list A) (v : A) (start end_ : Z) : list A :=
  let l := len arr in
  let k := relIndex l start in
  let final := relIndex l end_ in
  if k <? final then
    firstn (Z.to_nat k) arr ++ repeat v (Z.to_nat (final - k))
      ++ skipn (Z.to_nat final) arr
  else arr.

(** [copyWithinAttribute]: the three indices are scaled by the item size, which
    is the size of a block. *)
Definition copyWithinAttribute (attribute : option (list block))
    (targetIndex startIndex endIndex : Z) : result (list block) :=
  match attribute with
  | None => Error NullDereference
  | Some arr => OK (copyWithin arr targetIndex startIndex endIndex)
  end.

(** *** Callbacks handed to the allocator *)

(** [activateElement]: the default data of the element is written at its slot
    with [InstancedBufferAttribute.set], which throws outside the array. *)
Definition activateElement (element : InstancedPanel) (bucketOffset indexInBucket : Z)
    (g : Group) : result Group :=
  let index := bucketOffset + indexInBucket in
  match instanceData g with
  | None => Error NullDereference
  | Some d =>
      if (0 <=? index) && (index <? len d)
      then OK (setArrays (instanceMatrix g)
                 (Some (writeSlot d index (defaultData element)))
                 (instanceClipping g) g)
      else Error RangeError
  end.

(** [setElementIndex] only tells the panel its index. *)
Definition setElementIndex (element : InstancedPanel) (index : Z) (g : Group)
    : result Group := OK g.

Definition bufferCopyWithin (targetIndex startIndex endIndex : Z) (g : Group)
    : result Group :=
  m <- copyWithinAttribute (instanceMatrix g) targetIndex startIndex endIndex ;;
  d <- copyWithinAttribute (instanceData g) targetIndex startIndex endIndex ;;
  c <- copyWithinAttribute (instanceClipping g) targetIndex startIndex endIndex ;;
  OK (setArrays (Some m) (Some d) (Some c) g).

(** [clearBufferAt]: [instanceMatrix.array.fill(0, 16 * index, 16 * index + 16)].
    Both bounds are multiples of the size of a block, so the floats filled are
    those of the blocks from [index] to [index + 1].  A zero matrix hides the
    element. *)
Definition clearBufferAt (index : Z) (g : Group) : result Group :=
  match instanceMatrix g with
  | None => Error NullDereference
  | Some m =>
      OK (setArrays (Some (fill m zeroBlock index (index + 1))) (instanceData g)
            (instanceClipping g) g)
  end.

Definition runCall (c : Call) (g : Group) : result Group :=
  match c with
  | Activate e o i => activateElement e o i g
  | ClearBufferAt s => clearBufferAt s g
  | SetElementIndex e i => setElementIndex e i g
  | BufferCopyWithin t s e => bufferCopyWithin t s e g
  end.

Fixpoint runCalls (cs : list Call) (g : Group) : result Group :=
  match cs with
  | [] => OK g
  | c :: r => g' <- runCall c g ;; runCalls r g'
  end.

(** *** Methods *)

Fixpoint lastOf {A : Type} (l : list A) : option A :=
  match l with
  | [] => None
  | x :: r => if isNil r then Some x else lastOf r
  end.

Definition updateCount (g : Group) : result Group :=
  match lastOf (buckets g) with
  | None => Error NullDereference
  | Some lastBucket =>
      let count := offset lastBucket + size lastBucket in
      match mesh g with
      | None => OK g
      | Some m =>
          OK (requestRender
                (setMesh (Some (mkMesh count (0 <? count) (meshRenderOrder m))) g))
      end
  end.

Definition schedule (time : Z) (g : Group) : Group :=
  setTimeoutRef time (clearTimeout (setNextUpdateTime (Some (AtTime (now g + time))) g)).

Definition requestUpdate (time : Z) (g : Group) : Group :=
  match nextUpdateTime g with
  | Some NextFrame => g
  | Some (AtTime t) => if t <? now g + time then g else schedule time g
  | None => schedule time g
  end.

Definition requestUpdateNextFrame (g : Group) : Group :=
  requestRender (unsetTimeoutRef (clearTimeout (setNextUpdateTime (Some NextFrame) g))).

Definition setRenderOrder (r : Z) (g : Group) : Group :=
  let g1 := setRenderOrderField r g in
  match mesh g1 with
  | None => g1
  | Some m => setMesh (Some (mkMesh (count m) (visible m) r)) g1
  end.

(** [Math.ceil(n * 1.5)] on an integer [n]. *)
Definition ceil15 (n : Z) : Z := (3 * n + 1) / 2.

(** The arrays are allocated anew, zero-filled, and take over the old contents
    that fit. *)
Definition reallocate (newSize : Z) (old : option (list block)) : list block :=
  match old with
  | None => repeat zeroBlock (Z.to_nat newSize)
  | Some arr =>
      firstn (Z.to_nat newSize) arr
        ++ repeat zeroBlock (Z.to_nat newSize - length arr)
  end.

(** [resize].  A negative length makes [new Float32Array] throw.  Disposing
    the old mesh and the scene graph it hangs in are left out.  The mesh class
    is outside the sources at hand; a fresh mesh is taken to draw nothing and
    to be visible, as a three.js object is, until [update] assigns both
    fields. *)
Definition resize (g : Group) : result Group :=
  let oldBufferSize := bufferElementSize g in
  let newSize := ceil15 (elementCount g) in
  let g1 := setBufferElementSize newSize g in
  let g2 := setBuckets (resizeSortedBucketsSpace (buckets g1) oldBufferSize newSize) g1 in
  if newSize <? 0 then Error RangeError
  else
    let g3 := setArrays (Some (reallocate newSize (instanceMatrix g2)))
                        (Some (reallocate newSize (instanceData g2)))
                        (Some (reallocate newSize (instanceClipping g2))) g2 in
    OK (emit (EvResize oldBufferSize newSize)
          (setMesh (Some (mkMesh 0 true (renderOrder g3))) g3)).

(** The call [updateSortedBucketsAllocation(this.buckets, this.activateElement,
    this.bufferCopyWithin)]. *)
Definition rearrange (g : Group) : result Group :=
  let '(bs, calls) := updateSortedBucketsAllocation (buckets g) in
  runCalls calls (emit EvRearrange (setBuckets bs g)).

(** The three branches of [update] that lay out the buffers.
    [elementCount <= bufferElementSize / 3] is decided on integers as
    [3 * elementCount <= bufferElementSize]. *)
Definition updateBuffers (g : Group) : result Group :=
  if bufferElementSize g <? elementCount g then
    g' <- resize g ;; rearrange g'
  else if 3 * elementCount g <=? bufferElementSize g then
    g' <- rearrange g ;; resize g'
  else rearrange g.

(** [update]; assigning to the fields of a missing mesh throws. *)
Definition update (g0 : Group) : result Group :=
  let g := emit EvUpdate g0 in
  if elementCount g =? 0 then
    match mesh g with
    | Some m => OK (setMesh (Some (mkMesh (count m) false (meshRenderOrder m))) g)
    | None => OK g
    end
  else
    g1 <- updateBuffers g ;;
    match mesh g1 with
    | None => Error NullDereference
    | Some m =>
        OK (setMesh (Some (mkMesh (elementCount g1) true (meshRenderOrder m))) g1)
    end.

Definition insert (bucketIndex : Z) (panel : InstancedPanel) (g : Group)
    : result Group :=
  let g1 := setElementCount (elementCount g + 1) g in
  let '(bs, calls, needsRearrange) :=
    addToSortedBuckets (buckets g1) bucketIndex panel in
  g2 <- runCalls calls (setBuckets bs g1) ;;
  if negb needsRearrange then updateCount g2
  else OK (requestUpdateNextFrame g2).

Definition delete (bucketIndex : Z) (elementIndex : option Z)
    (panel : InstancedPanel) (g : Group) : result Group :=
  let g1 := setElementCount (elementCount g - 1) g in
  r <- removeFromSortedBuckets (buckets g1) bucketIndex panel elementIndex ;;
  let '(bs, calls, needsRearrange) := r in
  g2 <- runCalls calls (setBuckets bs g1) ;;
  if negb needsRearrange then updateCount g2
  else OK (requestUpdate 1000 g2).

Definition onFrame (g : Group) : result Group :=
  match nextUpdateTime g with
  | Some NextFrame => update (setNextUpdateTime None g)
  | _ => OK g
  end.

(** *** The host *)

Definition timerDue (id : nat) (g : Group) : option Z :=
  option_map snd (find (fun t => Nat.eqb (fst t) id) (timers g)).

(** A pending timer whose time has come runs its callback,
    [requestUpdateNextFrame]. *)
Definition fireTimer (id : nat) (g : Group) : option Group :=
  match timerDue id g with
  | Some due =>
      if due <=? now g then
        Some (requestUpdateNextFrame
                (mkGroup (mesh g) (instanceMatrix g) (instanceData g)
                   (instanceClipping g) (buckets g) (elementCount g)
                   (bufferElementSize g) (nextUpdateTime g)
                   (nextUpdateTimeoutRef g) (renderOrder g) (now g)
                   (filter (fun t => negb (Nat.eqb (fst t) id)) (timers g))
                   (nextTimerId g) (renderRequests g) (trace g)))
      else None
  | None => None
  end.

Definition occupied (s : Z) (bs : list Bucket) : bool :=
  existsb (fun b => existsb (fun el => match snd el with
                                       | Some s' => s' =? s
                                       | None => false
                                       end) (elements b)) bs.

(** Modelled from the spec: an activated panel writes its transform, style and
    clipping blocks at the slot it was given ([instanced-panel.ts] is not part
    of the sources at hand). *)
Definition panelWrite (s : Z) (m d c : block) (g : Group) : option Group :=
  match instanceMatrix g, instanceData g, instanceClipping g with
  | Some am, Some ad, Some ac =>
      if occupied s (buckets g)
      then Some (setArrays (Some (writeSlot am s m)) (Some (writeSlot ad s d))
                   (Some (writeSlot ac s c)) g)
      else None
  | _, _, _ => None
  end.

End Group.

(** ** Moves of instance data *)

Module Moves.
Import SortedBuckets Group.

(** One slot copied: [copyWithin(target, start, start + 1)]. *)
Definition moveSlot {A : Type} (arr : list A) (m : Z * Z) : list A :=
  copyWithin arr (snd m) (fst m) (fst m + 1).

Definition applyMoves {A : Type} (arr : list A) (ms : list (Z * Z)) : list A :=
  fold_left moveSlot ms arr.

(** The order in which [copyCalls] issues the moves. *)
Definition copyOrder (ms : list (Z * Z)) : list (Z * Z) :=
  filter movesLeft ms ++ rev (filter movesRight ms).

(** [R] holds from every element to every later one. *)
Fixpoint pairwise {A : Type} (R : A -> A -> Prop) (l : list A) : Prop :=
  match l with
  | [] => True
  | a :: r => Forall (R a) r /\ pairwise R r
  end.

(** Both the current and the new slots increase along the moves. *)
Definition rising (a b : Z * Z) : Prop := fst a < fst b /\ snd a < snd b.

(** An earlier move neither overwrites the source nor the target of a later
    one. *)
Definition spares (a b : Z * Z) : Prop := snd a <> fst b /\ snd a <> snd b.

Definition inBounds (l : Z) (m : Z * Z) : Prop :=
  0 <= fst m < l /\ 0 <= snd m < l.

(** What a rearrangement looks at: the index and the elements of each
    bucket. *)
Definition shape (bs : list Bucket) : list (Z * list (InstancedPanel * option Z)) :=
  map (fun b => (index b, elements b)) bs.

(** The buckets after a rearrangement that leaves [t] slots of slack. *)
Definition packed (t : Z) (bs : list Bucket) : list Bucket :=
  giveSlackToLast t (packBuckets 0 (filter nonEmpty bs)).

(** All elements of the buckets, in bucket order. *)
Definition allElements (bs : list Bucket) : list (InstancedPanel * option Z) :=
  flat_map elements bs.

(** The slots at which the elements without a slot are activated when the
    elements are packed from [o]. *)
Fixpoint freshSlots (o : Z) (els : list (InstancedPanel * option Z)) : list Z :=
  match els with
  | [] => []
  | (_, Some _) :: r => freshSlots (o + 1) r
  | (_, None) :: r => o :: freshSlots (o + 1) r
  end.

Definition isNotice (c : Call) : bool :=
  match c with
  | Activate _ _ _ | SetElementIndex _ _ => true
  | _ => false
  end.

(** The default data written by the activations among the calls. *)
Fixpoint noticeWrites (calls : list Call) : list (Z * block) :=
  match calls with
  | [] => []
  | Activate e o i :: r => (o + i, defaultData e) :: noticeWrites r
  | _ :: r => noticeWrites r
  end.

Definition applyWrites (d : list block) (ws : list (Z * block)) : list block :=
  fold_left (fun a w => writeSlot a (fst w) (snd w)) ws d.

End Moves.

(** ** Invariants and reachable states *)

Module Invariants.
Import SortedBuckets Group.

Definition totalSize (bs : list Bucket) : Z :=
  fold_right (fun b acc => size b + acc) 0 bs.

(** The slots of the elements increase and lie in [[lo, hi)]. *)
Fixpoint slotsWithin (lo : Z) (els : list (InstancedPanel * option Z)) (hi : Z)
    : Prop :=
  match els with
  | [] => True
  | (_, None) :: r => slotsWithin lo r hi
  | (_, Some s) :: r => lo <= s < hi /\ slotsWithin (s + 1) r hi
  end.

(** The regions of the buckets follow each other inside the buffer, and every
    element with a slot lives in the region of its bucket. *)
Fixpoint regions (lo : Z) (bs : list Bucket) (cap : Z) : Prop :=
  match bs with
  | [] => lo <= cap
  | b :: r =>
      lo <= offset b /\ offset b <= regionEnd b
      /\ slotsWithin (offset b) (elements b) (regionEnd b)
      /\ regions (regionEnd b) r cap
  end.

Fixpoint sortedIdx (bs : list Bucket) : Prop :=
  match bs with
  | [] => True
  | b :: r => Forall (fun b' => index b < index b') r /\ sortedIdx r
  end.

(** Mesh and arrays exist together, from the first [resize] on, and the arrays
    have the length of the capacity. *)
Definition allocated (g : Group) : Prop :=
  match mesh g, instanceMatrix g, instanceData g, instanceClipping g with
  | None, None, None, None => bufferElementSize g = 0
  | Some _, Some m, Some d, Some c =>
      len m = bufferElementSize g /\ len d = bufferElementSize g
      /\ len c = bufferElementSize g
  | _, _, _, _ => False
  end.

(** The pending request: nothing, the next frame, or one timer due at the
    requested time. *)
Definition scheduled (g : Group) : Prop :=
  match nextUpdateTime g with
  | None => timers g = [] /\ nextUpdateTimeoutRef g = None
  | Some NextFrame => timers g = [] /\ nextUpdateTimeoutRef g = None
  | Some (AtTime t) =>
      exists id, nextUpdateTimeoutRef g = Some id /\ timers g = [(id, t)]
  end.

Record wf (g : Group) : Prop := mkWf {
  wf_alloc : allocated g;
  wf_sorted : sortedIdx (buckets g);
  wf_regions : regions 0 (buckets g) (bufferElementSize g);
  wf_count : totalSize (buckets g) = elementCount g;
  wf_space : totalSize (buckets g) + totalSlack (buckets g) = bufferElementSize g;
  wf_sched : scheduled g
}.

(** One move of the group or of its host: the public methods, a timer that
    fires, the clock, and a panel writing its instance data. *)
Inductive step : Group -> Group -> Prop :=
| step_insert bucketIndex panel g g' :
    insert bucketIndex panel g = OK g' -> step g g'
| step_delete bucketIndex elementIndex panel g g' :
    delete bucketIndex elementIndex panel g = OK g' -> step g g'
| step_frame g g' :
    onFrame g = OK g' -> step g g'
| step_timer id g g' :
    fireTimer id g = Some g' -> step g g'
| step_clock t g :
    now g <= t -> step g (setNow t g)
| step_order r g :
    step g (setRenderOrder r g)
| step_write s m d c g g' :
    panelWrite s m d c g = Some g' -> step g g'.

Inductive reachable : Group -> Prop :=
| reach_new r t : reachable (newGroup r t)
| reach_step g g' : reachable g -> step g g' -> reachable g'.

(** Packed buckets: every bucket starts where the one in front ends and its
    elements sit at its offset in order. *)
Fixpoint packedFrom (o : Z) (bs : list Bucket) : Prop :=
  match bs with
  | [] => True
  | b :: r =>
      offset b = o /\ aligned o (elements b) = true
      /\ packedFrom (o + size b) r
  end.

(** The blocks of a slot, when the arrays exist. *)
Definition matrixAt (g : Group) (s : Z) : option block :=
  match instanceMatrix g with Some m => readSlot m s | None => None end.

Definition dataAt (g : Group) (s : Z) : option block :=
  match instanceData g with Some d => readSlot d s | None => None end.

Definition clippingAt (g : Group) (s : Z) : option block :=
  match instanceClipping g with Some c => readSlot c s | None => None end.

(** [g'] is [g] with its buffers laid out anew: the buckets are packed in a
    buffer of [cap'] slots, the pending request is untouched and every element
    that had a slot finds its blocks at its new slot. *)
Definition laidOut (g g' : Group) (cap' : Z) (evs : list Event) : Prop :=
  wf g'
  /\ elementCount g' = elementCount g
  /\ bufferElementSize g' = cap'
  /\ buckets g' = Moves.packed (cap' - elementCount g) (buckets g)
  /\ trace g' = trace g ++ evs
  /\ nextUpdateTime g' = nextUpdateTime g
  /\ nextUpdateTimeoutRef g' = nextUpdateTimeoutRef g
  /\ timers g' = timers g
  /\ now g' = now g
  /\ (forall mv, In mv (elementMoves 0 (Moves.allElements (buckets g))) ->
        0 <= snd mv < elementCount g
        /\ matrixAt g' (snd mv) = matrixAt g (fst mv)
        /\ dataAt g' (snd mv) = dataAt g (fst mv)
        /\ clippingAt g' (snd mv) = clippingAt g (fst mv)).

(** The capacity [update] leaves behind when it finds [n] elements. *)
Definition capacityAfter (n cap : Z) : Z :=
  if (cap <? n) || (3 * n <=? cap) then ceil15 n else cap.

(** The events of the three branches of [update]. *)
Definition layoutEvents (n cap : Z) : list Event :=
  if cap <? n then [EvResize cap (ceil15 n); EvRearrange]
  else if 3 * n <=? cap then [EvRearrange; EvResize cap (ceil15 n)]
  else [EvRearrange].

End Invariants.

(** ** Scenarios and the properties under study *)

Module Scenarios.
Import SortedBuckets Group Moves Invariants.

(** A script of moves, to run a group into a concrete state. *)
Inductive Op : Type :=
| OpInsert (bucketIndex : Z) (panel : InstancedPanel)
| OpDelete (bucketIndex : Z) (elementIndex : option Z) (panel : InstancedPanel)
| OpFrame
| OpTimer (id : nat)
| OpClock (t : Z)
| OpWrite (s : Z) (m d c : block).

Definition toOption {A : Type} (r : result A) : option A :=
  match r with OK a => Some a | Error _ => None end.

Definition runOp (op : Op) (g : Group) : option Group :=
  match op with
  | OpInsert b p => toOption (insert b p g)
  | OpDelete b k p => toOption (delete b k p g)
  | OpFrame => toOption (onFrame g)
  | OpTimer id => fireTimer id g
  | OpClock t => if now g <=? t then Some (setNow t g) else None
  | OpWrite s m d c => panelWrite s m d c g
  end.

Fixpoint runOps (ops : list Op) (g : Group) : option Group :=
  match ops with
  | [] => Some g
  | op :: r => match runOp op g with Some g' => runOps r g' | None => None end
  end.

Definition stateAfter (ops : list Op) : Group :=
  match runOps ops (newGroup 0 0) with Some g => g | None => newGroup 0 0 end.

Definition panel1 : InstancedPanel := mkPanel 1 (repeat 1 16).
Definition panel2 : InstancedPanel := mkPanel 2 (repeat 2 16).
Definition panel3 : InstancedPanel := mkPanel 3 (repeat 3 16).
Definition panel4 : InstancedPanel := mkPanel 4 (repeat 4 16).

(** Two panels in bucket 0 and one in bucket 5, laid out by a frame: capacity
    5, two free slots behind bucket 5. *)
Definition settledOps : list Op :=
  [OpInsert 0 panel1; OpInsert 0 panel2; OpInsert 5 panel3; OpFrame].
Definition settledState : Group := stateAfter settledOps.


(** Then the first panel of bucket 0 is deleted: a rearrangement is due in a
    second. *)
Definition pendingOps : list Op :=
  settledOps ++ [OpDelete 0 (Some 0) panel1].
Definition pendingState : Group := stateAfter pendingOps.

(** [settledState] after the panel of bucket 5 has written its transform,
    style data and clipping into its slot, slot 2. *)
Definition writtenOps : list Op :=
  settledOps ++ [OpWrite 2 (repeat 7 16) (repeat 8 16) (repeat 9 16)].
Definition writtenState : Group := stateAfter writtenOps.


(** Two panels laid out, both deleted, and the delayed request come due. *)
Definition emptiedOps : list Op :=
  [OpInsert 0 panel1; OpInsert 0 panel2; OpFrame;
   OpDelete 0 (Some 0) panel1; OpDelete 0 (Some 0) panel2;
   OpClock 1000; OpTimer 0].
Definition emptiedState : Group := stateAfter emptiedOps.

(** Two panels laid out with capacity 3 and a third one put in the free
    slot: the last bucket is full. *)
Definition fullOps : list Op :=
  [OpInsert 0 panel1; OpInsert 0 panel2; OpFrame; OpInsert 0 panel3].
Definition fullState : Group := stateAfter fullOps.





(** [deletions elapsed n g g']: [n] deletions that each need a rearrangement
    lead from [g] to [g'], the first one at the time of [g], the last one
    [elapsed] milliseconds later, with no timer firing and no frame in
    between. *)
Inductive deletions : Z -> nat -> Group -> Group -> Prop :=
| deletions_first g g' bucketIndex elementIndex panel bs calls :
    removeFromSortedBuckets (buckets g) bucketIndex panel elementIndex
      = OK (bs, calls, true) ->
    delete bucketIndex elementIndex panel g = OK g' ->
    deletions 0 1 g g'
| deletions_next elapsed n g g1 g2 dt bucketIndex elementIndex panel bs calls :
    deletions elapsed n g g1 -> 0 <= dt ->
    removeFromSortedBuckets (buckets g1) bucketIndex panel elementIndex
      = OK (bs, calls, true) ->
    delete bucketIndex elementIndex panel (setNow (now g1 + dt) g1) = OK g2 ->
    deletions (elapsed + dt) (S n) g g2.

Definition isUpdate (e : Event) : bool :=
  match e with EvUpdate => true | _ => false end.

Definition isRearrange (e : Event) : bool :=
  match e with EvRearrange => true | _ => false end.

Definition countUpdates (tr : list Event) : nat := length (filter isUpdate tr).
Definition countRearranges (tr : list Event) : nat := length (filter isRearrange tr).

(** The burst of two deletions, ten milliseconds apart, out of
    [settledState]. *)
Definition burstOps : list Op :=
  pendingOps ++ [OpClock 10; OpDelete 0 (Some 0) panel2].
Definition burstState : Group := stateAfter burstOps.

Definition panel5 : InstancedPanel := mkPanel 5 (repeat 5 16).
Definition panel6 : InstancedPanel := mkPanel 6 (repeat 6 16).

(** Six panels laid out in a buffer of nine slots, the last two with
    transforms, then the first four deleted: the two panels left live at
    slots 4 and 5 and the buffer is due to shrink to three slots. *)
Definition sparseOps : list Op :=
  [OpInsert 0 panel1; OpInsert 0 panel2; OpInsert 0 panel3; OpInsert 0 panel4;
   OpInsert 0 panel5; OpInsert 0 panel6; OpFrame;
   OpWrite 4 (repeat 50 16) (repeat 51 16) (repeat 52 16);
   OpWrite 5 (repeat 60 16) (repeat 61 16) (repeat 62 16);
   OpDelete 0 (Some 0) panel1; OpDelete 0 (Some 0) panel2;
   OpDelete 0 (Some 0) panel3; OpDelete 0 (Some 0) panel4].
Definition sparseState : Group := stateAfter sparseOps.

(** The two orders [update] does not use. *)
Definition shrinkThenRearrange (g : Group) : result Group :=
  g' <- resize g ;; rearrange g'.

Definition rearrangeThenGrow (g : Group) : result Group :=
  g' <- rearrange g ;; resize g'.

(** What the allocator answers to an insertion into the group. *)
Definition insertNeedsRearrange (g : Group) (bucketIndex : Z)
    (panel : InstancedPanel) : bool :=
  snd (addToSortedBuckets (buckets g) bucketIndex panel).

Definition hide (m : Mesh) : Mesh := mkMesh (count m) false (meshRenderOrder m).

End Scenarios.

(** ** The group registry

    [PanelGroupManager]: a cache of groups by material class and by a key
    packed from the major index and the two shadow flags, with the render
    order and the depth test of the root fanned out to every group. *)

Module Registry.
Import SortedBuckets Group.

(** [ToInt32] on an integer. *)
Definition toInt32 (x : Z) : Z := (x + 2147483648) mod 4294967296 - 2147483648.

(** [x << k] for a shift count [0 <= k < 32]. *)
Definition shiftLeft32 (x k : Z) : Z := toInt32 (Z.shiftl (toInt32 x) k).

Definition boolBit (b : bool) : Z := if b then 1 else 0.

(** [(majorIndex << 2) + ((receiveShadow ? 1 : 0) << 1) + (castShadow ? 1 : 0)] *)
Definition groupKey (majorIndex : Z) (receiveShadow castShadow : bool) : Z :=
  shiftLeft32 majorIndex 2 + shiftLeft32 (boolBit receiveShadow) 1
  + boolBit castShadow.

(** [Required<PanelGroupProperties>]; a material class is known by a number. *)
Record PanelGroupProperties : Type := mkProperties {
  panelMaterialClass : nat;
  receiveShadow : bool;
  castShadow : bool
}.

(** [MeshBasicMaterial] *)
Definition meshBasicMaterial : nat := 0%nat.

Definition defaultPanelDependencies : PanelGroupProperties :=
  mkProperties meshBasicMaterial false false.

(** An [InstancedPanelGroup] with the constructor arguments the buffer model
    leaves out: the depth test and the disposal of its material, the major
    index of its order info and the shadow flags of its meshes. *)
Record PanelGroup : Type := mkPanelGroup {
  core : Group;
  materialDepthTest : bool;
  materialDisposed : bool;
  orderMajorIndex : Z;
  meshReceiveShadow : bool;
  meshCastShadow : bool
}.

Definition withCore (g : Group) (pg : PanelGroup) : PanelGroup :=
  mkPanelGroup g (materialDepthTest pg) (materialDisposed pg) (orderMajorIndex pg)
    (meshReceiveShadow pg) (meshCastShadow pg).

(** The constructor, on a host whose clock shows [t0]. *)
Definition newPanelGroup (renderOrder0 : Z) (depthTest0 : bool) (majorIndex : Z)
    (receiveShadow0 castShadow0 : bool) (t0 : Z) : PanelGroup :=
  mkPanelGroup (newGroup renderOrder0 t0) depthTest0 false majorIndex
    receiveShadow0 castShadow0.

(** [setDepthTest] *)
Definition setDepthTest (depthTest0 : bool) (pg : PanelGroup) : PanelGroup :=
  mkPanelGroup (core pg) depthTest0 (materialDisposed pg) (orderMajorIndex pg)
    (meshReceiveShadow pg) (meshCastShadow pg).

(** [setRenderOrder] of the group. *)
Definition setGroupRenderOrder (r : Z) (pg : PanelGroup) : PanelGroup :=
  withCore (setRenderOrder r (core pg)) pg.

(** [destroy]: the timer is cleared; without a mesh nothing else happens, with
    one the mesh is taken out of the scene and disposed, which is not
    recorded here, and the material is disposed. *)
Definition destroy (pg : PanelGroup) : PanelGroup :=
  let g := clearTimeout (core pg) in
  match mesh g with
  | None => withCore g pg
  | Some _ =>
      mkPanelGroup g (materialDepthTest pg) true (orderMajorIndex pg)
        (meshReceiveShadow pg) (meshCastShadow pg)
  end.

(** A [Map] in insertion order. *)
Fixpoint mapGet {K V : Type} (eqb : K -> K -> bool) (k : K) (m : list (K * V))
    : option V :=
  match m with
  | [] => None
  | (k', v) :: r => if eqb k k' then Some v else mapGet eqb k r
  end.

Fixpoint mapSet {K V : Type} (eqb : K -> K -> bool) (k : K) (v : V)
    (m : list (K * V)) : list (K * V) :=
  match m with
  | [] => [(k, v)]
  | (k', v') :: r =>
      if eqb k k' then (k, v) :: r else (k', v') :: mapSet eqb k v r
  end.

(** The manager: the two signals of the root, whether its initializers have
    run (the effects that follow the signals exist from then on), the map of
    groups, the clock of the host and the render requests of the effects.
    Every group carries its own view of the host, its clock and its timer, as
    in the model of the group. *)
Record Manager : Type := mkManager {
  renderOrderSignal : Z;
  depthTestSignal : bool;
  initialized : bool;
  groupMap : list (nat * list (Z * PanelGroup));
  hostNow : Z;
  managerRenders : nat
}.

Definition newManager (renderOrder0 : Z) (depthTest0 : bool) (t0 : Z) : Manager :=
  mkManager renderOrder0 depthTest0 false [] t0 O.

Definition withGroupMap (m : list (nat * list (Z * PanelGroup))) (mgr : Manager)
    : Manager :=
  mkManager (renderOrderSignal mgr) (depthTestSignal mgr) (initialized mgr) m
    (hostNow mgr) (managerRenders mgr).

(** [traverse] *)
Definition traverse (fn : PanelGroup -> PanelGroup) (mgr : Manager) : Manager :=
  withGroupMap
    (map (fun entry =>
            (fst entry, map (fun ge => (fst ge, fn (snd ge))) (snd entry)))
       (groupMap mgr))
    mgr.

(** What a caller holds of a group: its place in the map. *)
Definition GroupRef : Type := (nat * Z)%type.

Definition groupAt (ref : GroupRef) (mgr : Manager) : option PanelGroup :=
  match mapGet Nat.eqb (fst ref) (groupMap mgr) with
  | Some groups => mapGet Z.eqb (snd ref) groups
  | None => None
  end.

(** [getGroup]: the group of the key is returned, or constructed with the
    values the signals have now. *)
Definition getGroup (majorIndex : Z) (properties : option PanelGroupProperties)
    (mgr : Manager) : Manager * GroupRef :=
  let props := match properties with
               | Some p => p
               | None => defaultPanelDependencies
               end in
  let groups := match mapGet Nat.eqb (panelMaterialClass props) (groupMap mgr) with
                | Some gs => gs
                | None => []
                end in
  let key := groupKey majorIndex (receiveShadow props) (castShadow props) in
  match mapGet Z.eqb key groups with
  | Some _ =>
      (mgr, (panelMaterialClass props, key))
  | None =>
      let panelGroup :=
        newPanelGroup (renderOrderSignal mgr) (depthTestSignal mgr) majorIndex
          (receiveShadow props) (castShadow props) (hostNow mgr) in
      (withGroupMap
         (mapSet Nat.eqb (panelMaterialClass props)
            (mapSet Z.eqb key panelGroup groups) (groupMap mgr))
         mgr,
       (panelMaterialClass props, key))
  end.

(** The effect on the render order: it runs when the initializers run and
    whenever the signal changes afterwards. *)
Definition renderOrderEffect (mgr : Manager) : Manager :=
  let m := traverse (setGroupRenderOrder (renderOrderSignal mgr)) mgr in
  mkManager (renderOrderSignal m) (depthTestSignal m) (initialized m) (groupMap m)
    (hostNow m) (S (managerRenders m)).

Definition depthTestEffect (mgr : Manager) : Manager :=
  let m := traverse (setDepthTest (depthTestSignal mgr)) mgr in
  mkManager (renderOrderSignal m) (depthTestSignal m) (initialized m) (groupMap m)
    (hostNow m) (S (managerRenders m)).

(** The initializers of the constructor are run. *)
Definition initialize (mgr : Manager) : Manager :=
  depthTestEffect
    (renderOrderEffect
       (mkManager (renderOrderSignal mgr) (depthTestSignal mgr) true (groupMap mgr)
          (hostNow mgr) (managerRenders mgr))).

(** The root assigns a signal. *)
Definition assignRenderOrder (r : Z) (mgr : Manager) : Manager :=
  let m := mkManager r (depthTestSignal mgr) (initialized mgr) (groupMap mgr)
             (hostNow mgr) (managerRenders mgr) in
  if initialized mgr && negb (r =? renderOrderSignal mgr)
  then renderOrderEffect m else m.

Definition assignDepthTest (d : bool) (mgr : Manager) : Manager :=
  let m := mkManager (renderOrderSignal mgr) d (initialized mgr) (groupMap mgr)
             (hostNow mgr) (managerRenders mgr) in
  if initialized mgr && negb (Bool.eqb d (depthTestSignal mgr))
  then depthTestEffect m else m.

(** The teardown of the manager: every group is destroyed. *)
Definition destroyAll (mgr : Manager) : Manager := traverse destroy mgr.

(** A caller acts on the group it holds. *)
Definition updateGroup (ref : GroupRef) (pg : PanelGroup) (mgr : Manager) : Manager :=
  match mapGet Nat.eqb (fst ref) (groupMap mgr) with
  | Some groups =>
      withGroupMap
        (mapSet Nat.eqb (fst ref) (mapSet Z.eqb (snd ref) pg groups) (groupMap mgr))
        mgr
  | None => mgr
  end.

(** The frame callback of the manager: [onFrame] of every group, in the
    order of the maps; an exception of a group ends the traversal. *)
Fixpoint frameGroups (groups : list (Z * PanelGroup))
    : result (list (Z * PanelGroup)) :=
  match groups with
  | [] => OK []
  | ge :: r =>
      g' <- onFrame (core (snd ge)) ;;
      r' <- frameGroups r ;;
      OK ((fst ge, withCore g' (snd ge)) :: r')
  end.

Fixpoint frameMaps (m : list (nat * list (Z * PanelGroup)))
    : result (list (nat * list (Z * PanelGroup))) :=
  match m with
  | [] => OK []
  | entry :: r =>
      groups' <- frameGroups (snd entry) ;;
      r' <- frameMaps r ;;
      OK ((fst entry, groups') :: r')
  end.

Definition managerOnFrame (mgr : Manager) : result Manager :=
  m <- frameMaps (groupMap mgr) ;; OK (withGroupMap m mgr).

(** The moves of a group that a panel or the host can make through the
    manager: everything but a direct [setRenderOrder]. *)
Inductive groupMove : Group -> Group -> Prop :=
| move_insert bucketIndex panel g g' :
    insert bucketIndex panel g = OK g' -> groupMove g g'
| move_delete bucketIndex elementIndex panel g g' :
    delete bucketIndex elementIndex panel g = OK g' -> groupMove g g'
| move_frame g g' :
    onFrame g = OK g' -> groupMove g g'
| move_timer id g g' :
    fireTimer id g = Some g' -> groupMove g g'
| move_clock t g :
    now g <= t -> groupMove g (setNow t g)
| move_write s m d c g g' :
    panelWrite s m d c g = Some g' -> groupMove g g'.

Inductive managerStep : Manager -> Manager -> Prop :=
| mstep_getGroup majorIndex properties mgr :
    managerStep mgr (fst (getGroup majorIndex properties mgr))
| mstep_renderOrder r mgr :
    managerStep mgr (assignRenderOrder r mgr)
| mstep_depthTest d mgr :
    managerStep mgr (assignDepthTest d mgr)
| mstep_group ref pg g' mgr :
    groupAt ref mgr = Some pg -> groupMove (core pg) g' ->
    managerStep mgr (updateGroup ref (withCore g' pg) mgr)
| mstep_initialize mgr :
    initialized mgr = false -> managerStep mgr (initialize mgr)
| mstep_frame mgr mgr' :
    initialized mgr = true -> managerOnFrame mgr = OK mgr' ->
    managerStep mgr mgr'.

(** The states of a manager: groups can be asked for and filled before its
    initializers run; frames reach it only afterwards. *)
Inductive managerReachable : Manager -> Prop :=
| mreach_new r d t : managerReachable (newManager r d t)
| mreach_step mgr mgr' :
    managerReachable mgr -> managerStep mgr mgr' -> managerReachable mgr'.

(** A group carries the settings of the manager. *)
Definition inSync (mgr : Manager) (pg : PanelGroup) : Prop :=
  renderOrder (core pg) = renderOrderSignal mgr
  /\ materialDepthTest pg = depthTestSignal mgr
  /\ (forall m, mesh (core pg) = Some m -> meshRenderOrder m = renderOrderSignal mgr).

(** The mesh of a group is drawn in the render order of the group. *)
Definition meshOrdered (g : Group) : Prop :=
  forall m, mesh g = Some m -> meshRenderOrder m = renderOrder g.

(** A script of moves of a manager. *)
Inductive ManagerOp : Type :=
| MopInitialize
| MopGetGroup (majorIndex : Z) (properties : option PanelGroupProperties)
| MopRenderOrder (r : Z)
| MopDepthTest (d : bool)
| MopInsert (ref : GroupRef) (bucketIndex : Z) (panel : InstancedPanel)
| MopDelete (ref : GroupRef) (bucketIndex : Z) (elementIndex : option Z)
    (panel : InstancedPanel)
| MopFrame.

Definition onGroup (ref : GroupRef) (f : Group -> result Group) (mgr : Manager)
    : option Manager :=
  match groupAt ref mgr with
  | Some pg =>
      match f (core pg) with
      | OK g' => Some (updateGroup ref (withCore g' pg) mgr)
      | Error _ => None
      end
  | None => None
  end.

Definition runManagerOp (op : ManagerOp) (mgr : Manager) : option Manager :=
  match op with
  | MopInitialize => if initialized mgr then None else Some (initialize mgr)
  | MopGetGroup majorIndex properties => Some (fst (getGroup majorIndex properties mgr))
  | MopRenderOrder r => Some (assignRenderOrder r mgr)
  | MopDepthTest d => Some (assignDepthTest d mgr)
  | MopInsert ref bucketIndex panel => onGroup ref (insert bucketIndex panel) mgr
  | MopDelete ref bucketIndex elementIndex panel =>
      onGroup ref (delete bucketIndex elementIndex panel) mgr
  | MopFrame =>
      if initialized mgr then
        match managerOnFrame mgr with
        | OK mgr' => Some mgr'
        | Error _ => None
        end
      else None
  end.

Fixpoint runManagerOps (ops : list ManagerOp) (mgr : Manager) : option Manager :=
  match ops with
  | [] => Some mgr
  | op :: r =>
      match runManagerOp op mgr with
      | Some mgr' => runManagerOps r mgr'
      | None => None
      end
  end.

Definition managerAfter (ops : list ManagerOp) : Manager :=
  match runManagerOps ops (newManager 5 true 0) with
  | Some mgr => mgr
  | None => newManager 5 true 0
  end.

(** A group for major index 1 is made and gets two panels, the root moves to
    render order 6, and only then the initializers run.  After a frame the
    root moves to render order 7 and switches the depth test off, a second
    group is made for a shadow-casting material and gets a panel, and the
    first panel of the first group is deleted: the first group waits for its
    timer, the second one for the next frame. *)
Definition busyManagerOps : list ManagerOp :=
  [MopGetGroup 1 None;
   MopInsert (meshBasicMaterial, 4) 0 Scenarios.panel1;
   MopInsert (meshBasicMaterial, 4) 0 Scenarios.panel2;
   MopRenderOrder 6;
   MopInitialize;
   MopFrame;
   MopRenderOrder 7;
   MopDepthTest false;
   MopGetGroup 2 (Some (mkProperties 1 false true));
   MopInsert (1%nat, 9) 3 Scenarios.panel3;
   MopDelete (meshBasicMaterial, 4) 0 (Some 0) Scenarios.panel1].
Definition busyManager : Manager := managerAfter busyManagerOps.

(** A group with a delayed update pending, and a group that has never had a
    mesh. *)
Definition pendingPanelGroup : PanelGroup :=
  mkPanelGroup Scenarios.pendingState true false 0 false false.

End Registry.

(** ** More states of a group *)

Module MoreScenarios.
Import SortedBuckets Group Scenarios.

(** The three insertions of [settledState], before the frame. *)
Definition unsettledOps : list Op :=
  [OpInsert 0 panel1; OpInsert 0 panel2; OpInsert 5 panel3].
Definition unsettledState : Group := stateAfter unsettledOps.

(** [pendingState] after an update. *)
Definition updatedState : Group :=
  Eval vm_compute in
    match update pendingState with OK g => g | Error _ => pendingState end.

(** [settledState] with a fourth panel, put into the free slot of bucket 5. *)
Definition grownState : Group :=
  Eval vm_compute in
    match insert 5 panel4 settledState with OK g => g | Error _ => settledState end.

(** [settledState] after a resize. *)
Definition resizedState : Group :=
  Eval vm_compute in
    match resize settledState with OK g => g | Error _ => settledState end.

(** [pendingState] a second later, before and after its timer fires. *)
Definition dueState : Group := stateAfter (pendingOps ++ [OpClock 1000]).
Definition firedState : Group :=
  Eval vm_compute in
    match fireTimer 0 dueState with Some g => g | None => dueState end.

End MoreScenarios.

(** ** Deferred layout requests of the root *)

Module Layout.

(** A flex node, as far as the request looks at it: which node it is and
    whether it has a yoga node. *)
Record FlexNode : Type := mkFlexNode {
  nodeId : nat;
  hasYogaNode : bool
}.

(** The function [createDeferredRequestLayoutCalculation] returns, on the
    variable [requestedNode] it closes over. *)
Definition requestCalculateLayout (node : FlexNode)
    (requestedNode : option FlexNode) : option FlexNode :=
  match requestedNode with
  | Some _ => requestedNode
  | None => if hasYogaNode node then Some node else None
  end.

(** Its [onFrame]: the new [requestedNode] and the nodes whose
    [calculateLayout] ran. *)
Definition onFrame (requestedNode : option FlexNode)
    : option FlexNode * list FlexNode :=
  match requestedNode with
  | None => (None, [])
  | Some node => (None, [node])
  end.

Definition requestAll (nodes : list FlexNode) (requestedNode : option FlexNode)
    : option FlexNode :=
  fold_left (fun r n => requestCalculateLayout n r) nodes requestedNode.

End Layout.

(** ** Names of the HTML conversion *)

Module Convert.

(** A string is its list of UTF-16 code units. *)
Definition jsString : Type := list Z.

Definition hyphen : Z := 45.

(** The class [[a-zA-z]] of [kebebToCamelRegex]: the units from [A] to [z]. *)
Definition inClass (c : Z) : bool := (65 <=? c) && (c <=? 122).

(** [toUpperCase] on one unit of that class. *)
Definition toUpperCase (c : Z) : Z :=
  if (97 <=? c) && (c <=? 122) then c - 32 else c.

(** [kebabToCamelCase]: every match of [/-([a-zA-z])/g], found from left to
    right, is replaced by its group in upper case. *)
Fixpoint kebabToCamelCase (name : jsString) : jsString :=
  match name with
  | [] => []
  | x :: r =>
      match r with
      | c :: r' =>
          if (x =? hyphen) && inClass c
          then toUpperCase c :: kebabToCamelCase r'
          else x :: kebabToCamelCase r
      | [] => [x]
      end
  end.

(** The matches of the regular expression in a name. *)
Fixpoint matches (name : jsString) : nat :=
  match name with
  | [] => O
  | x :: r =>
      match r with
      | c :: r' =>
          if (x =? hyphen) && inClass c then S (matches r') else matches r
      | [] => O
      end
  end.

Definition capitalize (word : jsString) : jsString :=
  match word with
  | [] => []
  | c :: r => toUpperCase c :: r
  end.

(** Words joined by hyphens. *)
Fixpoint joinHyphen (words : list jsString) : jsString :=
  match words with
  | [] => []
  | w :: r =>
      match r with
      | [] => w
      | _ :: _ => w ++ hyphen :: joinHyphen r
      end
  end.

Definition noHyphen (w : jsString) : bool := forallb (fun x => negb (x =? hyphen)) w.

(** A word of a kebab-case name: not empty, starting with a unit of the
    class, without a hyphen. *)
Definition isWord (w : jsString) : bool :=
  match w with
  | [] => false
  | c :: _ => inClass c && noHyphen w
  end.

(** *** Tailwind classes *)

Fixpoint stringEqb (a b : jsString) : bool :=
  match a, b with
  | [], [] => true
  | x :: a', y :: b' => (x =? y) && stringEqb a' b'
  | _, _ => false
  end.

(** The units [\s] matches: white space and line terminators. *)
Definition isWhiteSpace (c : Z) : bool :=
  existsb (Z.eqb c) [9; 10; 11; 12; 13; 32; 160; 5760; 8232; 8233; 8239; 8287;
                     12288; 65279]
  || ((8192 <=? c) && (c <=? 8202)).

(** The successive results of [nonWhitespaceRegex.exec], from [lastIndex] zero
    until it answers [null] (which sets [lastIndex] back to zero): the maximal
    runs of units that are not white space.  [current] is the run being
    read. *)
Fixpoint nonWhitespaceRuns (s current : jsString) : list jsString :=
  match s with
  | [] => if SortedBuckets.isNil current then [] else [current]
  | c :: r =>
      if isWhiteSpace c
      then (if SortedBuckets.isNil current then nonWhitespaceRuns r []
            else current :: nonWhitespaceRuns r [])
      else nonWhitespaceRuns r (current ++ [c])
  end.

(** An object: its own enumerable properties in order. *)
Definition object (V : Type) : Type := list (jsString * V).

Definition getProperty {V : Type} (o : object V) (key : jsString) : option V :=
  Registry.mapGet stringEqb key o.

(** [Object.assign(target, source)] *)
Definition objectAssign {V : Type} (target source : object V) : object V :=
  fold_left (fun t kv => Registry.mapSet stringEqb (fst kv) (snd kv) t) source target.

(** [tailwindToJson]; [classes] is the map from class names to the objects of
    their properties. *)
Definition tailwindToJson {V : Type} (classNames : jsString)
    (classes : list (jsString * object V)) : object V :=
  fold_left
    (fun result className =>
       match Registry.mapGet stringEqb className classes with
       | Some classesEntry => objectAssign result classesEntry
       | None => result
       end)
    (nonWhitespaceRuns classNames []) [].

(** *** Default and inheriting properties *)

(** [delete o[key]] *)
Definition objectDelete {V : Type} (o : object V) (key : jsString) : object V :=
  filter (fun kv => negb (stringEqb (fst kv) key)) o.

(** The keys of an object differ from each other. *)
Fixpoint uniqueKeys {V : Type} (o : object V) : bool :=
  match o with
  | [] => true
  | kv :: r => negb (existsb (stringEqb (fst kv)) (map fst r)) && uniqueKeys r
  end.

(** The result of [convertMergeSortProperties]. *)
Record SortedProperties (V : Type) : Type := mkSortedProperties {
  inheritingProperties : object V;
  properties : object V;
  srOnly : bool
}.
Arguments mkSortedProperties {V} _ _ _.
Arguments inheritingProperties {V} _.
Arguments properties {V} _.
Arguments srOnly {V} _.

(** [convertMergeSortProperties], from the pair [convertHtmlAttributes]
    returned on.  [isInheritingProperty] is imported from [properties.js],
    which is not part of the sources at hand, and is a parameter here.  The
    loop runs over the keys the merged object has when it starts. *)
Definition convertMergeSortProperties {V : Type}
    (isInheritingProperty : jsString -> bool)
    (defaultProperties : option (object V))
    (converted : object V * bool) : SortedProperties V :=
  let result :=
    objectAssign
      (objectAssign []
         (match defaultProperties with Some d => d | None => [] end))
      (fst converted) in
  let sorted :=
    fold_left
      (fun (st : object V * object V) key =>
         if isInheritingProperty key then
           match getProperty (fst st) key with
           | Some v =>
               (objectDelete (fst st) key,
                Registry.mapSet stringEqb key v (snd st))
           | None => st
           end
         else st)
      (map fst result) (result, []) in
  mkSortedProperties (snd sorted) (fst sorted) (snd converted).

End Convert.

(** ** Lists and slots *)

Lemma len_nil {A : Type} : len (@nil A) = 0.
Proof. reflexivity. Qed.

Lemma len_cons {A : Type} (x : A) (l : list A) : len (x :: l) = 1 + len l.
Proof. unfold len. simpl length. lia. Qed.

Lemma len_app {A : Type} (l1 l2 : list A) : len (l1 ++ l2) = len l1 + len l2.
Proof. unfold len. rewrite length_app. lia. Qed.

Lemma len_nonneg {A : Type} (l : list A) : 0 <= len l.
Proof. unfold len. lia. Qed.

Lemma length_updNth {A : Type} (n : nat) (v : A) (l : list A) :
  length (updNth n v l) = length l.
Proof.
  revert n. induction l as [|x l IH]; intros [|n]; simpl; auto.
Qed.

Lemma len_writeSlot {A : Type} (arr : list A) (s : Z) (v : A) :
  len (writeSlot arr s v) = len arr.
Proof.
  unfold writeSlot, len. destruct (0 <=? s); auto.
  now rewrite length_updNth.
Qed.

Lemma nth_error_updNth_same {A : Type} (n : nat) (v : A) (l : list A) :
  (n < length l)%nat -> nth_error (updNth n v l) n = Some v.
Proof.
  revert n. induction l as [|x l IH]; intros [|n] H; simpl in *; try lia; auto.
  apply IH. lia.
Qed.

Lemma nth_error_updNth_other {A : Type} (n m : nat) (v : A) (l : list A) :
  n <> m -> nth_error (updNth n v l) m = nth_error l m.
Proof.
  revert n m. induction l as [|x l IH]; intros [|n] [|m] H; simpl; auto.
  congruence.
Qed.

Lemma readSlot_writeSlot_same {A : Type} (arr : list A) (s : Z) (v : A) :
  0 <= s < len arr -> readSlot (writeSlot arr s v) s = Some v.
Proof.
  intros H. unfold readSlot, writeSlot, len in *.
  destruct (Z.leb_spec 0 s); try lia.
  apply nth_error_updNth_same. lia.
Qed.

Lemma readSlot_writeSlot_other {A : Type} (arr : list A) (s t : Z) (v : A) :
  s <> t -> readSlot (writeSlot arr s v) t = readSlot arr t.
Proof.
  intros H. unfold readSlot, writeSlot.
  destruct (Z.leb_spec 0 t); auto.
  destruct (Z.leb_spec 0 s); auto.
  apply nth_error_updNth_other. lia.
Qed.

Lemma readSlot_Some {A : Type} (arr : list A) (s : Z) :
  0 <= s < len arr -> exists v, readSlot arr s = Some v.
Proof.
  intros H. unfold readSlot, len in *.
  destruct (Z.leb_spec 0 s); try lia.
  destruct (nth_error arr (Z.to_nat s)) eqn:E; eauto.
  apply nth_error_None in E. lia.
Qed.

Lemma readSlot_bounds {A : Type} (arr : list A) (s : Z) (v : A) :
  readSlot arr s = Some v -> 0 <= s < len arr.
Proof.
  unfold readSlot, len. destruct (Z.leb_spec 0 s) as [Hs|Hs]; try discriminate.
  intros Hr. assert (Hn : nth_error arr (Z.to_nat s) <> None) by congruence.
  apply nth_error_Some in Hn. lia.
Qed.

(** ** The allocator keeps its books *)

Module SortedBucketsFacts.
Import SortedBuckets Invariants.

Lemma slotsWithin_weaken lo lo' hi hi' els :
  slotsWithin lo els hi -> lo' <= lo -> hi <= hi' -> slotsWithin lo' els hi'.
Proof.
  revert lo lo'. induction els as [|[e [s|]] r IH]; simpl; intros lo lo' H Hl Hh; auto.
  - destruct H as [Hs Hr]. split; [lia|]. eapply IH; eauto. lia.
  - eapply IH; eauto.
Qed.

Lemma slotsWithin_app_none lo hi els e :
  slotsWithin lo els hi -> slotsWithin lo (els ++ [(e, None)]) hi.
Proof.
  revert lo. induction els as [|[e' [s|]] r IH]; simpl; intros lo H; auto.
  destruct H; split; auto.
Qed.

Lemma slotsWithin_app_aligned lo o hi els e :
  aligned o els = true -> lo <= o -> o + len els < hi ->
  slotsWithin lo (els ++ [(e, Some (o + len els))]) hi.
Proof.
  revert lo o. induction els as [|[e' [s|]] r IH]; simpl; intros lo o Ha Hl Hh.
  - rewrite len_nil in *. split; [lia|exact I].
  - apply andb_prop in Ha. destruct Ha as [Hs Ha]. apply Z.eqb_eq in Hs. subst s.
    rewrite len_cons in *. pose proof (len_nonneg r). split; [lia|].
    replace (o + (1 + len r)) with ((o + 1) + len r) by lia.
    apply IH; auto; lia.
  - discriminate.
Qed.

Lemma slotsWithin_removeNth lo hi n els :
  slotsWithin lo els hi -> slotsWithin lo (removeNth n els) hi.
Proof.
  revert lo n. induction els as [|[e [s|]] r IH]; intros lo [|n]; simpl; intros Hw; auto.
  - destruct Hw as [Hs Hr]. eapply slotsWithin_weaken; eauto; lia.
  - destruct Hw; split; auto.
Qed.

Lemma len_removeNth {A : Type} (n : nat) (l : list A) :
  (n < length l)%nat -> len (removeNth n l) = len l - 1.
Proof.
  revert n. induction l as [|x l IH]; intros [|n] Hn;
    cbn [removeNth length] in *; try lia.
  - rewrite len_cons. lia.
  - rewrite !len_cons. rewrite IH; lia.
Qed.

(** What [addElement] does to one bucket. *)
Lemma addElement_spec b e b' calls needs :
  addElement b e = (b', calls, needs) ->
  index b' = index b /\ offset b' = offset b /\ size b' = size b + 1
  /\ slack b' = slack b - 1 /\ regionEnd b' = regionEnd b
  /\ (needs = true /\ calls = [] \/
      needs = false /\ calls = [Activate e (offset b) (size b)]
      /\ hasCleanSlack b = true).
Proof.
  unfold addElement. destruct (hasCleanSlack b) eqn:Hc; intros H; inversion H; subst;
    unfold regionEnd, size; simpl; rewrite len_app, len_cons, len_nil;
    repeat split; try lia; auto.
Qed.

Lemma addElement_slots b e b' calls needs :
  addElement b e = (b', calls, needs) ->
  slotsWithin (offset b) (elements b) (regionEnd b) ->
  slotsWithin (offset b') (elements b') (regionEnd b').
Proof.
  unfold addElement. destruct (hasCleanSlack b) eqn:Hc; intros H Hs; inversion H; subst;
    unfold regionEnd, size in *; simpl; rewrite len_app, len_cons, len_nil.
  - unfold hasCleanSlack in Hc. apply andb_prop in Hc. destruct Hc as [Ha Hp].
    apply Z.ltb_lt in Hp.
    apply slotsWithin_app_aligned; auto; lia.
  - apply slotsWithin_app_none.
    eapply slotsWithin_weaken; eauto; lia.
Qed.

Lemma regions_le lo bs cap : regions lo bs cap -> lo <= cap.
Proof.
  revert lo. induction bs as [|b r IH]; simpl; intros lo H; auto.
  destruct H as (H1 & H2 & _ & H4). apply IH in H4. lia.
Qed.

Lemma regions_weaken lo lo' bs cap :
  regions lo bs cap -> lo' <= lo -> regions lo' bs cap.
Proof.
  destruct bs as [|b r]; simpl; intros H Hl; [lia|].
  destruct H as (H1 & H2 & H3 & H4). repeat split; auto; lia.
Qed.

Lemma addElement_new bi o e :
  addElement (mkBucket bi o [] 0) e = (mkBucket bi o [(e, None)] (-1), [], true).
Proof. reflexivity. Qed.

Lemma totalSize_cons b r : totalSize (b :: r) = size b + totalSize r.
Proof. reflexivity. Qed.

Lemma totalSlack_cons b r : totalSlack (b :: r) = slack b + totalSlack r.
Proof. reflexivity. Qed.

Lemma totalSize_nil : totalSize [] = 0.
Proof. reflexivity. Qed.

Lemma totalSlack_nil : totalSlack [] = 0.
Proof. reflexivity. Qed.

Ltac books :=
  repeat rewrite ?totalSize_cons, ?totalSlack_cons, ?totalSize_nil, ?totalSlack_nil in *.

Ltac lens :=
  unfold regionEnd, size in *; cbn [index offset elements slack] in *;
  repeat rewrite ?len_app, ?len_cons, ?len_nil in *.

Lemma addFrom_books bs : forall pe bi e bs' calls needs,
  addFrom pe bs bi e = (bs', calls, needs) ->
  totalSize bs' = totalSize bs + 1 /\ totalSlack bs' = totalSlack bs - 1
  /\ bs' <> [].
Proof.
  induction bs as [|b r IH]; cbn [addFrom]; intros pe bi e bs' calls needs H.
  - rewrite addElement_new in H. inversion H; subst.
    books. lens. repeat split; try lia. discriminate.
  - destruct (bi =? index b).
    + destruct (addElement b e) as [[b' c] n] eqn:E. inversion H; subst.
      apply addElement_spec in E. destruct E as (_ & _ & Hs & Hk & _).
      books. repeat split; try lia. discriminate.
    + destruct (bi <? index b).
      * rewrite addElement_new in H. inversion H; subst.
        books. lens.
        repeat split; try lia. discriminate.
      * destruct (addFrom (regionEnd b) r bi e) as [[r' c] n] eqn:E.
        inversion H; subst. apply IH in E. destruct E as (Hs & Hk & _).
        books. repeat split; try lia. discriminate.
Qed.

Lemma addFrom_above bs : forall lo pe bi e bs' calls needs,
  addFrom pe bs bi e = (bs', calls, needs) ->
  Forall (fun b => lo < index b) bs -> lo < bi ->
  Forall (fun b => lo < index b) bs'.
Proof.
  induction bs as [|b r IH]; cbn [addFrom]; intros lo pe bi e bs' calls needs H Hf Hl.
  - rewrite addElement_new in H. inversion H; subst.
    constructor; auto.
  - inversion Hf as [|? ? Hb Hr]; subst.
    destruct (bi =? index b).
    + destruct (addElement b e) as [[b' c] n] eqn:E. inversion H; subst.
      apply addElement_spec in E. destruct E as (Hi & _).
      constructor; auto. lia.
    + destruct (bi <? index b).
      * rewrite addElement_new in H. inversion H; subst.
        constructor; auto.
      * destruct (addFrom (regionEnd b) r bi e) as [[r' c] n] eqn:E.
        inversion H; subst. constructor; auto. eapply IH; eauto.
Qed.

Lemma addFrom_sorted bs : forall pe bi e bs' calls needs,
  addFrom pe bs bi e = (bs', calls, needs) ->
  sortedIdx bs -> sortedIdx bs'.
Proof.
  induction bs as [|b r IH]; cbn [addFrom]; intros pe bi e bs' calls needs H Hs.
  - rewrite addElement_new in H. inversion H; subst. simpl. auto.
  - destruct Hs as [Hf Hs].
    destruct (Z.eqb_spec bi (index b)) as [Heq|Hne].
    + destruct (addElement b e) as [[b' c] n] eqn:E. inversion H; subst.
      apply addElement_spec in E. destruct E as (Hi & _).
      simpl. rewrite Hi. auto.
    + destruct (Z.ltb_spec bi (index b)) as [Hlt|Hge].
      * rewrite addElement_new in H. inversion H; subst.
        simpl. repeat split; auto.
        constructor; auto.
        eapply Forall_impl; [|exact Hf]. simpl. intros; lia.
      * destruct (addFrom (regionEnd b) r bi e) as [[r' c] n] eqn:E.
        inversion H; subst. simpl. split.
        -- eapply addFrom_above; eauto. lia.
        -- eapply IH; eauto.
Qed.

Lemma addFrom_regions bs : forall lo bi e bs' calls needs cap,
  addFrom lo bs bi e = (bs', calls, needs) ->
  regions lo bs cap -> regions lo bs' cap.
Proof.
  induction bs as [|b r IH]; cbn [addFrom regions];
    intros lo bi e bs' calls needs cap H Hr.
  - rewrite addElement_new in H. inversion H; subst.
    cbn [regions slotsWithin]. lens. repeat split; try lia.
  - destruct Hr as (H1 & H2 & H3 & H4).
    destruct (bi =? index b).
    + destruct (addElement b e) as [[b' c] n] eqn:E. inversion H; subst.
      pose proof (addElement_slots _ _ _ _ _ E H3) as Hs.
      apply addElement_spec in E. destruct E as (_ & Ho & _ & _ & He & _).
      cbn [regions]. rewrite He, Ho in *. auto.
    + destruct (bi <? index b).
      * rewrite addElement_new in H. inversion H; subst.
        cbn [regions slotsWithin]. lens. repeat split; auto; try lia.
      * destruct (addFrom (regionEnd b) r bi e) as [[r' c] n] eqn:E.
        inversion H; subst. cbn [regions]. repeat split; auto. eapply IH; eauto.
Qed.

(** A fast insertion activates the element at a slot inside the buffer. *)
Lemma addFrom_calls bs : forall lo bi e bs' calls needs cap,
  addFrom lo bs bi e = (bs', calls, needs) ->
  regions lo bs cap ->
  (needs = true /\ calls = []) \/
  (needs = false /\ exists o i, calls = [Activate e o i] /\ lo <= o + i < cap).
Proof.
  induction bs as [|b r IH]; cbn [addFrom regions];
    intros lo bi e bs' calls needs cap H Hr.
  - rewrite addElement_new in H. inversion H; subst. auto.
  - destruct Hr as (H1 & H2 & H3 & H4).
    destruct (bi =? index b).
    + destruct (addElement b e) as [[b' c] n] eqn:E. inversion H; subst.
      apply addElement_spec in E.
      destruct E as (_ & _ & _ & _ & _ & [[-> ->]|(-> & -> & Hc)]); auto.
      right. split; auto. exists (offset b), (size b). split; auto.
      unfold hasCleanSlack in Hc. apply andb_prop in Hc. destruct Hc as [_ Hp].
      apply Z.ltb_lt in Hp. apply regions_le in H4.
      unfold regionEnd, size in *. pose proof (len_nonneg (elements b)). lia.
    + destruct (bi <? index b).
      * rewrite addElement_new in H. inversion H; subst. auto.
      * destruct (addFrom (regionEnd b) r bi e) as [[r' c] n] eqn:E.
        inversion H; subst.
        destruct (IH _ _ _ _ _ _ _ E H4) as [?|(-> & o & i & -> & Hb)]; auto.
        right. split; auto. exists o, i. split; auto. lia.
Qed.

Lemma sortedIdx_indices bs : forall bs',
  map index bs' = map index bs -> sortedIdx bs -> sortedIdx bs'.
Proof.
  induction bs as [|b r IH]; intros [|b' r'] Hm Hs; simpl in *; try discriminate; auto.
  inversion Hm as [[Hi Hr]]. destruct Hs as [Hf Hs]. split; [|eauto].
  apply Forall_map with (f := index) (P := fun x => index b' < x).
  rewrite Hr, Hi. apply Forall_map with (f := index) (P := fun x => index b < x).
  exact Hf.
Qed.

Lemma findElement_bounds e els : forall i0 i,
  findElement e els i0 = Some i -> i0 <= i < i0 + len els.
Proof.
  induction els as [|[e' s] r IH]; simpl; intros i0 i H; [discriminate|].
  rewrite len_cons. pose proof (len_nonneg r).
  destruct (samePanel e e').
  - inversion H; subst. lia.
  - apply IH in H. lia.
Qed.

Lemma locate_bounds els e k i :
  locate els e k = Some i -> 0 <= i < len els.
Proof.
  unfold locate. destruct k as [j|].
  - destruct (readSlot els j) as [[e' s]|] eqn:E; [|discriminate].
    destruct (samePanel e e'); [|discriminate].
    intros H; inversion H; subst. eapply readSlot_bounds; eauto.
  - intros H. apply findElement_bounds in H. lia.
Qed.

(** The slot of an element lies in the bounds of its bucket. *)
Lemma slotsWithin_read lo hi els : forall i e s,
  slotsWithin lo els hi -> readSlot els i = Some (e, Some s) -> lo <= s < hi.
Proof.
  unfold readSlot. intros i e s Hw. destruct (0 <=? i); [|discriminate].
  generalize (Z.to_nat i). clear i. revert lo Hw.
  induction els as [|[e' [s'|]] r IH]; intros lo Hw [|n] H; simpl in *; try discriminate.
  - inversion H; subst. tauto.
  - destruct Hw as [Hb Hw]. apply (IH _ Hw) in H. lia.
  - eapply IH; eauto.
Qed.

Lemma removeFrom_spec bs : forall lo cap bi e k bs' calls needs,
  removeFromSortedBuckets bs bi e k = OK (bs', calls, needs) ->
  regions lo bs cap ->
  map index bs' = map index bs
  /\ totalSize bs' = totalSize bs - 1 /\ totalSlack bs' = totalSlack bs + 1
  /\ regions lo bs' cap /\ bs' <> []
  /\ (calls = [] \/
      needs = false /\ exists s, calls = [ClearBufferAt s] /\ lo <= s < cap).
Proof.
  induction bs as [|b r IH]; cbn [removeFromSortedBuckets regions];
    intros lo cap bi e k bs' calls needs H Hr; [discriminate|].
  destruct Hr as (H1 & H2 & H3 & H4).
  destruct (bi =? index b).
  - destruct (locate (elements b) e k) as [i|] eqn:El; [|discriminate].
    apply locate_bounds in El.
    assert (Hn : (Z.to_nat i < length (elements b))%nat) by (unfold len in El; lia).
    pose proof (len_removeNth _ _ Hn) as Hlen.
    set (b' := mkBucket (index b) (offset b) (removeNth (Z.to_nat i) (elements b))
                 (slack b + 1)) in *.
    assert (He : regionEnd b' = regionEnd b) by (unfold regionEnd, size, b'; simpl; lia).
    assert (Hreg : regions lo (b' :: r) cap).
    { cbn [regions]. rewrite He. repeat split; auto.
      apply slotsWithin_removeNth. exact H3. }
    assert (Hbooks : totalSize (b' :: r) = totalSize (b :: r) - 1
                     /\ totalSlack (b' :: r) = totalSlack (b :: r) + 1).
    { books. unfold size, b'. simpl. lia. }
    destruct Hbooks as [Hb1 Hb2].
    assert (Hmap : map index (b' :: r) = map index (b :: r)) by reflexivity.
    assert (Hne : b' :: r <> []) by discriminate.
    destruct ((i =? size b - 1) && isNil r).
    + destruct (readSlot (elements b) i) as [[e' [s|]]|] eqn:Er;
        inversion H; subst; (do 5 (split; [assumption|])); auto.
      right. split; auto. exists s. split; auto.
      pose proof (slotsWithin_read _ _ _ _ _ _ H3 Er).
      apply regions_le in H4. lia.
    + inversion H; subst. (do 5 (split; [assumption|])); auto.
  - destruct (removeFromSortedBuckets r bi e k) as [[[r' c] n]|] eqn:E;
      cbn [bind] in H; [|discriminate].
    inversion H; subst.
    destruct (IH _ _ _ _ _ _ _ _ E H4) as (Hm & Hs & Hk & Hg & _ & Hc).
    repeat split; auto.
    + simpl. now rewrite Hm.
    + books. lia.
    + books. lia.
    + discriminate.
    + destruct Hc as [?|(? & s & ? & ?)]; auto.
      right. split; auto. exists s. split; auto. lia.
Qed.

End SortedBucketsFacts.

(** ** Copying moves in a safe order *)

Module MovesFacts.
Import SortedBuckets Group Moves.

Lemma pairwise_app {A : Type} (R : A -> A -> Prop) (l1 l2 : list A) :
  pairwise R l1 -> pairwise R l2 ->
  (forall a b, In a l1 -> In b l2 -> R a b) ->
  pairwise R (l1 ++ l2).
Proof.
  induction l1 as [|x l1 IH]; simpl; intros H1 H2 Hc; auto.
  destruct H1 as [Hf H1]. split.
  - apply Forall_app. split; auto.
    apply Forall_forall. intros b Hb. apply Hc; auto.
  - apply IH; auto.
Qed.

Lemma pairwise_rev {A : Type} (R : A -> A -> Prop) (l : list A) :
  pairwise (fun a b => R b a) l -> pairwise R (rev l).
Proof.
  induction l as [|x l IH]; simpl; intros H; auto.
  destruct H as [Hf H]. apply pairwise_app; auto.
  - simpl. auto.
  - intros a b Ha [<-|[]]. rewrite <- in_rev in Ha.
    rewrite Forall_forall in Hf. auto.
Qed.

Lemma pairwise_filter {A : Type} (R : A -> A -> Prop) (f : A -> bool) (l : list A) :
  pairwise R l -> pairwise R (filter f l).
Proof.
  induction l as [|x l IH]; simpl; intros H; auto.
  destruct H as [Hf H]. destruct (f x); simpl; auto. split; auto.
  rewrite Forall_forall in *. intros b Hb. apply filter_In in Hb. apply Hf. tauto.
Qed.

Lemma pairwise_weaken {A : Type} (R S : A -> A -> Prop) (l : list A) :
  (forall a b, In a l -> In b l -> R a b -> S a b) ->
  pairwise R l -> pairwise S l.
Proof.
  induction l as [|x l IH]; simpl; intros Hi H; auto.
  destruct H as [Hf H]. split.
  - rewrite Forall_forall in *. intros b Hb. apply Hi; auto.
  - apply IH; auto.
Qed.

Lemma pairwise_in {A : Type} (R : A -> A -> Prop) (l : list A) a b :
  pairwise R l -> In a l -> In b l -> a = b \/ R a b \/ R b a.
Proof.
  induction l as [|x l IH]; simpl; intros H Ha Hb; [tauto|].
  destruct H as [Hf H]. rewrite Forall_forall in Hf.
  destruct Ha as [<-|Ha], Hb as [<-|Hb]; auto.
Qed.

(** Rising moves are scheduled so that every move spares the later ones. *)
Lemma copyOrder_spares ms : pairwise rising ms -> pairwise spares (copyOrder ms).
Proof.
  intros H. unfold copyOrder. apply pairwise_app.
  - apply pairwise_filter with (f := movesLeft) in H.
    eapply pairwise_weaken; [|exact H].
    intros [o n] [o' n'] Ha _ [H1 H2]. apply filter_In in Ha.
    destruct Ha as [_ Ha]. unfold movesLeft in Ha. apply Z.ltb_lt in Ha.
    unfold spares. simpl in *. lia.
  - apply pairwise_rev.
    apply pairwise_filter with (f := movesRight) in H.
    eapply pairwise_weaken; [|exact H].
    intros [o n] [o' n'] _ Hb [H1 H2]. apply filter_In in Hb.
    destruct Hb as [_ Hb]. unfold movesRight in Hb. apply Z.ltb_lt in Hb.
    unfold spares. simpl in *. lia.
  - intros [o n] [o' n'] Ha Hb. apply filter_In in Ha. rewrite <- in_rev in Hb.
    apply filter_In in Hb. destruct Ha as [Ia Ha], Hb as [Ib Hb].
    unfold movesLeft in Ha. unfold movesRight in Hb.
    apply Z.ltb_lt in Ha. apply Z.ltb_lt in Hb. simpl in *.
    destruct (pairwise_in _ _ _ _ H Ia Ib) as [E|[[H1 H2]|[H1 H2]]];
      unfold spares; simpl in *; [inversion E; subst; lia|lia|lia].
Qed.

Lemma firstn_one_skipn {A : Type} (arr : list A) : forall n v,
  nth_error arr n = Some v -> firstn 1 (skipn n arr) = [v].
Proof.
  induction arr as [|x arr IH]; intros [|n] v H; simpl in *; try discriminate.
  - inversion H; auto.
  - apply IH; auto.
Qed.

Lemma updNth_split {A : Type} (arr : list A) : forall n v,
  (n < length arr)%nat -> firstn n arr ++ v :: skipn (S n) arr = updNth n v arr.
Proof.
  induction arr as [|x arr IH]; intros [|n] v H; simpl in *; try lia; auto.
  f_equal. apply IH. lia.
Qed.

Lemma moveSlot_write {A : Type} (arr : list A) (m : Z * Z) (v : A) :
  inBounds (len arr) m -> readSlot arr (fst m) = Some v ->
  moveSlot arr m = writeSlot arr (snd m) v.
Proof.
  destruct m as [o n]. unfold inBounds, moveSlot, copyWithin, relIndex, readSlot, writeSlot.
  simpl. intros [Ho Hn] Hr.
  destruct (Z.leb_spec 0 o); try lia. destruct (Z.leb_spec 0 n); try lia.
  destruct (Z.ltb_spec n 0); try lia. destruct (Z.ltb_spec o 0); try lia.
  destruct (Z.ltb_spec (o + 1) 0); try lia.
  rewrite !Z.min_l by lia.
  replace (o + 1 - o) with 1 by lia.
  simpl (0 <? 1). cbv iota.
  replace (Z.to_nat 1) with 1%nat by reflexivity.
  replace (Z.to_nat (n + 1)) with (S (Z.to_nat n)) by lia.
  rewrite (firstn_one_skipn _ _ _ Hr). simpl app.
  apply updNth_split. unfold len in *. lia.
Qed.

Lemma moveSlot_len {A : Type} (arr : list A) (m : Z * Z) :
  inBounds (len arr) m -> len (moveSlot arr m) = len arr.
Proof.
  intros H. destruct (readSlot_Some arr (fst m)) as [v Hv]; [apply H|].
  rewrite (moveSlot_write _ _ _ H Hv). apply len_writeSlot.
Qed.

Lemma moveSlot_read {A : Type} (arr : list A) (m : Z * Z) (x : Z) :
  inBounds (len arr) m ->
  readSlot (moveSlot arr m) x
  = if x =? snd m then readSlot arr (fst m) else readSlot arr x.
Proof.
  intros H. destruct (readSlot_Some arr (fst m)) as [v Hv]; [apply H|].
  rewrite (moveSlot_write _ _ _ H Hv).
  destruct (Z.eqb_spec x (snd m)) as [->|Hne].
  - rewrite Hv. apply readSlot_writeSlot_same. apply H.
  - apply readSlot_writeSlot_other. congruence.
Qed.

(** Moves that spare each other bring every source to its target and leave
    all other slots alone. *)
Lemma applyMoves_spec {A : Type} (P : list (Z * Z)) : forall (arr : list A),
  Forall (inBounds (len arr)) P -> pairwise spares P ->
  len (applyMoves arr P) = len arr
  /\ (forall m, In m P -> readSlot (applyMoves arr P) (snd m) = readSlot arr (fst m))
  /\ (forall x, ~ In x (map snd P) -> readSlot (applyMoves arr P) x = readSlot arr x).
Proof.
  induction P as [|p P IH]; intros arr Hb Hs.
  - simpl. repeat split; auto. intros m [].
  - inversion Hb as [|? ? Hp HP]; subst. destruct Hs as [Hf Hs].
    rewrite Forall_forall in Hf.
    pose proof (moveSlot_len _ _ Hp) as Hl.
    assert (HP' : Forall (inBounds (len (moveSlot arr p))) P) by now rewrite Hl.
    destruct (IH _ HP' Hs) as (I1 & I2 & I3).
    unfold applyMoves in *. cbn [fold_left].
    split; [congruence|]. split.
    + intros m [<-|Hm].
      * rewrite I3.
        -- rewrite moveSlot_read by auto. now rewrite Z.eqb_refl.
        -- intros Hin. apply in_map_iff in Hin. destruct Hin as (q & Hq & Hin).
           apply Hf in Hin. unfold spares in Hin. intuition congruence.
      * rewrite I2 by auto. rewrite moveSlot_read by auto.
        apply Hf in Hm. unfold spares in Hm.
        destruct (Z.eqb_spec (fst m) (snd p)); [intuition congruence|reflexivity].
    + intros x Hx. simpl in Hx. rewrite I3 by tauto.
      rewrite moveSlot_read by auto.
      destruct (Z.eqb_spec x (snd p)); [intuition congruence|reflexivity].
Qed.

(** The copy order of [copyCalls] realises rising moves. *)
Lemma copyOrder_gather {A : Type} (ms : list (Z * Z)) (arr : list A) :
  pairwise rising ms -> Forall (inBounds (len arr)) ms ->
  len (applyMoves arr (copyOrder ms)) = len arr
  /\ (forall m, In m ms ->
        readSlot (applyMoves arr (copyOrder ms)) (snd m) = readSlot arr (fst m))
  /\ (forall x, ~ In x (map snd ms) ->
        readSlot (applyMoves arr (copyOrder ms)) x = readSlot arr x).
Proof.
  intros Hr Hb.
  assert (Hsub : forall q, In q (copyOrder ms) ->
                   In q ms /\ (movesLeft q = true \/ movesRight q = true)).
  { intros q Hq. unfold copyOrder in Hq. apply in_app_or in Hq.
    destruct Hq as [Hq|Hq]; [|rewrite <- in_rev in Hq];
      apply filter_In in Hq; tauto. }
  assert (HbP : Forall (inBounds (len arr)) (copyOrder ms)).
  { rewrite Forall_forall in *. intros q Hq. apply Hb. apply Hsub. auto. }
  destruct (applyMoves_spec _ _ HbP (copyOrder_spares _ Hr)) as (I1 & I2 & I3).
  split; [auto|]. split.
  - intros m Hm.
    destruct (movesLeft m) eqn:El.
    { apply I2. unfold copyOrder. apply in_or_app. left. apply filter_In. auto. }
    destruct (movesRight m) eqn:Er.
    { apply I2. unfold copyOrder. apply in_or_app. right. rewrite <- in_rev.
      apply filter_In. auto. }
    unfold movesLeft, movesRight in *. apply Z.ltb_ge in El, Er.
    assert (Heq : fst m = snd m) by lia. rewrite Heq. apply I3.
    intros Hin. apply in_map_iff in Hin. destruct Hin as (q & Hq & Hin).
    destruct (Hsub _ Hin) as [Hqm Hq'].
    destruct (pairwise_in _ _ _ _ Hr Hqm Hm) as [E|[[H1 H2]|[H1 H2]]]; try lia.
    subst q. unfold movesLeft, movesRight in Hq'.
    destruct Hq' as [Hq'|Hq']; apply Z.ltb_lt in Hq'; lia.
  - intros x Hx. apply I3. intros Hin. apply Hx.
    apply in_map_iff in Hin. destruct Hin as (q & Hq & Hin).
    apply in_map_iff. exists q. split; auto. apply Hsub. auto.
Qed.

Lemma runCalls_app cs1 cs2 g :
  runCalls (cs1 ++ cs2) g = (g' <- runCalls cs1 g ;; runCalls cs2 g').
Proof.
  revert g. induction cs1 as [|c cs1 IH]; intros g; simpl; auto.
  destruct (runCall c g); simpl; auto.
Qed.

Lemma copyCalls_order ms : copyCalls ms = map copyCall (copyOrder ms).
Proof. unfold copyCalls, copyOrder. now rewrite map_app. Qed.

(** Running the copy calls moves the three arrays alike. *)
Lemma runCalls_copies P : forall g m d c,
  instanceMatrix g = Some m -> instanceData g = Some d ->
  instanceClipping g = Some c ->
  runCalls (map copyCall P) g
  = OK (setArrays (Some (applyMoves m P)) (Some (applyMoves d P))
          (Some (applyMoves c P)) g).
Proof.
  induction P as [|p P IH]; intros g m d c Hm Hd Hc.
  - simpl. unfold setArrays. rewrite <- Hm, <- Hd, <- Hc. destruct g; reflexivity.
  - cbn [map runCalls]. unfold copyCall at 1. cbn [runCall].
    unfold bufferCopyWithin. rewrite Hm, Hd, Hc. cbn [copyWithinAttribute bind].
    erewrite IH; try reflexivity.
Qed.

(** Running notices writes the default data of the activated elements. *)
Lemma runCalls_notices cs : forall g d,
  forallb isNotice cs = true -> instanceData g = Some d ->
  Forall (fun w => 0 <= fst w < len d) (noticeWrites cs) ->
  runCalls cs g
  = OK (setArrays (instanceMatrix g) (Some (applyWrites d (noticeWrites cs)))
          (instanceClipping g) g).
Proof.
  induction cs as [|c cs IH]; intros g d Hn Hd Hb.
  - simpl. unfold setArrays. rewrite <- Hd. destruct g; reflexivity.
  - cbn [forallb] in Hn. apply andb_prop in Hn. destruct Hn as [Hc Hn].
    destruct c as [e o i| |e i|]; try discriminate; cbn [runCalls runCall noticeWrites] in *.
    + inversion Hb as [|? ? Hw Hb']; subst. cbn [fst] in Hw.
      unfold activateElement. rewrite Hd.
      destruct (Z.leb_spec 0 (o + i)); try lia.
      destruct (Z.ltb_spec (o + i) (len d)); try lia.
      cbn [andb bind].
      rewrite (IH _ (writeSlot d (o + i) (defaultData e)));
        [reflexivity|assumption|reflexivity|].
      rewrite len_writeSlot. exact Hb'.
    + unfold setElementIndex. cbn [bind]. apply IH; auto.
Qed.

Import Invariants SortedBucketsFacts.

Lemma elementMoves_app els1 : forall o els2,
  elementMoves o (els1 ++ els2)
  = elementMoves o els1 ++ elementMoves (o + len els1) els2.
Proof.
  induction els1 as [|[e [s|]] r IH]; intros o els2; cbn [app elementMoves].
  - rewrite len_nil. now replace (o + 0) with o by lia.
  - rewrite IH, len_cons. replace (o + (1 + len r)) with (o + 1 + len r) by lia.
    reflexivity.
  - rewrite IH, len_cons. replace (o + (1 + len r)) with (o + 1 + len r) by lia.
    reflexivity.
Qed.

Lemma bucketMoves_flat bs : forall o,
  bucketMoves o bs = elementMoves o (allElements bs).
Proof.
  induction bs as [|b r IH]; intros o; cbn [bucketMoves allElements flat_map]; auto.
  rewrite elementMoves_app. f_equal. apply IH.
Qed.

Lemma totalSize_flat bs : totalSize bs = len (allElements bs).
Proof.
  induction bs as [|b r IH]; cbn [allElements flat_map]; books; auto.
  rewrite len_app. unfold allElements in IH. unfold size. lia.
Qed.

Lemma allElements_kept bs : allElements (filter nonEmpty bs) = allElements bs.
Proof.
  induction bs as [|b r IH]; cbn [filter allElements flat_map]; auto.
  unfold nonEmpty at 1. unfold allElements in *.
  destruct (elements b) eqn:E; cbn [isNil negb flat_map]; rewrite ?E, IH; auto.
Qed.

Lemma slotsWithin_app lo mid hi els1 els2 :
  slotsWithin lo els1 mid -> slotsWithin mid els2 hi -> lo <= mid <= hi ->
  slotsWithin lo (els1 ++ els2) hi.
Proof.
  revert lo. induction els1 as [|[e [s|]] r IH]; cbn [app slotsWithin]; intros lo H1 H2 Hm.
  - eapply slotsWithin_weaken; eauto; lia.
  - destruct H1 as [Hb H1]. split; [lia|]. apply IH; auto. lia.
  - apply IH; auto.
Qed.

Lemma regions_flat bs : forall lo cap,
  regions lo bs cap -> slotsWithin lo (allElements bs) cap.
Proof.
  induction bs as [|b r IH]; cbn [regions allElements flat_map]; intros lo cap H.
  - exact I.
  - destruct H as (H1 & H2 & H3 & H4). pose proof (regions_le _ _ _ H4).
    eapply slotsWithin_app with (mid := regionEnd b).
    + eapply slotsWithin_weaken; eauto; lia.
    + apply IH; auto.
    + lia.
Qed.

(** Increasing slots give rising moves, with sources in the bounds of the
    slots and targets in the packed range. *)
Lemma elementMoves_rising els : forall lo hi o,
  slotsWithin lo els hi ->
  pairwise rising (elementMoves o els)
  /\ Forall (fun m => lo <= fst m < hi /\ o <= snd m < o + len els)
       (elementMoves o els).
Proof.
  induction els as [|[e [s|]] r IH]; cbn [slotsWithin elementMoves pairwise];
    intros lo hi o H.
  - split; auto.
  - destruct H as [Hb H]. destruct (IH _ _ (o + 1) H) as [I1 I2].
    rewrite len_cons. pose proof (len_nonneg r).
    split; [split; auto|].
    + rewrite Forall_forall in *. intros m Hm. apply I2 in Hm.
      unfold rising. cbn [fst snd]. lia.
    + constructor; [cbn [fst snd]; lia|].
      rewrite Forall_forall in *. intros m Hm. apply I2 in Hm. lia.
  - destruct (IH _ _ (o + 1) H) as [I1 I2]. split; auto.
    rewrite len_cons. rewrite Forall_forall in *. intros m Hm. apply I2 in Hm. lia.
Qed.

Lemma elementMoves_targets els : forall o,
  Forall (fun m => o <= snd m < o + len els) (elementMoves o els).
Proof.
  induction els as [|[e [s|]] r IH]; cbn [elementMoves]; intros o; auto;
    rewrite len_cons; pose proof (len_nonneg r); specialize (IH (o + 1)).
  - constructor; [cbn [snd]; lia|].
    rewrite Forall_forall in *. intros m Hm. apply IH in Hm. lia.
  - rewrite Forall_forall in *. intros m Hm. apply IH in Hm. lia.
Qed.

Lemma freshSlots_spec els : forall o,
  Forall (fun t => o <= t < o + len els) (freshSlots o els)
  /\ (forall t, In t (freshSlots o els) -> ~ In t (map snd (elementMoves o els))).
Proof.
  induction els as [|[e [s|]] r IH]; cbn [freshSlots elementMoves map]; intros o.
  - split; auto.
  - destruct (IH (o + 1)) as [I1 I2]. rewrite len_cons. split.
    + rewrite Forall_forall in *. intros t Ht. apply I1 in Ht. lia.
    + intros t Ht [Hc|Hc]; [|eapply I2; eauto].
      rewrite Forall_forall in I1. apply I1 in Ht. cbn [snd] in Hc. lia.
  - destruct (IH (o + 1)) as [I1 I2]. rewrite len_cons. pose proof (len_nonneg r).
    split.
    + constructor; [lia|].
      rewrite Forall_forall in *. intros t Ht. apply I1 in Ht. lia.
    + intros t [<-|Ht]; [|eapply I2; eauto].
      intros Hc. apply in_map_iff in Hc. destruct Hc as (m & Hm & Hin).
      pose proof (elementMoves_targets r (o + 1)) as F.
      rewrite Forall_forall in F. apply F in Hin. lia.
Qed.

Lemma noticeWrites_app cs1 cs2 :
  noticeWrites (cs1 ++ cs2) = noticeWrites cs1 ++ noticeWrites cs2.
Proof.
  induction cs1 as [|c cs1 IH]; cbn [app noticeWrites]; auto.
  destruct c; rewrite IH; reflexivity.
Qed.

Lemma freshSlots_app els1 : forall o els2,
  freshSlots o (els1 ++ els2) = freshSlots o els1 ++ freshSlots (o + len els1) els2.
Proof.
  induction els1 as [|[e [s|]] r IH]; intros o els2; cbn [app freshSlots].
  - rewrite len_nil. now replace (o + 0) with o by lia.
  - rewrite IH, len_cons. replace (o + (1 + len r)) with (o + 1 + len r) by lia.
    reflexivity.
  - rewrite IH, len_cons. replace (o + (1 + len r)) with (o + 1 + len r) by lia.
    reflexivity.
Qed.

Lemma elementNotices_spec els : forall o i,
  forallb isNotice (elementNotices o i els) = true
  /\ map fst (noticeWrites (elementNotices o i els)) = freshSlots (o + i) els.
Proof.
  induction els as [|[e [s|]] r IH]; intros o i; cbn [elementNotices freshSlots].
  - split; reflexivity.
  - destruct (IH o (i + 1)) as [I1 I2].
    replace (o + (i + 1)) with (o + i + 1) in I2 by lia.
    destruct (s =? o + i); cbn [app forallb isNotice andb noticeWrites]; auto.
  - destruct (IH o (i + 1)) as [I1 I2].
    replace (o + (i + 1)) with (o + i + 1) in I2 by lia.
    cbn [forallb isNotice andb noticeWrites map fst]. rewrite I2. auto.
Qed.

Lemma bucketNotices_spec bs : forall o,
  forallb isNotice (bucketNotices o bs) = true
  /\ map fst (noticeWrites (bucketNotices o bs)) = freshSlots o (allElements bs).
Proof.
  induction bs as [|b r IH]; intros o; cbn [bucketNotices allElements flat_map].
  - split; reflexivity.
  - destruct (IH (o + size b)) as [I1 I2].
    destruct (elementNotices_spec (elements b) o 0) as [E1 E2].
    replace (o + 0) with o in E2 by lia.
    rewrite forallb_app, noticeWrites_app, map_app, freshSlots_app.
    rewrite E1, I1, E2. unfold allElements, size in *. rewrite I2. auto.
Qed.

Lemma applyWrites_spec ws : forall d,
  len (applyWrites d ws) = len d
  /\ (forall x, ~ In x (map fst ws) -> readSlot (applyWrites d ws) x = readSlot d x).
Proof.
  unfold applyWrites.
  induction ws as [|w ws IH]; intros d; cbn [fold_left map].
  - split; auto.
  - destruct (IH (writeSlot d (fst w) (snd w))) as [I1 I2].
    rewrite len_writeSlot in I1. split; auto.
    intros x Hx. rewrite I2 by (simpl in Hx; tauto).
    apply readSlot_writeSlot_other. simpl in Hx. intuition.
Qed.

(** *** Buckets after a rearrangement *)

Lemma shape_rearrange bs1 : forall bs2 o,
  shape bs1 = shape bs2 ->
  packBuckets o (filter nonEmpty bs1) = packBuckets o (filter nonEmpty bs2)
  /\ bucketMoves o (filter nonEmpty bs1) = bucketMoves o (filter nonEmpty bs2)
  /\ bucketNotices o (filter nonEmpty bs1) = bucketNotices o (filter nonEmpty bs2).
Proof.
  induction bs1 as [|b1 r1 IH]; intros [|b2 r2] o H; try discriminate; auto.
  cbn [shape map] in H. inversion H as [[Hi He Hr]].
  assert (Hne : nonEmpty b1 = nonEmpty b2) by (unfold nonEmpty; now rewrite He).
  cbn [filter]. rewrite Hne. destruct (nonEmpty b2).
  - cbn [packBuckets bucketMoves bucketNotices]. unfold size. rewrite Hi, He.
    destruct (IH r2 (o + len (elements b2)) Hr) as (-> & -> & ->). auto.
  - apply IH; auto.
Qed.

Lemma shape_giveSlackToLast t bs : shape (giveSlackToLast t bs) = shape bs.
Proof.
  induction bs as [|b r IH]; cbn [giveSlackToLast]; auto.
  destruct r as [|b' r'] eqn:E; cbn [isNil]; [reflexivity|].
  rewrite <- E in *. unfold shape in *. cbn [map]. now rewrite IH.
Qed.

Lemma shape_reoffset bs : forall o, shape (reoffset o bs) = shape bs.
Proof.
  induction bs as [|b r IH]; intros o; cbn [reoffset shape map]; auto.
  f_equal. apply IH.
Qed.

Lemma shape_totalSize bs1 : forall bs2,
  shape bs1 = shape bs2 -> totalSize bs1 = totalSize bs2.
Proof.
  induction bs1 as [|b1 r1 IH]; intros [|b2 r2] H; try discriminate; auto.
  cbn [shape map] in H. inversion H as [[Hi He Hr]]. books.
  unfold size. rewrite He. f_equal. apply IH. exact Hr.
Qed.

Lemma shape_sortedIdx bs1 bs2 :
  shape bs1 = shape bs2 -> sortedIdx bs1 -> sortedIdx bs2.
Proof.
  intros H. apply sortedIdx_indices.
  unfold shape in H. apply (f_equal (map fst)) in H.
  rewrite !map_map in H. simpl in H. auto.
Qed.

Lemma totalSlack_giveSlackToLast t bs :
  bs <> [] -> totalSlack (giveSlackToLast t bs) = totalSlack bs + t.
Proof.
  induction bs as [|b r IH]; intros H; [congruence|].
  cbn [giveSlackToLast]. destruct r as [|b' r']; cbn [isNil].
  - books. cbn [slack]. lia.
  - books. rewrite IH by discriminate. books. lia.
Qed.

Lemma totalSlack_reoffset bs : forall o, totalSlack (reoffset o bs) = totalSlack bs.
Proof.
  induction bs as [|b r IH]; intros o; cbn [reoffset]; auto.
  books. cbn [slack]. now rewrite IH.
Qed.

Lemma isNil_giveSlackToLast t bs : isNil (giveSlackToLast t bs) = isNil bs.
Proof.
  destruct bs as [|b r]; cbn [giveSlackToLast isNil]; auto.
  destruct (isNil r); reflexivity.
Qed.

Lemma giveSlackToLast_twice t1 t2 bs :
  giveSlackToLast t2 (giveSlackToLast t1 bs) = giveSlackToLast (t1 + t2) bs.
Proof.
  induction bs as [|b r IH]; cbn [giveSlackToLast]; auto.
  destruct (isNil r) eqn:En.
  - cbn [giveSlackToLast isNil index offset elements slack]. do 2 f_equal. lia.
  - change (giveSlackToLast t2 (b :: giveSlackToLast t1 r))
      with (if isNil (giveSlackToLast t1 r)
            then [mkBucket (index b) (offset b) (elements b) (slack b + t2)]
            else b :: giveSlackToLast t2 (giveSlackToLast t1 r)).
    rewrite isNil_giveSlackToLast, En. now rewrite IH.
Qed.

Lemma packElements_spec els : forall o,
  len (packElements o els) = len els
  /\ aligned o (packElements o els) = true
  /\ slotsWithin o (packElements o els) (o + len els).
Proof.
  induction els as [|[e s] r IH]; intros o; cbn [packElements aligned slotsWithin].
  - auto.
  - destruct (IH (o + 1)) as (I1 & I2 & I3). rewrite !len_cons, I1, I2, Z.eqb_refl.
    pose proof (len_nonneg r). repeat split; auto; try lia.
    eapply slotsWithin_weaken; eauto; lia.
Qed.

Lemma packBuckets_spec k : forall o,
  map index (packBuckets o k) = map index k
  /\ totalSize (packBuckets o k) = totalSize k
  /\ totalSlack (packBuckets o k) = 0
  /\ packedFrom o (packBuckets o k)
  /\ regions o (packBuckets o k) (o + totalSize k).
Proof.
  induction k as [|b r IH]; intros o; cbn [packBuckets map packedFrom regions].
  - books. repeat split; auto. lia.
  - destruct (IH (o + size b)) as (I1 & I2 & I3 & I4 & I5).
    destruct (packElements_spec (elements b) o) as (E1 & E2 & E3).
    books. unfold regionEnd, size in *. cbn [index offset elements slack].
    rewrite E1, I1, I2, I3. pose proof (len_nonneg (elements b)).
    repeat split; auto; try lia.
    + now replace (o + len (elements b) + 0) with (o + len (elements b)) by lia.
    + replace (o + len (elements b) + 0) with (o + len (elements b)) by lia.
      now replace (o + (len (elements b) + totalSize r))
        with (o + len (elements b) + totalSize r) by lia.
Qed.

Lemma regions_giveSlackToLast t bs : forall lo cap,
  regions lo bs cap -> 0 <= t -> regions lo (giveSlackToLast t bs) (cap + t).
Proof.
  induction bs as [|b r IH]; intros lo cap H Ht; cbn [giveSlackToLast regions] in *.
  - lia.
  - destruct H as (H1 & H2 & H3 & H4).
    destruct r as [|b' r'] eqn:E; cbn [isNil].
    + cbn [regions] in *. unfold regionEnd, size in *.
      cbn [index offset elements slack]. repeat split; try lia.
      eapply slotsWithin_weaken; eauto; lia.
    + rewrite <- E in *. cbn [regions]. repeat split; auto.
Qed.

Lemma packedFrom_giveSlackToLast t bs : forall o,
  packedFrom o bs -> packedFrom o (giveSlackToLast t bs).
Proof.
  induction bs as [|b r IH]; intros o H; cbn [giveSlackToLast packedFrom] in *; auto.
  destruct H as (H1 & H2 & H3).
  destruct (isNil r) eqn:E.
  - destruct r; [|discriminate]. cbn [packedFrom]. auto.
  - cbn [packedFrom]. auto.
Qed.

Lemma sortedIdx_filter f bs : sortedIdx bs -> sortedIdx (filter f bs).
Proof.
  induction bs as [|b r IH]; cbn [filter sortedIdx]; auto.
  intros [Hf Hs]. destruct (f b); cbn [sortedIdx]; auto.
  split; auto. rewrite Forall_forall in *. intros x Hx.
  apply filter_In in Hx. apply Hf. tauto.
Qed.

Lemma totalSize_kept bs : totalSize (filter nonEmpty bs) = totalSize bs.
Proof. now rewrite !totalSize_flat, allElements_kept. Qed.

Lemma totalSize_nonneg bs : 0 <= totalSize bs.
Proof. rewrite totalSize_flat. apply len_nonneg. Qed.

(** The buckets a rearrangement leaves behind. *)
Lemma packed_spec t bs :
  sortedIdx bs -> 1 <= totalSize bs -> 0 <= t ->
  sortedIdx (packed t bs)
  /\ regions 0 (packed t bs) (totalSize bs + t)
  /\ totalSize (packed t bs) = totalSize bs
  /\ totalSlack (packed t bs) = t
  /\ packedFrom 0 (packed t bs)
  /\ packed t bs <> [].
Proof.
  intros Hs Hn Ht. unfold packed.
  destruct (packBuckets_spec (filter nonEmpty bs) 0) as (P1 & P2 & P3 & P4 & P5).
  rewrite totalSize_kept in *.
  assert (Hne : packBuckets 0 (filter nonEmpty bs) <> []).
  { intros E. rewrite E in P2. books. lia. }
  split; [|split; [|split; [|split; [|split]]]].
  - eapply sortedIdx_indices; [|apply sortedIdx_filter with (f := nonEmpty); exact Hs].
    rewrite <- P1. pose proof (shape_giveSlackToLast t (packBuckets 0 (filter nonEmpty bs))) as Hsh.
    unfold shape in Hsh. apply (f_equal (map fst)) in Hsh.
    rewrite !map_map in Hsh. exact Hsh.
  - apply regions_giveSlackToLast; auto.
  - rewrite <- P2. apply shape_totalSize. apply shape_giveSlackToLast.
  - rewrite totalSlack_giveSlackToLast by auto. lia.
  - apply packedFrom_giveSlackToLast. auto.
  - intros E. apply (f_equal isNil) in E. rewrite isNil_giveSlackToLast in E.
    destruct (packBuckets 0 (filter nonEmpty bs)); [congruence|discriminate].
Qed.

(** *** The rearrangement of a group *)

Lemma rearrange_spec g m d c L :
  instanceMatrix g = Some m -> instanceData g = Some d ->
  instanceClipping g = Some c ->
  len m = L -> len d = L -> len c = L ->
  slotsWithin 0 (allElements (buckets g)) L ->
  totalSize (buckets g) <= L ->
  exists m' d' c',
    rearrange g
    = OK (setArrays (Some m') (Some d') (Some c')
            (emit EvRearrange
               (setBuckets (packed (totalSlack (buckets g)) (buckets g)) g)))
    /\ len m' = L /\ len d' = L /\ len c' = L
    /\ forall mv, In mv (elementMoves 0 (allElements (buckets g))) ->
         readSlot m' (snd mv) = readSlot m (fst mv)
         /\ readSlot d' (snd mv) = readSlot d (fst mv)
         /\ readSlot c' (snd mv) = readSlot c (fst mv).
Proof.
  intros Hm Hd Hc Lm Ld Lc Hs Hn.
  set (bs := buckets g) in *.
  set (ms := elementMoves 0 (allElements bs)).
  assert (Hms : bucketMoves 0 (filter nonEmpty bs) = ms).
  { rewrite bucketMoves_flat, allElements_kept. reflexivity. }
  destruct (elementMoves_rising _ _ _ 0 Hs) as [Hrise Hbnd]. fold ms in Hrise, Hbnd.
  rewrite totalSize_flat in Hn.
  assert (HB : forall A (arr : list A), len arr = L -> Forall (inBounds (len arr)) ms).
  { intros A arr Ha. rewrite Forall_forall in *. intros q Hq. apply Hbnd in Hq.
    unfold inBounds. lia. }
  destruct (copyOrder_gather ms m Hrise (HB _ m Lm)) as (M1 & M2 & _).
  destruct (copyOrder_gather ms d Hrise (HB _ d Ld)) as (D1 & D2 & _).
  destruct (copyOrder_gather ms c Hrise (HB _ c Lc)) as (C1 & C2 & _).
  destruct (bucketNotices_spec (filter nonEmpty bs) 0) as [N1 N2].
  rewrite allElements_kept in N2.
  destruct (freshSlots_spec (allElements bs) 0) as [F1 F2].
  set (ws := noticeWrites (bucketNotices 0 (filter nonEmpty bs))) in *.
  destruct (applyWrites_spec ws (applyMoves d (copyOrder ms))) as [W1 W2].
  exists (applyMoves m (copyOrder ms)), (applyWrites (applyMoves d (copyOrder ms)) ws),
         (applyMoves c (copyOrder ms)).
  split; [|repeat split; try congruence].
  - unfold rearrange, updateSortedBucketsAllocation. fold bs. rewrite Hms.
    rewrite runCalls_app, copyCalls_order.
    rewrite (runCalls_copies _ _ m d c) by assumption.
    cbn [bind].
    rewrite (runCalls_notices _ _ (applyMoves d (copyOrder ms))); auto.
    fold ws. rewrite Forall_forall. intros w Hw.
    assert (Hin : In (fst w) (freshSlots 0 (allElements bs))).
    { rewrite <- N2. apply in_map. exact Hw. }
    rewrite Forall_forall in F1. apply F1 in Hin. lia.
  - apply M2. auto.
  - rewrite W2; [apply D2; auto|].
    rewrite N2. intros Hin. apply F2 in Hin. apply Hin.
    apply in_map. auto.
  - apply C2. auto.
Qed.

End MovesFacts.

(** ** The buffer group keeps its invariants *)

Module GroupFacts.
Import SortedBuckets Group Moves Invariants SortedBucketsFacts MovesFacts.

Ltac fields :=
  cbn [mesh instanceMatrix instanceData instanceClipping buckets elementCount
       bufferElementSize nextUpdateTime nextUpdateTimeoutRef renderOrder now
       timers nextTimerId renderRequests trace
       setMesh setArrays setBuckets setElementCount setBufferElementSize
       setNextUpdateTime setRenderOrderField setNow requestRender emit
       clearTimeout setTimeoutRef unsetTimeoutRef] in *.

Lemma ceil15_ge n : 0 <= n -> n <= ceil15 n.
Proof.
  intros H. unfold ceil15. apply Z.div_le_lower_bound; lia.
Qed.

Lemma len_repeat {A : Type} (x : A) (n : nat) : len (repeat x n) = Z.of_nat n.
Proof. unfold len. now rewrite repeat_length. Qed.

Lemma len_reallocate newSize old :
  0 <= newSize -> len (reallocate newSize old) = newSize.
Proof.
  intros H. unfold reallocate. destruct old as [arr|].
  - rewrite len_app, len_repeat. unfold len. rewrite length_firstn. lia.
  - rewrite len_repeat. lia.
Qed.

Lemma readSlot_reallocate newSize arr s :
  0 <= s < newSize -> s < len arr ->
  readSlot (reallocate newSize (Some arr)) s = readSlot arr s.
Proof.
  intros H1 H2. unfold reallocate, readSlot, len in *.
  destruct (Z.leb_spec 0 s); try lia.
  rewrite nth_error_app1 by (rewrite length_firstn; lia).
  rewrite nth_error_firstn.
  destruct (Nat.ltb_spec (Z.to_nat s) (Z.to_nat newSize)); [reflexivity|lia].
Qed.

Lemma reoffset_packed bs : forall o, packedFrom o bs -> reoffset o bs = bs.
Proof.
  induction bs as [|b r IH]; intros o H; cbn [reoffset packedFrom] in *; auto.
  destruct H as (H1 & _ & H3). rewrite IH by auto. subst o.
  destruct b; reflexivity.
Qed.

Lemma packed_shape t bs1 bs2 : shape bs1 = shape bs2 -> packed t bs1 = packed t bs2.
Proof.
  intros H. unfold packed.
  destruct (shape_rearrange _ _ 0 H) as (-> & _). reflexivity.
Qed.

Lemma allElements_shape bs1 : forall bs2,
  shape bs1 = shape bs2 -> allElements bs1 = allElements bs2.
Proof.
  induction bs1 as [|b1 r1 IH]; intros [|b2 r2] H; try discriminate; auto.
  cbn [shape map] in H. inversion H as [[Hi He Hr]].
  cbn [allElements flat_map]. rewrite He. f_equal. apply IH. exact Hr.
Qed.

Lemma elementMoves_none els : forall lo hi o,
  slotsWithin lo els hi -> hi <= lo -> elementMoves o els = [].
Proof.
  induction els as [|[e [s|]] r IH]; cbn [slotsWithin elementMoves];
    intros lo hi o H Hl; auto.
  - lia.
  - eapply IH; eauto.
Qed.

Lemma shape_resize bs old new :
  shape (resizeSortedBucketsSpace bs old new) = shape bs.
Proof.
  unfold resizeSortedBucketsSpace. now rewrite shape_giveSlackToLast, shape_reoffset.
Qed.

Lemma totalSlack_resize bs old new :
  bs <> [] ->
  totalSlack (resizeSortedBucketsSpace bs old new) = totalSlack bs + (new - old).
Proof.
  intros H. unfold resizeSortedBucketsSpace.
  rewrite totalSlack_giveSlackToLast, totalSlack_reoffset; auto.
  destruct bs; [congruence|discriminate].
Qed.

Lemma totalSize_pos_nonempty bs : 1 <= totalSize bs -> bs <> [].
Proof. intros H E. subst. books. lia. Qed.

Lemma laidOut_intro g g' cap' evs me m' d' c' :
  wf g -> 1 <= elementCount g -> elementCount g <= cap' ->
  mesh g' = Some me -> instanceMatrix g' = Some m' ->
  instanceData g' = Some d' -> instanceClipping g' = Some c' ->
  len m' = cap' -> len d' = cap' -> len c' = cap' ->
  buckets g' = packed (cap' - elementCount g) (buckets g) ->
  elementCount g' = elementCount g -> bufferElementSize g' = cap' ->
  trace g' = trace g ++ evs ->
  nextUpdateTime g' = nextUpdateTime g ->
  nextUpdateTimeoutRef g' = nextUpdateTimeoutRef g ->
  timers g' = timers g -> now g' = now g ->
  (forall mv, In mv (elementMoves 0 (allElements (buckets g))) ->
     matrixAt g' (snd mv) = matrixAt g (fst mv)
     /\ dataAt g' (snd mv) = dataAt g (fst mv)
     /\ clippingAt g' (snd mv) = clippingAt g (fst mv)) ->
  laidOut g g' cap' evs.
Proof.
  intros [Ha Hs Hr Hc Hsp Hsc] Hn Hcap Eme Em Ed Ec Lm Ld Lc Eb En Ecap Et E1 E2 E3 E4 Hdata.
  assert (Hts : 1 <= totalSize (buckets g)) by lia.
  destruct (packed_spec (cap' - elementCount g) (buckets g) Hs Hts)
    as (P1 & P2 & P3 & P4 & P5 & P6); [lia|].
  unfold laidOut. split; [|repeat split; auto].
  - constructor.
    + unfold allocated. rewrite Eme, Em, Ed, Ec, Ecap. auto.
    + now rewrite Eb.
    + rewrite Eb, Ecap.
      replace cap' with (totalSize (buckets g) + (cap' - elementCount g)) at 2 by lia.
      exact P2.
    + rewrite Eb, En. lia.
    + rewrite Eb, Ecap. lia.
    + unfold scheduled in *. rewrite E1, E2, E3. exact Hsc.
  - pose proof (elementMoves_targets (allElements (buckets g)) 0) as F.
    rewrite Forall_forall in F. apply F in H. lia.
  - pose proof (elementMoves_targets (allElements (buckets g)) 0) as F.
    rewrite Forall_forall in F. apply F in H. rewrite <- totalSize_flat in H. lia.
  - apply Hdata; auto.
  - apply Hdata; auto.
  - apply Hdata; auto.
Qed.

Lemma allocated_arrays g :
  allocated g -> 1 <= bufferElementSize g ->
  exists me m d c,
    mesh g = Some me /\ instanceMatrix g = Some m /\ instanceData g = Some d
    /\ instanceClipping g = Some c /\ len m = bufferElementSize g
    /\ len d = bufferElementSize g /\ len c = bufferElementSize g.
Proof.
  unfold allocated. intros H Hc.
  destruct (mesh g) as [me|], (instanceMatrix g) as [m|], (instanceData g) as [d|],
    (instanceClipping g) as [c|]; try contradiction; try lia.
  destruct H as (? & ? & ?). exists me, m, d, c. auto 10.
Qed.

Lemma moves_sources g mv :
  wf g -> In mv (elementMoves 0 (allElements (buckets g))) ->
  0 <= fst mv < bufferElementSize g.
Proof.
  intros [_ _ Hr _ _ _] Hin. apply regions_flat in Hr.
  destruct (elementMoves_rising _ _ _ 0 Hr) as [_ F].
  rewrite Forall_forall in F. apply F in Hin. lia.
Qed.

(** Old contents survive a reallocation that does not cut them off. *)
Lemma reallocate_keeps (old : option (list block)) cap newSize s :
  match old with Some arr => len arr = cap | None => cap = 0 end ->
  0 <= s < cap -> s < newSize ->
  readSlot (reallocate newSize old) s
  = match old with Some arr => readSlot arr s | None => None end.
Proof.
  intros H Hs Hn. destruct old as [arr|]; [|lia].
  apply readSlot_reallocate; lia.
Qed.

Lemma allocated_each g :
  allocated g ->
  match instanceMatrix g with
  | Some arr => len arr = bufferElementSize g | None => bufferElementSize g = 0 end
  /\ match instanceData g with
     | Some arr => len arr = bufferElementSize g | None => bufferElementSize g = 0 end
  /\ match instanceClipping g with
     | Some arr => len arr = bufferElementSize g | None => bufferElementSize g = 0 end.
Proof.
  unfold allocated.
  destruct (mesh g) as [me|], (instanceMatrix g) as [m|], (instanceData g) as [d|],
    (instanceClipping g) as [c|]; try contradiction; tauto.
Qed.

(** The growing branch: [resize], then the rearrangement. *)
Lemma grow_spec g :
  wf g -> 1 <= elementCount g -> bufferElementSize g < elementCount g ->
  exists g1,
    (g' <- resize g ;; rearrange g') = OK g1
    /\ laidOut g g1 (ceil15 (elementCount g))
         [EvResize (bufferElementSize g) (ceil15 (elementCount g)); EvRearrange].
Proof.
  intros Hwf Hn Hlt.
  pose proof Hwf as [Ha Hs Hr Hc Hsp Hsc].
  set (n := elementCount g) in *. set (cap := bufferElementSize g) in *.
  pose proof (ceil15_ge n ltac:(lia)) as Hge.
  set (new := ceil15 n) in *.
  unfold resize. fold n cap new. fields. fold cap.
  destruct (Z.ltb_spec new 0) as [?|_]; [lia|]. cbn [bind].
  match goal with |- exists g1, rearrange ?G = _ /\ _ => set (gr := G) end.
  assert (Hsh : shape (buckets gr) = shape (buckets g)).
  { unfold gr. fields. apply shape_resize. }
  assert (Hne : buckets g <> []) by (apply totalSize_pos_nonempty; lia).
  destruct (rearrange_spec gr (reallocate new (instanceMatrix g))
              (reallocate new (instanceData g)) (reallocate new (instanceClipping g)) new)
    as (m' & d' & c' & Hrun & Lm & Ld & Lc & Hdata);
    try reflexivity; try (apply len_reallocate; lia).
  { rewrite (allElements_shape _ _ Hsh). apply regions_flat in Hr.
    eapply slotsWithin_weaken; eauto; lia. }
  { rewrite (shape_totalSize _ _ Hsh). lia. }
  eexists. split; [exact Hrun|].
  rewrite (allElements_shape _ _ Hsh) in Hdata.
  eapply laidOut_intro with (me := mkMesh 0 true (renderOrder g));
    try reflexivity; try assumption; try lia.
  - fields. rewrite (packed_shape _ _ _ Hsh). f_equal.
    unfold gr. fields. rewrite totalSlack_resize by auto. lia.
  - unfold gr. fields. rewrite <- app_assoc. reflexivity.
  - intros mv Hmv. destruct (Hdata _ Hmv) as (D1 & D2 & D3).
    pose proof (moves_sources _ _ Hwf Hmv) as Hsrc. fold cap in Hsrc.
    destruct (allocated_each _ Ha) as (A1 & A2 & A3). fold cap in A1, A2, A3.
    unfold matrixAt, dataAt, clippingAt. fields.
    rewrite D1, D2, D3.
    repeat split; apply reallocate_keeps with (cap := cap); auto; lia.
Qed.

(** The branch that keeps the capacity: the rearrangement alone. *)
Lemma inplace_spec g :
  wf g -> 1 <= elementCount g -> elementCount g <= bufferElementSize g ->
  exists g1,
    rearrange g = OK g1
    /\ laidOut g g1 (bufferElementSize g) [EvRearrange].
Proof.
  intros Hwf Hn Hle.
  pose proof Hwf as [Ha Hs Hr Hc Hsp Hsc].
  destruct (allocated_arrays _ Ha ltac:(lia))
    as (me & m & d & c & Eme & Em & Ed & Ec & Lm & Ld & Lc).
  destruct (rearrange_spec g m d c (bufferElementSize g))
    as (m' & d' & c' & Hrun & Lm' & Ld' & Lc' & Hdata); auto.
  { apply regions_flat. exact Hr. }
  { lia. }
  eexists. split; [exact Hrun|].
  eapply laidOut_intro with (me := me); try reflexivity; try assumption; try lia.
  - fields. f_equal. lia.
  - intros mv Hmv. destruct (Hdata _ Hmv) as (D1 & D2 & D3).
    unfold matrixAt, dataAt, clippingAt. fields. rewrite Em, Ed, Ec. auto.
Qed.

(** The shrinking branch: the rearrangement, then [resize]. *)
Lemma shrink_spec g :
  wf g -> 1 <= elementCount g -> 3 * elementCount g <= bufferElementSize g ->
  exists g1,
    (g' <- rearrange g ;; resize g') = OK g1
    /\ laidOut g g1 (ceil15 (elementCount g))
         [EvRearrange; EvResize (bufferElementSize g) (ceil15 (elementCount g))].
Proof.
  intros Hwf Hn Hle.
  pose proof Hwf as [Ha Hs Hr Hc Hsp Hsc].
  set (n := elementCount g) in *. set (cap := bufferElementSize g) in *.
  pose proof (ceil15_ge n ltac:(lia)) as Hge.
  destruct (allocated_arrays _ Ha ltac:(fold cap; lia))
    as (me & m & d & c & Eme & Em & Ed & Ec & Lm & Ld & Lc).
  fold cap in Lm, Ld, Lc.
  destruct (rearrange_spec g m d c cap)
    as (m' & d' & c' & Hrun & Lm' & Ld' & Lc' & Hdata); auto.
  { apply regions_flat. exact Hr. }
  { lia. }
  rewrite Hrun. cbn [bind]. unfold resize. fields. fold n cap.
  set (new := ceil15 n) in *.
  destruct (Z.ltb_spec new 0) as [?|_]; [lia|].
  assert (Hts : 1 <= totalSize (buckets g)) by lia.
  destruct (packed_spec (totalSlack (buckets g)) (buckets g) Hs Hts)
    as (P1 & P2 & P3 & P4 & P5 & P6); [lia|].
  eexists. split; [reflexivity|].
  eapply laidOut_intro with (me := mkMesh 0 true (renderOrder g));
    try reflexivity; try assumption; try lia;
    try (fields; apply len_reallocate; lia).
  - fields. unfold resizeSortedBucketsSpace. rewrite reoffset_packed by exact P5.
    unfold packed. rewrite giveSlackToLast_twice. f_equal. lia.
  - fields. rewrite <- app_assoc. reflexivity.
  - intros mv Hmv. destruct (Hdata _ Hmv) as (D1 & D2 & D3).
    pose proof (elementMoves_targets (allElements (buckets g)) 0) as F.
    rewrite Forall_forall in F. apply F in Hmv. rewrite <- totalSize_flat in Hmv.
    unfold matrixAt, dataAt, clippingAt. fields. rewrite Em, Ed, Ec.
    rewrite <- D1, <- D2, <- D3.
    repeat split; apply readSlot_reallocate; lia.
Qed.

Lemma updateBuffers_spec g :
  wf g -> 1 <= elementCount g ->
  exists g1,
    updateBuffers g = OK g1
    /\ laidOut g g1 (capacityAfter (elementCount g) (bufferElementSize g))
         (layoutEvents (elementCount g) (bufferElementSize g)).
Proof.
  intros Hwf Hn. unfold updateBuffers, capacityAfter, layoutEvents.
  destruct (Z.ltb_spec (bufferElementSize g) (elementCount g)) as [Hlt|Hge].
  - cbn [orb]. apply grow_spec; auto.
  - cbn [orb].
    destruct (Z.leb_spec (3 * elementCount g) (bufferElementSize g)) as [Hle|Hgt].
    + apply shrink_spec; auto.
    + apply inplace_spec; auto.
Qed.

Lemma allocated_same g g' :
  mesh g' = mesh g -> instanceMatrix g' = instanceMatrix g ->
  instanceData g' = instanceData g -> instanceClipping g' = instanceClipping g ->
  bufferElementSize g' = bufferElementSize g ->
  allocated g -> allocated g'.
Proof. unfold allocated. intros -> -> -> -> ->. auto. Qed.

Lemma scheduled_same g g' :
  nextUpdateTime g' = nextUpdateTime g ->
  nextUpdateTimeoutRef g' = nextUpdateTimeoutRef g -> timers g' = timers g ->
  scheduled g -> scheduled g'.
Proof. unfold scheduled. intros -> -> ->. auto. Qed.

Lemma wf_emit e g : wf g -> wf (emit e g).
Proof. intros [Ha Hs Hr Hc Hsp Hsc]. constructor; auto. Qed.

Lemma capacityAfter_ge n cap : 0 <= n -> n <= capacityAfter n cap.
Proof.
  intros H. unfold capacityAfter.
  destruct (Z.ltb_spec cap n); cbn [orb]; [apply ceil15_ge; auto|].
  destruct (Z.leb_spec (3 * n) cap); [apply ceil15_ge; auto|lia].
Qed.

(** [update] on a group that holds elements. *)
Lemma update_spec g :
  wf g -> 1 <= elementCount g ->
  exists g',
    update g = OK g'
    /\ laidOut g g' (capacityAfter (elementCount g) (bufferElementSize g))
         (EvUpdate :: layoutEvents (elementCount g) (bufferElementSize g))
    /\ exists r, mesh g' = Some (mkMesh (elementCount g) true r).
Proof.
  intros Hwf Hn. unfold update.
  set (g0 := emit EvUpdate g).
  assert (Hz : (elementCount g0 =? 0) = false) by (apply Z.eqb_neq; unfold g0; fields; lia).
  rewrite Hz.
  destruct (updateBuffers_spec g0 (wf_emit _ _ Hwf) Hn) as (g1 & Hrun & Hl).
  rewrite Hrun. cbn [bind].
  destruct Hl as (W & L1 & L2 & L3 & L4 & L5 & L6 & L7 & L8 & L9).
  unfold g0 in L1, L2, L3, L4, L5, L6, L7, L8, L9. fields.
  pose proof (capacityAfter_ge (elementCount g) (bufferElementSize g) ltac:(lia)) as Hcap.
  pose proof W as [Wa Ws Wr Wc Wsp Wsc].
  destruct (allocated_arrays _ Wa ltac:(lia))
    as (me & m & d & c & Eme & Em & Ed & Ec & Lm & Ld & Lc).
  rewrite Eme. eexists. split; [reflexivity|]. split.
  - unfold laidOut. fields. rewrite <- app_assoc in L4.
    split; [|repeat split; auto; try (apply L9; auto)].
    constructor; fields; auto.
    unfold allocated in *. fields. rewrite Em, Ed, Ec in *. rewrite Eme in Wa. auto.
  - fields. rewrite L1. eauto.
Qed.

(** [update] on an empty group hides the mesh and touches nothing else. *)
Lemma update_empty g :
  elementCount g = 0 ->
  update g
  = OK (match mesh g with
        | Some m => setMesh (Some (mkMesh (count m) false (meshRenderOrder m)))
                      (emit EvUpdate g)
        | None => emit EvUpdate g
        end).
Proof.
  intros H. unfold update. fields. rewrite H. cbn [Z.eqb].
  destruct (mesh g); reflexivity.
Qed.

(** *** Requests *)

Lemma clearTimeout_timers g : scheduled g -> timers (clearTimeout g) = [].
Proof.
  unfold scheduled. fields.
  destruct (nextUpdateTime g) as [[|t]|].
  - intros [-> ->]. reflexivity.
  - intros (id & -> & ->). cbn [filter fst]. now rewrite Nat.eqb_refl.
  - intros [-> ->]. reflexivity.
Qed.

Lemma requestUpdateNextFrame_sched g :
  scheduled g ->
  nextUpdateTime (requestUpdateNextFrame g) = Some NextFrame
  /\ timers (requestUpdateNextFrame g) = []
  /\ nextUpdateTimeoutRef (requestUpdateNextFrame g) = None.
Proof.
  intros H. unfold requestUpdateNextFrame. fields.
  repeat split; auto. apply (clearTimeout_timers g H).
Qed.

Lemma requestUpdateNextFrame_scheduled g :
  scheduled g -> scheduled (requestUpdateNextFrame g).
Proof.
  intros H. destruct (requestUpdateNextFrame_sched g H) as (E1 & E2 & E3).
  unfold scheduled. rewrite E1, E2, E3. auto.
Qed.

Lemma schedule_sched time g :
  scheduled g ->
  nextUpdateTime (schedule time g) = Some (AtTime (now g + time))
  /\ timers (schedule time g) = [(nextTimerId g, now g + time)]
  /\ nextUpdateTimeoutRef (schedule time g) = Some (nextTimerId g).
Proof.
  intros H. unfold schedule. fields.
  pose proof (clearTimeout_timers g H) as E. fields.
  repeat split; auto. rewrite E. reflexivity.
Qed.

Lemma requestUpdate_scheduled time g :
  scheduled g -> scheduled (requestUpdate time g).
Proof.
  intros H. unfold requestUpdate.
  destruct (nextUpdateTime g) as [[|t]|] eqn:E; auto.
  - destruct (t <? now g + time); auto.
    destruct (schedule_sched time g H) as (E1 & E2 & E3).
    unfold scheduled. rewrite E1, E2, E3. eauto.
  - destruct (schedule_sched time g H) as (E1 & E2 & E3).
    unfold scheduled. rewrite E1, E2, E3. eauto.
Qed.

Lemma wf_requestUpdate time g : wf g -> wf (requestUpdate time g).
Proof.
  intros [Ha Hs Hr Hc Hsp Hsc].
  pose proof (requestUpdate_scheduled time g Hsc) as Hsc'.
  unfold requestUpdate in *.
  destruct (nextUpdateTime g) as [[|t]|]; try destruct (t <? now g + time);
    constructor; auto.
Qed.

Lemma lastOf_nonempty {A : Type} (l : list A) : l <> [] -> exists x, lastOf l = Some x.
Proof.
  induction l as [|x l IH]; intros H; [congruence|].
  cbn [lastOf]. destruct l as [|y l']; cbn [isNil]; eauto.
  apply IH. discriminate.
Qed.

(** [updateCount] on a group with buckets. *)
Lemma updateCount_ok g :
  buckets g <> [] ->
  exists g', updateCount g = OK g'
    /\ instanceMatrix g' = instanceMatrix g /\ instanceData g' = instanceData g
    /\ instanceClipping g' = instanceClipping g /\ buckets g' = buckets g
    /\ elementCount g' = elementCount g /\ bufferElementSize g' = bufferElementSize g
    /\ nextUpdateTime g' = nextUpdateTime g
    /\ nextUpdateTimeoutRef g' = nextUpdateTimeoutRef g
    /\ timers g' = timers g /\ trace g' = trace g /\ now g' = now g
    /\ (mesh g = None <-> mesh g' = None).
Proof.
  intros H. destruct (lastOf_nonempty _ H) as [b Hb].
  unfold updateCount. rewrite Hb.
  destruct (mesh g) as [me|] eqn:E; eexists; (split; [reflexivity|]); fields;
    rewrite ?E; repeat split; auto; discriminate.
Qed.

Lemma wf_updateCount g g' :
  wf g -> updateCount g = OK g' -> wf g'.
Proof.
  intros [Ha Hs Hr Hc Hsp Hsc] H.
  unfold updateCount in H. destruct (lastOf (buckets g)); [|discriminate].
  destruct (mesh g) as [me|] eqn:E; inversion H; subst; [|constructor; auto].
  constructor; fields; auto.
  unfold allocated in *. fields. rewrite E in Ha. exact Ha.
Qed.

(** *** Insertion and deletion *)

Lemma activateElement_ok e o i g :
  allocated g -> 0 <= o + i < bufferElementSize g ->
  exists d, instanceData g = Some d
    /\ activateElement e o i g
       = OK (setArrays (instanceMatrix g) (Some (writeSlot d (o + i) (defaultData e)))
               (instanceClipping g) g).
Proof.
  intros Ha Hb. destruct (allocated_arrays _ Ha ltac:(lia))
    as (me & m & d & c & Eme & Em & Ed & Ec & Lm & Ld & Lc).
  exists d. split; auto. unfold activateElement. rewrite Ed, Ld.
  destruct (Z.leb_spec 0 (o + i)); try lia.
  destruct (Z.ltb_spec (o + i) (bufferElementSize g)); try lia.
  reflexivity.
Qed.

Lemma allocated_write g m d c :
  allocated g ->
  match instanceMatrix g with Some a => len m = len a | None => False end ->
  match instanceData g with Some a => len d = len a | None => False end ->
  match instanceClipping g with Some a => len c = len a | None => False end ->
  allocated (setArrays (Some m) (Some d) (Some c) g).
Proof.
  unfold allocated. fields.
  destruct (mesh g), (instanceMatrix g), (instanceData g), (instanceClipping g);
    try tauto.
  intros (? & ? & ?) ? ? ?. repeat split; congruence.
Qed.

Lemma insert_spec g bucketIndex panel bs calls needs :
  wf g ->
  addToSortedBuckets (buckets g) bucketIndex panel = (bs, calls, needs) ->
  exists g',
    insert bucketIndex panel g = OK g' /\ wf g' /\ buckets g' = bs
    /\ elementCount g' = elementCount g + 1
    /\ bufferElementSize g' = bufferElementSize g
    /\ trace g' = trace g /\ now g' = now g
    /\ (needs = true ->
          nextUpdateTime g' = Some NextFrame /\ timers g' = []
          /\ nextUpdateTimeoutRef g' = None)
    /\ (needs = false ->
          nextUpdateTime g' = nextUpdateTime g /\ timers g' = timers g
          /\ nextUpdateTimeoutRef g' = nextUpdateTimeoutRef g).
Proof.
  intros Hwf Hadd. pose proof Hwf as [Ha Hs Hr Hc Hsp Hsc].
  unfold addToSortedBuckets in Hadd.
  destruct (addFrom_books _ _ _ _ _ _ _ Hadd) as (B1 & B2 & B3).
  pose proof (addFrom_sorted _ _ _ _ _ _ _ Hadd Hs) as Hs'.
  pose proof (addFrom_regions _ _ _ _ _ _ _ _ Hadd Hr) as Hr'.
  unfold insert, addToSortedBuckets. fields. rewrite Hadd.
  destruct (addFrom_calls _ _ _ _ _ _ _ _ Hadd Hr)
    as [[-> ->]|(-> & o & i & -> & Hb)].
  - cbn [runCalls bind negb].
    match goal with |- exists g', OK (requestUpdateNextFrame ?G) = _ /\ _ =>
      set (g2 := G) end.
    assert (Hsc2 : scheduled g2) by exact Hsc.
    destruct (requestUpdateNextFrame_sched g2 Hsc2) as (E1 & E2 & E3).
    eexists. split; [reflexivity|].
    split; [|repeat split; auto; discriminate].
    constructor.
    + exact Ha.
    + exact Hs'.
    + exact Hr'.
    + unfold requestUpdateNextFrame, g2. fields. lia.
    + unfold requestUpdateNextFrame, g2. fields. lia.
    + apply requestUpdateNextFrame_scheduled. exact Hsc2.
  - cbn [runCalls runCall].
    match goal with |- context [activateElement _ _ _ ?G] => set (g2 := G) end.
    assert (Ha2 : allocated g2) by exact Ha.
    destruct (activateElement_ok panel o i g2 Ha2 Hb) as (d & Ed & ->).
    cbn [bind negb].
    match goal with |- exists g', updateCount ?G = _ /\ _ => set (g3 := G) end.
    assert (Hwf3 : wf g3).
    { constructor.
      - unfold g3. destruct (allocated_arrays _ Ha2 ltac:(unfold g2; fields; lia))
          as (me & m & d0 & c & Eme & Em & Ed0 & Ec & Lm & Ld & Lc).
        rewrite Em, Ec. apply allocated_write; auto; rewrite ?Em, ?Ed, ?Ec; auto.
        apply len_writeSlot.
      - exact Hs'.
      - exact Hr'.
      - unfold g3, g2. fields. lia.
      - unfold g3, g2. fields. lia.
      - exact Hsc. }
    destruct (updateCount_ok g3) as (g' & Hrun & U); [exact B3|].
    exists g'. split; [exact Hrun|]. split; [eapply wf_updateCount; eauto|].
    destruct U as (U1 & U2 & U3 & U4 & U5 & U6 & U7 & U8 & U9 & U10 & U11 & U12).
    repeat split; try congruence; try discriminate; auto.
Qed.

(** Inside the array [fill] over one slot is a write to that slot. *)
Lemma fill_slot {A : Type} (arr : list A) (v : A) (s : Z) :
  0 <= s < len arr -> fill arr v s (s + 1) = writeSlot arr s v.
Proof.
  intros Hs. unfold fill, relIndex, writeSlot.
  destruct (Z.ltb_spec s 0); try lia.
  destruct (Z.ltb_spec (s + 1) 0); try lia.
  destruct (Z.leb_spec 0 s); try lia.
  rewrite !Z.min_l by lia.
  destruct (Z.ltb_spec s (s + 1)); try lia.
  replace (s + 1 - s) with 1 by lia.
  replace (Z.to_nat 1) with 1%nat by reflexivity.
  replace (Z.to_nat (s + 1)) with (S (Z.to_nat s)) by lia.
  cbn [repeat app]. apply updNth_split. unfold len in *. lia.
Qed.

Lemma clearBufferAt_ok s g :
  allocated g -> 0 <= s < bufferElementSize g ->
  exists m, instanceMatrix g = Some m
    /\ clearBufferAt s g
       = OK (setArrays (Some (writeSlot m s zeroBlock)) (instanceData g)
               (instanceClipping g) g).
Proof.
  intros Ha Hb. destruct (allocated_arrays _ Ha ltac:(lia))
    as (me & m & d & c & Eme & Em & Ed & Ec & Lm & Ld & Lc).
  exists m. split; auto. unfold clearBufferAt. rewrite Em.
  rewrite fill_slot by lia. reflexivity.
Qed.

Lemma delete_spec g bucketIndex elementIndex panel bs calls needs :
  wf g ->
  removeFromSortedBuckets (buckets g) bucketIndex panel elementIndex
    = OK (bs, calls, needs) ->
  exists g',
    delete bucketIndex elementIndex panel g = OK g' /\ wf g' /\ buckets g' = bs
    /\ elementCount g' = elementCount g - 1
    /\ bufferElementSize g' = bufferElementSize g
    /\ trace g' = trace g /\ now g' = now g
    /\ (needs = true ->
          nextUpdateTime g' = nextUpdateTime (requestUpdate 1000 g)
          /\ timers g' = timers (requestUpdate 1000 g)
          /\ nextUpdateTimeoutRef g' = nextUpdateTimeoutRef (requestUpdate 1000 g))
    /\ (needs = false ->
          nextUpdateTime g' = nextUpdateTime g /\ timers g' = timers g
          /\ nextUpdateTimeoutRef g' = nextUpdateTimeoutRef g)
    /\ (forall s, calls = [ClearBufferAt s] -> matrixAt g' s = Some zeroBlock).
Proof.
  intros Hwf Hrem. pose proof Hwf as [Ha Hs Hr Hc Hsp Hsc].
  destruct (removeFrom_spec _ _ _ _ _ _ _ _ _ Hrem Hr)
    as (R1 & R2 & R3 & R4 & R5 & R6).
  pose proof (sortedIdx_indices _ _ R1 Hs) as Hs'.
  unfold delete. fields. rewrite Hrem. cbn [bind].
  assert (Hcase : calls = [] \/ needs = false /\ exists s, calls = [ClearBufferAt s]
                                                 /\ 0 <= s < bufferElementSize g)
    by exact R6.
  clear R6. destruct Hcase as [->|(-> & s & -> & Hb)].
  - cbn [runCalls bind].
    match goal with |- context [if negb needs then updateCount ?G else _] =>
      set (g2 := G) end.
    assert (Hwf2 : wf g2).
    { constructor; auto; unfold g2; fields; lia. }
    destruct needs; cbn [negb].
    + eexists. split; [reflexivity|]. split.
      * apply wf_requestUpdate. exact Hwf2.
      * unfold requestUpdate, g2. fields.
        destruct (nextUpdateTime g) as [[|t]|]; fields;
          try destruct (t <? now g + 1000); fields;
          repeat split; auto; try discriminate.
    + destruct (updateCount_ok g2) as (g' & Hrun & U); [exact R5|].
      exists g'. split; [exact Hrun|]. split; [eapply wf_updateCount; eauto|].
      destruct U as (U1 & U2 & U3 & U4 & U5 & U6 & U7 & U8 & U9 & U10 & U11 & U12).
      repeat split; try congruence; try discriminate; auto.
  - cbn [runCalls runCall].
    match goal with |- context [clearBufferAt _ ?G] => set (g2 := G) end.
    assert (Ha2 : allocated g2) by exact Ha.
    destruct (clearBufferAt_ok s g2 Ha2 Hb) as (m & Em & ->).
    cbn [bind negb].
    match goal with |- exists g', updateCount ?G = _ /\ _ => set (g3 := G) end.
    assert (Hwf3 : wf g3).
    { constructor.
      - unfold g3. destruct (allocated_arrays _ Ha2 ltac:(unfold g2; fields; lia))
          as (me & m0 & d & c & Eme & Em0 & Ed & Ec & Lm & Ld & Lc).
        rewrite Ed, Ec. apply allocated_write; auto; rewrite ?Em, ?Ed, ?Ec; auto.
        apply len_writeSlot.
      - exact Hs'.
      - exact R4.
      - unfold g3, g2. fields. lia.
      - unfold g3, g2. fields. lia.
      - exact Hsc. }
    destruct (updateCount_ok g3) as (g' & Hrun & U); [exact R5|].
    exists g'. split; [exact Hrun|]. split; [eapply wf_updateCount; eauto|].
    destruct U as (U1 & U2 & U3 & U4 & U5 & U6 & U7 & U8 & U9 & U10 & U11 & U12).
    repeat split; try congruence; try discriminate; auto.
    intros s' E. inversion E; subst s'. unfold matrixAt. rewrite U1.
    unfold g3. fields. apply readSlot_writeSlot_same.
    destruct (allocated_arrays _ Ha2 ltac:(unfold g2; fields; lia))
      as (me & m0 & d & c & Eme & Em0 & Ed & Ec & Lm & Ld & Lc).
    unfold g2 in *. fields. congruence.
Qed.

(** *** Frames, timers and the other moves *)

Lemma wf_count_nonneg g : wf g -> 0 <= elementCount g.
Proof. intros [_ _ _ Hc _ _]. rewrite <- Hc. apply totalSize_nonneg. Qed.

Lemma wf_update g : wf g -> exists g', update g = OK g' /\ wf g'.
Proof.
  intros Hwf. pose proof (wf_count_nonneg _ Hwf) as Hn.
  destruct (Z.eq_dec (elementCount g) 0) as [Hz|Hnz].
  - rewrite (update_empty _ Hz). eexists. split; [reflexivity|].
    destruct Hwf as [Ha Hs Hr Hc Hsp Hsc].
    destruct (mesh g) as [me|] eqn:E; constructor; fields; auto.
    unfold allocated in *. fields. rewrite E in Ha. exact Ha.
  - destruct (update_spec g Hwf ltac:(lia)) as (g' & Hrun & Hl & _).
    exists g'. split; auto. apply Hl.
Qed.

Lemma wf_onFrame g : wf g -> exists g', onFrame g = OK g' /\ wf g'.
Proof.
  intros Hwf. unfold onFrame.
  destruct (nextUpdateTime g) as [[|t]|] eqn:E; eauto.
  apply wf_update. destruct Hwf as [Ha Hs Hr Hc Hsp Hsc].
  constructor; auto. unfold scheduled in *. fields. now rewrite E in Hsc.
Qed.

Lemma wf_fireTimer id g g' : wf g -> fireTimer id g = Some g' -> wf g'.
Proof.
  intros [Ha Hs Hr Hc Hsp Hsc] H. unfold fireTimer, timerDue in H.
  destruct (find _ (timers g)) as [[id0 due]|] eqn:Ef; cbn [option_map snd] in H;
    [|discriminate].
  destruct (due <=? now g); [|discriminate]. inversion H; subst. clear H.
  apply find_some in Ef. destruct Ef as [Hin Heq]. cbn [fst] in Heq.
  apply Nat.eqb_eq in Heq. subst id0.
  unfold scheduled in Hsc.
  destruct (nextUpdateTime g) as [[|t]|] eqn:E;
    try (destruct Hsc as [Ht _]; rewrite Ht in Hin; contradiction).
  destruct Hsc as (id1 & Eref & Et). rewrite Et in Hin.
  destruct Hin as [Hin|[]]. inversion Hin; subst.
  constructor; auto.
  unfold scheduled, requestUpdateNextFrame. fields. rewrite Eref, Et.
  cbn [filter fst]. rewrite Nat.eqb_refl. cbn [negb filter]. auto.
Qed.

Lemma wf_setRenderOrder r g : wf g -> wf (setRenderOrder r g).
Proof.
  intros [Ha Hs Hr Hc Hsp Hsc]. unfold setRenderOrder. fields.
  destruct (mesh g) as [me|] eqn:E; constructor; auto.
  unfold allocated in *. fields. rewrite E in Ha. exact Ha.
Qed.

Lemma wf_panelWrite s m d c g g' : wf g -> panelWrite s m d c g = Some g' -> wf g'.
Proof.
  intros [Ha Hs Hr Hc Hsp Hsc] H. unfold panelWrite in H.
  destruct (instanceMatrix g) as [am|] eqn:Em; [|discriminate].
  destruct (instanceData g) as [ad|] eqn:Ed; [|discriminate].
  destruct (instanceClipping g) as [ac|] eqn:Ec; [|discriminate].
  destruct (occupied s (buckets g)); [|discriminate]. inversion H; subst.
  constructor; auto.
  apply allocated_write; auto; rewrite ?Em, ?Ed, ?Ec; apply len_writeSlot.
Qed.

Lemma wf_new r t : wf (newGroup r t).
Proof.
  constructor; cbn; auto. lia.
Qed.

Lemma wf_step g g' : wf g -> step g g' -> wf g'.
Proof.
  intros Hwf Hstep. destruct Hstep as
    [b p g g' H|b k p g g' H|g g' H|id g g' H|t g H|r g|s m d c g g' H].
  - destruct (addToSortedBuckets (buckets g) b p) as [[bs calls] needs] eqn:E.
    destruct (insert_spec _ _ _ _ _ _ Hwf E) as (g2 & Hrun & W & _). congruence.
  - pose proof H as H'. unfold delete in H'. fields.
    destruct (removeFromSortedBuckets (buckets g) b p k) as [[[bs calls] needs]|f] eqn:E;
      [|discriminate].
    destruct (delete_spec _ _ _ _ _ _ _ Hwf E) as (g2 & Hrun & W & _). congruence.
  - destruct (wf_onFrame _ Hwf) as (g2 & Hrun & W). congruence.
  - eapply wf_fireTimer; eauto.
  - destruct Hwf as [Ha Hs Hr Hc Hsp Hsc]. constructor; auto.
  - apply wf_setRenderOrder. auto.
  - eapply wf_panelWrite; eauto.
Qed.

(** Every reachable state is well formed. *)
Lemma reachable_wf g : reachable g -> wf g.
Proof.
  induction 1 as [r t|g g' _ IH Hstep].
  - apply wf_new.
  - eapply wf_step; eauto.
Qed.

End GroupFacts.

(** ** Properties of the buffer group *)

Module Claims.
Import SortedBuckets Group Moves Invariants Scenarios.
Import SortedBucketsFacts MovesFacts GroupFacts.

Lemma runOp_step op g g' : runOp op g = Some g' -> step g g'.
Proof.
  destruct op as [b p|b k p| |id|t|s m d c]; cbn [runOp]; intros H.
  - destruct (insert b p g) eqn:E; inversion H; subst. eapply step_insert; eauto.
  - destruct (delete b k p g) eqn:E; inversion H; subst. eapply step_delete; eauto.
  - destruct (onFrame g) eqn:E; inversion H; subst. eapply step_frame; eauto.
  - eapply step_timer; eauto.
  - destruct (Z.leb_spec (now g) t); inversion H; subst. apply step_clock. auto.
  - eapply step_write; eauto.
Qed.

Lemma runOps_reachable ops : forall g g',
  reachable g -> runOps ops g = Some g' -> reachable g'.
Proof.
  induction ops as [|op ops IH]; cbn [runOps]; intros g g' Hr H.
  - inversion H; subst. auto.
  - destruct (runOp op g) as [g1|] eqn:E; [|discriminate].
    eapply IH; [|exact H]. eapply reach_step; eauto. eapply runOp_step; eauto.
Qed.

Lemma stateAfter_reachable ops g :
  runOps ops (newGroup 0 0) = Some g -> reachable g.
Proof. apply runOps_reachable. apply reach_new. Qed.

(** [ceil15 n] is the least integer not below [3n/2]. *)
Lemma ceil15_least n k : ceil15 n <= k <-> 3 * n <= 2 * k.
Proof.
  unfold ceil15.
  pose proof (Z.div_mod (3 * n + 1) 2 ltac:(lia)).
  pose proof (Z.mod_pos_bound (3 * n + 1) 2 ltac:(lia)). lia.
Qed.

Lemma reachable_settled : reachable settledState.
Proof. apply (stateAfter_reachable settledOps). vm_compute. reflexivity. Qed.

Lemma reachable_pending : reachable pendingState.
Proof. apply (stateAfter_reachable pendingOps). vm_compute. reflexivity. Qed.

Lemma reachable_written : reachable writtenState.
Proof. apply (stateAfter_reachable writtenOps). vm_compute. reflexivity. Qed.


Lemma reachable_emptied : reachable emptiedState.
Proof. apply (stateAfter_reachable emptiedOps). vm_compute. reflexivity. Qed.


(** *** Where an element goes in a rearrangement *)

Lemma packElements_moves els : forall o e s,
  In (e, Some s) els ->
  exists t, In (e, Some t) (packElements o els) /\ In (s, t) (elementMoves o els).
Proof.
  induction els as [|[e' [s'|]] r IH]; intros o e s H; cbn [packElements elementMoves].
  - destruct H.
  - destruct H as [H|H].
    + inversion H; subst. exists o. split; left; reflexivity.
    + destruct (IH (o + 1) _ _ H) as (t & H1 & H2). exists t. split; right; auto.
  - destruct H as [H|H]; [discriminate|].
    destruct (IH (o + 1) _ _ H) as (t & H1 & H2). exists t. split; [right|]; auto.
Qed.

Lemma packBuckets_moves k : forall o b e s,
  In b k -> In (e, Some s) (elements b) ->
  exists b' t, In b' (packBuckets o k) /\ index b' = index b
    /\ In (e, Some t) (elements b') /\ In (s, t) (bucketMoves o k).
Proof.
  induction k as [|b0 r IH]; intros o b e s Hb He; cbn [packBuckets bucketMoves].
  - destruct Hb.
  - destruct Hb as [->|Hb].
    + destruct (packElements_moves _ o _ _ He) as (t & H1 & H2).
      eexists. exists t. split; [left; reflexivity|]. cbn [index elements].
      split; [reflexivity|]. split; [exact H1|]. apply in_or_app. auto.
    + destruct (IH (o + size b0) _ _ _ Hb He) as (b' & t & H1 & H2 & H3 & H4).
      exists b', t. split; [right; exact H1|]. split; [exact H2|].
      split; [exact H3|]. apply in_or_app. auto.
Qed.

Lemma giveSlackToLast_in t bs b :
  In b bs ->
  exists b', In b' (giveSlackToLast t bs) /\ index b' = index b
    /\ elements b' = elements b.
Proof.
  induction bs as [|b0 r IH]; intros H; [destruct H|].
  cbn [giveSlackToLast]. destruct (isNil r) eqn:E.
  - destruct r; [|discriminate]. destruct H as [->|[]].
    eexists. split; [left; reflexivity|]. auto.
  - destruct H as [->|H].
    + exists b. split; [left|]; auto.
    + destruct (IH H) as (b' & H1 & H2 & H3). exists b'. split; [right|]; auto.
Qed.

Lemma packed_element t bs b e s :
  In b bs -> In (e, Some s) (elements b) ->
  exists b' t', In b' (packed t bs) /\ index b' = index b
    /\ In (e, Some t') (elements b')
    /\ In (s, t') (elementMoves 0 (allElements bs)).
Proof.
  intros Hb He.
  assert (Hk : In b (filter nonEmpty bs)).
  { apply filter_In. split; auto. unfold nonEmpty.
    destruct (elements b); [destruct He|reflexivity]. }
  destruct (packBuckets_moves _ 0 _ _ _ Hk He) as (b1 & t1 & H1 & H2 & H3 & H4).
  destruct (giveSlackToLast_in t _ _ H1) as (b2 & G1 & G2 & G3).
  exists b2, t1. unfold packed. repeat split; auto; try congruence.
  rewrite bucketMoves_flat, allElements_kept in H4. exact H4.
Qed.

Lemma totalSize_zero_empty bs b :
  totalSize bs = 0 -> In b bs -> elements b = [].
Proof.
  induction bs as [|b0 r IH]; intros Hz Hb; [destruct Hb|].
  books. pose proof (totalSize_nonneg r). unfold size in Hz.
  pose proof (len_nonneg (elements b0)).
  destruct Hb as [->|Hb].
  - destruct (elements b); auto. rewrite len_cons in *.
    pose proof (len_nonneg l). lia.
  - apply IH; auto. lia.
Qed.

(** *** The capacity policy of [update] *)

(** C2, as stated, fails on an empty group: in [emptiedState] no element is
    left and the capacity is 3, so [n <= cap / 3] holds, yet [update] returns
    before any resize and the capacity stays 3 instead of [ceil (0 * 1.5) = 0]. *)
Lemma C2_counterexample :
  reachable emptiedState
  /\ 3 * elementCount emptiedState <= bufferElementSize emptiedState
  /\ exists g', update emptiedState = OK g'
       /\ bufferElementSize g' <> ceil15 (elementCount emptiedState).
Proof.
  split; [exact reachable_emptied|].
  split; [vm_compute; discriminate|].
  eexists. split; [vm_compute; reflexivity|].
  vm_compute. discriminate.
Qed.

(** C2 (amended): in every reachable state [update] completes; with [n >= 1]
    live elements and capacity [cap] it sets the capacity to [ceil (n * 1.5)]
    if [n > cap] or [n <= cap / 3] and leaves it unchanged otherwise, so that
    afterwards the capacity is at least [n]; with [n = 0] it leaves the
    capacity unchanged. *)
Theorem C2_capacity_hysteresis g :
  reachable g ->
  exists g',
    update g = OK g'
    /\ (elementCount g = 0 -> bufferElementSize g' = bufferElementSize g)
    /\ (1 <= elementCount g ->
          (bufferElementSize g < elementCount g ->
             bufferElementSize g' = ceil15 (elementCount g))
          /\ (3 * elementCount g <= bufferElementSize g ->
                bufferElementSize g' = ceil15 (elementCount g))
          /\ (elementCount g <= bufferElementSize g < 3 * elementCount g ->
                bufferElementSize g' = bufferElementSize g)
          /\ elementCount g' <= bufferElementSize g').
Proof.
  intros Hr. pose proof (reachable_wf _ Hr) as Hwf.
  pose proof (wf_count_nonneg _ Hwf) as Hn.
  destruct (Z.eq_dec (elementCount g) 0) as [Hz|Hnz].
  - rewrite (update_empty _ Hz). eexists. split; [reflexivity|].
    split; [|lia]. intros _. destruct (mesh g); reflexivity.
  - destruct (update_spec g Hwf ltac:(lia)) as (g' & Hrun & Hl & _).
    exists g'. split; [exact Hrun|]. split; [lia|]. intros _.
    destruct Hl as (_ & L1 & L2 & _).
    pose proof (capacityAfter_ge (elementCount g) (bufferElementSize g) Hn) as Hge.
    rewrite L1, L2. unfold capacityAfter in *.
    destruct (Z.ltb_spec (bufferElementSize g) (elementCount g));
      destruct (Z.leb_spec (3 * elementCount g) (bufferElementSize g));
      cbn [orb] in *; repeat split; intros; auto; lia.
Qed.

Lemma C2_capacity_hysteresis_witness :
  reachable settledState
  /\ exists g',
       update settledState = OK g'
       /\ (elementCount settledState = 0 ->
             bufferElementSize g' = bufferElementSize settledState)
       /\ (1 <= elementCount settledState ->
             (bufferElementSize settledState < elementCount settledState ->
                bufferElementSize g' = ceil15 (elementCount settledState))
             /\ (3 * elementCount settledState <= bufferElementSize settledState ->
                   bufferElementSize g' = ceil15 (elementCount settledState))
             /\ (elementCount settledState <= bufferElementSize settledState
                   < 3 * elementCount settledState ->
                   bufferElementSize g' = bufferElementSize settledState)
             /\ elementCount g' <= bufferElementSize g').
Proof.
  assert (Hr : reachable settledState).
  { apply (stateAfter_reachable settledOps). vm_compute. reflexivity. }
  split; [exact Hr|]. apply (C2_capacity_hysteresis settledState). exact Hr.
Defined.

(** C7: in every reachable state [update] completes.  With no element it
    hides the mesh, if there is one, and reallocates nothing: capacity, arrays
    and buckets stay as they are and no resize or rearrangement is recorded.
    With [n >= 1] elements the mesh afterwards draws [n] instances and is
    visible. *)
Theorem C7_update_draw_count g :
  reachable g ->
  exists g',
    update g = OK g'
    /\ (elementCount g = 0 ->
          mesh g' = option_map hide (mesh g)
          /\ bufferElementSize g' = bufferElementSize g
          /\ instanceMatrix g' = instanceMatrix g
          /\ instanceData g' = instanceData g
          /\ instanceClipping g' = instanceClipping g
          /\ buckets g' = buckets g
          /\ trace g' = trace g ++ [EvUpdate])
    /\ (1 <= elementCount g ->
          exists r, mesh g' = Some (mkMesh (elementCount g) true r)).
Proof.
  intros Hr. pose proof (reachable_wf _ Hr) as Hwf.
  pose proof (wf_count_nonneg _ Hwf) as Hn.
  destruct (Z.eq_dec (elementCount g) 0) as [Hz|Hnz].
  - rewrite (update_empty _ Hz). eexists. split; [reflexivity|].
    split; [|lia]. intros _. destruct (mesh g) eqn:E; cbn; rewrite ?E; auto 10.
  - destruct (update_spec g Hwf ltac:(lia)) as (g' & Hrun & _ & Hm).
    exists g'. split; [exact Hrun|]. split; [lia|]. auto.
Qed.

Lemma C7_update_draw_count_witness :
  reachable pendingState
  /\ exists g',
       update pendingState = OK g'
       /\ (elementCount pendingState = 0 ->
             mesh g' = option_map hide (mesh pendingState)
             /\ bufferElementSize g' = bufferElementSize pendingState
             /\ instanceMatrix g' = instanceMatrix pendingState
             /\ instanceData g' = instanceData pendingState
             /\ instanceClipping g' = instanceClipping pendingState
             /\ buckets g' = buckets pendingState
             /\ trace g' = trace pendingState ++ [EvUpdate])
       /\ (1 <= elementCount pendingState ->
             exists r, mesh g' = Some (mkMesh (elementCount pendingState) true r)).
Proof.
  assert (Hr : reachable pendingState).
  { apply (stateAfter_reachable pendingOps). vm_compute. reflexivity. }
  split; [exact Hr|]. apply (C7_update_draw_count pendingState). exact Hr.
Defined.

(** C9: in every reachable state a missing mesh means capacity 0; [resize]
    always leaves a mesh behind; and whenever [update] runs with at least one
    element, the branch it takes completes with the mesh in place, so the
    assignment of the draw count never meets a missing mesh and [update]
    completes. *)
Theorem C9_mesh_present_in_update g :
  reachable g ->
  (mesh g = None -> bufferElementSize g = 0)
  /\ (forall g0 g1, resize g0 = OK g1 -> mesh g1 <> None)
  /\ (1 <= elementCount g ->
        exists g1 me,
          updateBuffers (emit EvUpdate g) = OK g1 /\ mesh g1 = Some me)
  /\ (exists g', update g = OK g').
Proof.
  intros Hr. pose proof (reachable_wf _ Hr) as Hwf.
  split; [|split; [|split]].
  - destruct Hwf as [Ha _ _ _ _ _]. unfold allocated in Ha. intros E.
    rewrite E in Ha.
    destruct (instanceMatrix g), (instanceData g), (instanceClipping g);
      tauto.
  - intros g0 g1 H. unfold resize in H.
    destruct (ceil15 (elementCount g0) <? 0); [discriminate|].
    inversion H; subst. cbn. discriminate.
  - intros Hn.
    destruct (updateBuffers_spec _ (wf_emit EvUpdate _ Hwf) Hn) as (g1 & Hrun & Hl).
    destruct Hl as (W & _ & L2 & _).
    pose proof (capacityAfter_ge (elementCount (emit EvUpdate g))
                  (bufferElementSize (emit EvUpdate g)) ltac:(fields; lia)) as Hge.
    fields.
    destruct W as [Wa _ _ _ _ _].
    destruct (allocated_arrays _ Wa ltac:(lia)) as (me & _ & _ & _ & Eme & _).
    exists g1, me. auto.
  - destruct (wf_update _ Hwf) as (g' & Hrun & _). eauto.
Qed.

Lemma C9_mesh_present_in_update_witness :
  reachable settledState
  /\ (mesh settledState = None -> bufferElementSize settledState = 0)
  /\ (forall g0 g1, resize g0 = OK g1 -> mesh g1 <> None)
  /\ (1 <= elementCount settledState ->
        exists g1 me,
          updateBuffers (emit EvUpdate settledState) = OK g1 /\ mesh g1 = Some me)
  /\ (exists g', update settledState = OK g').
Proof.
  assert (Hr : reachable settledState).
  { apply (stateAfter_reachable settledOps). vm_compute. reflexivity. }
  split; [exact Hr|]. apply (C9_mesh_present_in_update settledState). exact Hr.
Defined.

(** *** The order of resize and rearrangement *)

(** C3: in every reachable state [update] completes, and within that one call
    - when [n > cap], the resize comes before the rearrangement;
    - when [n <= cap / 3], the rearrangement comes before the resize (an
      empty group does neither);
    - every element that had a slot has one inside the new buffer afterwards,
      in its bucket, and its transform, style and clipping blocks are there
      as they were at its old slot. *)
Theorem C3_update_ordering g :
  reachable g ->
  exists g',
    update g = OK g'
    /\ (bufferElementSize g < elementCount g ->
          trace g'
          = trace g ++ [EvUpdate;
                        EvResize (bufferElementSize g) (ceil15 (elementCount g));
                        EvRearrange])
    /\ (3 * elementCount g <= bufferElementSize g ->
          (1 <= elementCount g
           /\ trace g'
              = trace g ++ [EvUpdate; EvRearrange;
                            EvResize (bufferElementSize g) (ceil15 (elementCount g))])
          \/ (elementCount g = 0 /\ trace g' = trace g ++ [EvUpdate]))
    /\ (forall b e s,
          In b (buckets g) -> In (e, Some s) (elements b) ->
          exists b' t,
            In b' (buckets g') /\ index b' = index b
            /\ In (e, Some t) (elements b')
            /\ 0 <= t < bufferElementSize g'
            /\ matrixAt g s <> None
            /\ matrixAt g' t = matrixAt g s
            /\ dataAt g' t = dataAt g s
            /\ clippingAt g' t = clippingAt g s).
Proof.
  intros Hr. pose proof (reachable_wf _ Hr) as Hwf.
  pose proof (wf_count_nonneg _ Hwf) as Hn.
  destruct (Z.eq_dec (elementCount g) 0) as [Hz|Hnz].
  - rewrite (update_empty _ Hz). eexists. split; [reflexivity|].
    split; [|split].
    + intros Hlt. destruct Hwf as [_ _ Hreg _ _ _].
      apply regions_le in Hreg. lia.
    + intros _. right. split; auto. destruct (mesh g); reflexivity.
    + intros b e s Hb He. destruct Hwf as [_ _ _ Hc _ _].
      rewrite Hz in Hc. rewrite (totalSize_zero_empty _ _ Hc Hb) in He.
      destruct He.
  - destruct (update_spec g Hwf ltac:(lia)) as (g' & Hrun & Hl & _).
    exists g'. split; [exact Hrun|].
    destruct Hl as (W & L1 & L2 & L3 & L4 & _ & _ & _ & _ & L9).
    pose proof (capacityAfter_ge (elementCount g) (bufferElementSize g) Hn) as Hge.
    split; [|split].
    + intros Hlt. rewrite L4. unfold layoutEvents.
      destruct (Z.ltb_spec (bufferElementSize g) (elementCount g)); [reflexivity|lia].
    + intros Hle. left. split; [lia|]. rewrite L4. unfold layoutEvents.
      destruct (Z.ltb_spec (bufferElementSize g) (elementCount g)); [lia|].
      destruct (Z.leb_spec (3 * elementCount g) (bufferElementSize g));
        [reflexivity|lia].
    + intros b e s Hb He.
      destruct (packed_element
                  (capacityAfter (elementCount g) (bufferElementSize g)
                   - elementCount g) _ _ _ _ Hb He)
        as (b' & t & P1 & P2 & P3 & P4).
      destruct (L9 _ P4) as (D0 & D1 & D2 & D3). cbn [fst snd] in *.
      exists b', t. rewrite L3, L2.
      repeat split; auto; try lia.
      pose proof (moves_sources _ _ Hwf P4) as Hs. cbn [fst] in Hs.
      pose proof Hwf as [Ha _ _ _ _ _].
      destruct (allocated_arrays _ Ha ltac:(lia))
        as (me & m & d & c & _ & Em & _ & _ & Lm & _).
      unfold matrixAt. rewrite Em.
      destruct (readSlot_Some m s ltac:(lia)) as [v Hv]. congruence.
Qed.

(** Why the order matters.  In [sparseState] the two panels left live at
    slots 4 and 5 of nine and the buffer shrinks to three slots: [update]
    brings their transforms to slots 0 and 1, while a resize before the
    rearrangement would cut them off. *)
Example shrink_after_rearrange :
  reachable sparseState
  /\ matrixAt sparseState 4 = Some (repeat 50 16)
  /\ matrixAt sparseState 5 = Some (repeat 60 16)
  /\ (exists g', update sparseState = OK g'
        /\ bufferElementSize g' = 3
        /\ matrixAt g' 0 = Some (repeat 50 16)
        /\ matrixAt g' 1 = Some (repeat 60 16))
  /\ (exists g', shrinkThenRearrange sparseState = OK g'
        /\ matrixAt g' 0 <> Some (repeat 50 16)
        /\ matrixAt g' 1 <> Some (repeat 60 16)).
Proof.
  split; [apply (stateAfter_reachable sparseOps); vm_compute; reflexivity|].
  split; [vm_compute; reflexivity|]. split; [vm_compute; reflexivity|].
  split.
  - eexists. split; [vm_compute; reflexivity|]. repeat split.
  - eexists. split; [vm_compute; reflexivity|]. split; vm_compute; discriminate.
Qed.

(** In [fullState] with a fourth panel waiting for a slot the buffer of three
    slots must grow: [update] resizes first and completes, while a
    rearrangement before the resize would activate the panel outside the
    arrays. *)
Example grow_before_rearrange :
  exists g,
    insert 0 panel4 fullState = OK g
    /\ bufferElementSize g < elementCount g
    /\ (exists g', update g = OK g')
    /\ rearrangeThenGrow g = Error RangeError.
Proof.
  eexists. split; [vm_compute; reflexivity|].
  split; [vm_compute; reflexivity|]. split.
  - eexists. vm_compute. reflexivity.
  - vm_compute. reflexivity.
Qed.

Lemma C3_update_ordering_witness :
  reachable pendingState
  /\ exists g',
       update pendingState = OK g'
       /\ (bufferElementSize pendingState < elementCount pendingState ->
             trace g'
             = trace pendingState
                 ++ [EvUpdate;
                     EvResize (bufferElementSize pendingState)
                       (ceil15 (elementCount pendingState));
                     EvRearrange])
       /\ (3 * elementCount pendingState <= bufferElementSize pendingState ->
             (1 <= elementCount pendingState
              /\ trace g'
                 = trace pendingState
                     ++ [EvUpdate; EvRearrange;
                         EvResize (bufferElementSize pendingState)
                           (ceil15 (elementCount pendingState))])
             \/ (elementCount pendingState = 0
                 /\ trace g' = trace pendingState ++ [EvUpdate]))
       /\ (forall b e s,
             In b (buckets pendingState) -> In (e, Some s) (elements b) ->
             exists b' t,
               In b' (buckets g') /\ index b' = index b
               /\ In (e, Some t) (elements b')
               /\ 0 <= t < bufferElementSize g'
               /\ matrixAt pendingState s <> None
               /\ matrixAt g' t = matrixAt pendingState s
               /\ dataAt g' t = dataAt pendingState s
               /\ clippingAt g' t = clippingAt pendingState s).
Proof.
  assert (Hr : reachable pendingState).
  { apply (stateAfter_reachable pendingOps). vm_compute. reflexivity. }
  split; [exact Hr|]. apply (C3_update_ordering pendingState). exact Hr.
Defined.

(** *** Requests and frames *)

Lemma countUpdates_app l1 l2 :
  countUpdates (l1 ++ l2) = (countUpdates l1 + countUpdates l2)%nat.
Proof. unfold countUpdates. now rewrite filter_app, length_app. Qed.

Lemma countRearranges_app l1 l2 :
  countRearranges (l1 ++ l2) = (countRearranges l1 + countRearranges l2)%nat.
Proof. unfold countRearranges. now rewrite filter_app, length_app. Qed.

Lemma layoutEvents_counts n cap :
  countUpdates (EvUpdate :: layoutEvents n cap) = 1%nat
  /\ countRearranges (EvUpdate :: layoutEvents n cap) = 1%nat.
Proof.
  unfold layoutEvents. destruct (cap <? n); [split; reflexivity|].
  destruct (3 * n <=? cap); split; reflexivity.
Qed.

(** A frame on a group whose update is due runs [update] exactly once and
    clears the request; the next frame does nothing. *)
Lemma frame_runs_update g :
  wf g -> nextUpdateTime g = Some NextFrame ->
  exists g',
    onFrame g = OK g'
    /\ countUpdates (trace g') = S (countUpdates (trace g))
    /\ (1 <= elementCount g ->
          countRearranges (trace g') = S (countRearranges (trace g)))
    /\ (elementCount g = 0 -> countRearranges (trace g') = countRearranges (trace g))
    /\ nextUpdateTime g' = None /\ timers g' = []
    /\ onFrame g' = OK g'.
Proof.
  intros Hwf E. pose proof (wf_count_nonneg _ Hwf) as Hn.
  unfold onFrame at 1. rewrite E.
  set (g0 := setNextUpdateTime None g).
  assert (Hwf0 : wf g0).
  { destruct Hwf as [Ha Hs Hr Hc Hsp Hsc]. constructor; auto.
    unfold scheduled in *. fields. now rewrite E in Hsc. }
  assert (Ht0 : timers g0 = []).
  { destruct Hwf0 as [_ _ _ _ _ Hsc]. unfold scheduled in Hsc. unfold g0 in *. fields.
    tauto. }
  destruct (Z.eq_dec (elementCount g) 0) as [Hz|Hnz].
  - rewrite (update_empty g0 Hz).
    match goal with |- exists g', OK ?G = OK g' /\ _ => set (g1 := G) end.
    assert (Htr : trace g1 = trace g ++ [EvUpdate])
      by (unfold g1; destruct (mesh g0); reflexivity).
    assert (Hnu : nextUpdateTime g1 = None)
      by (unfold g1; destruct (mesh g0); reflexivity).
    assert (Hti : timers g1 = [])
      by (unfold g1; destruct (mesh g0); exact Ht0).
    exists g1. split; [reflexivity|].
    rewrite Htr, countUpdates_app, countRearranges_app.
    split; [cbn; lia|]. split; [lia|]. split; [intros; cbn; lia|].
    split; [exact Hnu|]. split; [exact Hti|].
    unfold onFrame. now rewrite Hnu.
  - destruct (update_spec g0 Hwf0 ltac:(unfold g0; fields; lia))
      as (g' & Hrun & Hl & _).
    exists g'. split; [exact Hrun|].
    destruct Hl as (_ & _ & _ & _ & L4 & L5 & _ & L7 & _).
    destruct (layoutEvents_counts (elementCount g0) (bufferElementSize g0)) as [C1 C2].
    rewrite L4, countUpdates_app, countRearranges_app, C1, C2.
    unfold g0 in *. fields.
    split; [lia|]. split; [intros; lia|]. split; [lia|].
    split; [exact L5|]. split; [congruence|].
    unfold onFrame. now rewrite L5.
Qed.

(** C4, as stated, fails when the insert finds a free slot: in [pendingState]
    a deletion has set a timer for a rearrangement in one second; inserting
    into the clean last bucket takes the free slot, and the timer and the
    delayed request stay as they are: the next frame does not update. *)
Lemma C4_counterexample :
  reachable pendingState
  /\ nextUpdateTime pendingState = Some (AtTime 1000)
  /\ timers pendingState = [(0%nat, 1000)]
  /\ exists g',
       insert 5 panel4 pendingState = OK g'
       /\ timers g' = [(0%nat, 1000)]
       /\ nextUpdateTime g' = Some (AtTime 1000)
       /\ onFrame g' = OK g'.
Proof.
  split; [exact reachable_pending|].
  split; [vm_compute; reflexivity|].
  split; [vm_compute; reflexivity|].
  eexists. split; [vm_compute; reflexivity|].
  repeat split; vm_compute; reflexivity.
Qed.

(** C4 (amended): in every reachable state in which a rearrangement is
    requested for a later time, exactly the timer of that request is pending
    and an insert completes.  If the insert needs a rearrangement, it cancels
    the timer and turns the request into one for the next frame, and the next
    frame runs the update with its rearrangement.  If the insert finds a free
    slot, the timer and the delayed request stay as they are. *)
Theorem C4_insert_cancels_pending g bucketIndex panel t :
  reachable g -> nextUpdateTime g = Some (AtTime t) ->
  exists id g',
    timers g = [(id, t)]
    /\ insert bucketIndex panel g = OK g'
    /\ (insertNeedsRearrange g bucketIndex panel = true ->
          timers g' = [] /\ nextUpdateTime g' = Some NextFrame
          /\ exists g'',
               onFrame g' = OK g''
               /\ countUpdates (trace g'') = S (countUpdates (trace g'))
               /\ countRearranges (trace g'') = S (countRearranges (trace g'))
               /\ nextUpdateTime g'' = None)
    /\ (insertNeedsRearrange g bucketIndex panel = false ->
          timers g' = timers g /\ nextUpdateTime g' = nextUpdateTime g
          /\ onFrame g' = OK g').
Proof.
  intros Hr E. pose proof (reachable_wf _ Hr) as Hwf.
  pose proof Hwf as [_ _ _ _ _ Hsc]. unfold scheduled in Hsc. rewrite E in Hsc.
  destruct Hsc as (id & Eref & Et).
  unfold insertNeedsRearrange.
  destruct (addToSortedBuckets (buckets g) bucketIndex panel) as [[bs calls] needs] eqn:Ea.
  destruct (insert_spec _ _ _ _ _ _ Hwf Ea)
    as (g' & Hrun & W & I1 & I2 & I3 & I4 & I5 & I6 & I7).
  exists id, g'. split; [exact Et|]. split; [exact Hrun|]. cbn [snd]. split.
  - intros ->. destruct (I6 eq_refl) as (S1 & S2 & S3).
    split; [exact S2|]. split; [exact S1|].
    destruct (frame_runs_update g' W S1) as (g'' & F1 & F2 & F3 & _ & F5 & _).
    exists g''. repeat split; auto. apply F3.
    pose proof (wf_count_nonneg _ Hwf). lia.
  - intros ->. destruct (I7 eq_refl) as (S1 & S2 & S3).
    split; [exact S2|]. split; [exact S1|].
    unfold onFrame. now rewrite S1, E.
Qed.

Lemma C4_insert_cancels_pending_witness :
  reachable pendingState
  /\ nextUpdateTime pendingState = Some (AtTime 1000)
  /\ exists id g',
       timers pendingState = [(id, 1000)]
       /\ insert 2 panel4 pendingState = OK g'
       /\ (insertNeedsRearrange pendingState 2 panel4 = true ->
             timers g' = [] /\ nextUpdateTime g' = Some NextFrame
             /\ exists g'',
                  onFrame g' = OK g''
                  /\ countUpdates (trace g'') = S (countUpdates (trace g'))
                  /\ countRearranges (trace g'') = S (countRearranges (trace g'))
                  /\ nextUpdateTime g'' = None)
       /\ (insertNeedsRearrange pendingState 2 panel4 = false ->
             timers g' = timers pendingState
             /\ nextUpdateTime g' = nextUpdateTime pendingState
             /\ onFrame g' = OK g').
Proof.
  assert (Hr : reachable pendingState).
  { apply (stateAfter_reachable pendingOps). vm_compute. reflexivity. }
  assert (Ht : nextUpdateTime pendingState = Some (AtTime 1000))
    by (vm_compute; reflexivity).
  split; [exact Hr|]. split; [exact Ht|].
  apply (C4_insert_cancels_pending pendingState 2 panel4 1000 Hr Ht).
Defined.

(** A burst of deletions that need a rearrangement leaves one timer, due a
    second after the first deletion, and runs no update. *)
Lemma deletions_pending elapsed n g g1 :
  deletions elapsed n g g1 ->
  reachable g -> nextUpdateTime g = None ->
  reachable g1 /\ (1 <= n)%nat /\ 0 <= elapsed
  /\ now g1 = now g + elapsed /\ trace g1 = trace g
  /\ nextUpdateTime g1 = Some (AtTime (now g + 1000))
  /\ exists id, timers g1 = [(id, now g + 1000)].
Proof.
  induction 1 as [g g' b k p bs calls Hrem Hdel
                 |elapsed n g g1 g2 dt b k p bs calls Hd IH Hdt Hrem Hdel];
    intros Hr E.
  - pose proof (reachable_wf _ Hr) as Hwf.
    destruct (delete_spec _ _ _ _ _ _ _ Hwf Hrem)
      as (g2 & Hrun & _ & _ & _ & _ & D5 & D6 & D7 & _).
    assert (g2 = g') by congruence. subst g2.
    destruct (D7 eq_refl) as (S1 & S2 & S3).
    pose proof Hwf as [_ _ _ _ _ Hsc].
    unfold requestUpdate in S1, S2, S3. rewrite E in S1, S2, S3.
    destruct (schedule_sched 1000 g Hsc) as (T1 & T2 & T3).
    split; [eapply reach_step; [exact Hr|eapply step_delete; exact Hdel]|].
    repeat split; try lia; try congruence.
    exists (nextTimerId g). congruence.
  - destruct (IH Hr E) as (Hr1 & Hn & He & Hnow & Htr & Hnu & id & Hti).
    set (g1' := setNow (now g1 + dt) g1) in *.
    assert (Hr1' : reachable g1').
    { eapply reach_step; [exact Hr1|]. apply step_clock. lia. }
    pose proof (reachable_wf _ Hr1') as Hwf.
    destruct (delete_spec g1' _ _ _ _ _ _ Hwf Hrem)
      as (g3 & Hrun & _ & _ & _ & _ & D5 & D6 & D7 & _).
    assert (g3 = g2) by congruence. subst g3.
    destruct (D7 eq_refl) as (S1 & S2 & S3).
    pose proof Hwf as [_ _ _ _ _ Hsc].
    split; [eapply reach_step; [exact Hr1'|eapply step_delete; exact Hdel]|].
    split; [lia|]. split; [lia|].
    split; [rewrite D6; unfold g1'; fields; lia|].
    split; [rewrite D5; unfold g1'; fields; exact Htr|].
    unfold requestUpdate in S1, S2, S3.
    assert (Hnu' : nextUpdateTime g1' = Some (AtTime (now g + 1000))) by exact Hnu.
    assert (Hti' : timers g1' = [(id, now g + 1000)]) by exact Hti.
    assert (Hnow' : now g1' = now g + elapsed + dt) by (unfold g1'; fields; lia).
    rewrite Hnu' in S1, S2, S3.
    destruct (Z.ltb_spec (now g + 1000) (now g1' + 1000)) as [Hlt|Hge].
    + split; [congruence|]. exists id. congruence.
    + destruct (schedule_sched 1000 g1' Hsc) as (T1 & T2 & T3).
      assert (Heq : now g1' + 1000 = now g + 1000) by lia.
      rewrite Heq in T1, T2.
      split; [congruence|]. exists (nextTimerId g1'). congruence.
Qed.

(** At most one timer is pending in a reachable state, and none while the
    update is due at the next frame. *)
Lemma reachable_one_timer g :
  reachable g ->
  (length (timers g) <= 1)%nat
  /\ (nextUpdateTime g = Some NextFrame -> timers g = []).
Proof.
  intros Hr. apply reachable_wf in Hr. destruct Hr as [_ _ _ _ _ Hsc].
  unfold scheduled in Hsc.
  destruct (nextUpdateTime g) as [[|t]|].
  - destruct Hsc as [-> _]. cbn. split; [lia|reflexivity].
  - destruct Hsc as (id & _ & ->). cbn. split; [lia|discriminate].
  - destruct Hsc as [-> _]. cbn. split; [lia|reflexivity].
Qed.

(** C5: from a reachable state without a pending request, [n >= 1]
    deletions that each need a rearrangement, all within the debounce second
    and with no frame or timer in between, run no update and leave exactly
    one timer, due one second after the first deletion.  Once that timer has
    fired, the next frame runs [update] once, with at most one rearrangement
    (one if elements are left), and clears the request: further frames do
    nothing.  In every reachable state at most one timer is pending, and
    none while the update is due at the next frame. *)
Theorem C5_debounce_coalescing g g1 elapsed n :
  reachable g -> nextUpdateTime g = None ->
  deletions elapsed n g g1 -> elapsed < 1000 ->
  (1 <= n)%nat
  /\ trace g1 = trace g
  /\ nextUpdateTime g1 = Some (AtTime (now g + 1000))
  /\ (exists id,
        timers g1 = [(id, now g + 1000)]
        /\ forall t, now g + 1000 <= t ->
             exists g2 g3,
               fireTimer id (setNow t g1) = Some g2
               /\ onFrame g2 = OK g3
               /\ countUpdates (trace g3) = S (countUpdates (trace g))
               /\ (1 <= elementCount g1 ->
                     countRearranges (trace g3) = S (countRearranges (trace g)))
               /\ (elementCount g1 = 0 ->
                     countRearranges (trace g3) = countRearranges (trace g))
               /\ nextUpdateTime g3 = None /\ timers g3 = []
               /\ onFrame g3 = OK g3)
  /\ (forall g0, reachable g0 ->
        (length (timers g0) <= 1)%nat
        /\ (nextUpdateTime g0 = Some NextFrame -> timers g0 = [])).
Proof.
  intros Hr E Hd Hw.
  destruct (deletions_pending _ _ _ _ Hd Hr E)
    as (Hr1 & Hn & He & Hnow & Htr & Hnu & id & Hti).
  split; [exact Hn|]. split; [exact Htr|]. split; [exact Hnu|].
  split; [|exact reachable_one_timer].
  exists id. split; [exact Hti|]. intros t Ht.
  set (g1' := setNow t g1).
  assert (Hr1' : reachable g1').
  { eapply reach_step; [exact Hr1|]. apply step_clock. lia. }
  assert (Hfire : exists g2, fireTimer id g1' = Some g2
                   /\ nextUpdateTime g2 = Some NextFrame /\ trace g2 = trace g1
                   /\ elementCount g2 = elementCount g1).
  { unfold fireTimer, timerDue. unfold g1' at 1. fields. rewrite Hti.
    cbn [find fst]. rewrite Nat.eqb_refl. cbn [option_map snd].
    unfold g1' at 1. fields.
    destruct (Z.leb_spec (now g + 1000) t); [|lia].
    eexists. split; [reflexivity|]. repeat split. }
  destruct Hfire as (g2 & Hf & F1 & F2 & F3).
  assert (Hr2 : reachable g2).
  { eapply reach_step; [exact Hr1'|]. eapply step_timer. exact Hf. }
  destruct (frame_runs_update g2 (reachable_wf _ Hr2) F1)
    as (g3 & R1 & R2 & R3 & R4 & R5 & R6 & R7).
  exists g2, g3. rewrite F2, Htr in *. rewrite F3 in *.
  repeat split; auto.
Qed.

Lemma C5_debounce_coalescing_witness :
  reachable settledState
  /\ nextUpdateTime settledState = None
  /\ deletions 10 2 settledState burstState
  /\ 10 < 1000
  /\ (1 <= 2)%nat
  /\ trace burstState = trace settledState
  /\ nextUpdateTime burstState = Some (AtTime (now settledState + 1000))
  /\ (exists id,
        timers burstState = [(id, now settledState + 1000)]
        /\ forall t, now settledState + 1000 <= t ->
             exists g2 g3,
               fireTimer id (setNow t burstState) = Some g2
               /\ onFrame g2 = OK g3
               /\ countUpdates (trace g3) = S (countUpdates (trace settledState))
               /\ (1 <= elementCount burstState ->
                     countRearranges (trace g3)
                     = S (countRearranges (trace settledState)))
               /\ (elementCount burstState = 0 ->
                     countRearranges (trace g3)
                     = countRearranges (trace settledState))
               /\ nextUpdateTime g3 = None /\ timers g3 = []
               /\ onFrame g3 = OK g3)
  /\ (forall g0, reachable g0 ->
        (length (timers g0) <= 1)%nat
        /\ (nextUpdateTime g0 = Some NextFrame -> timers g0 = [])).
Proof.
  assert (Hr : reachable settledState).
  { apply (stateAfter_reachable settledOps). vm_compute. reflexivity. }
  assert (Hn : nextUpdateTime settledState = None) by (vm_compute; reflexivity).
  assert (Hd : deletions 10 2 settledState burstState).
  { eapply (deletions_next 0 1 settledState pendingState burstState 10
              0 (Some 0) panel2).
    - eapply (deletions_first settledState pendingState 0 (Some 0) panel1).
      + vm_compute. reflexivity.
      + vm_compute. reflexivity.
    - lia.
    - vm_compute. reflexivity.
    - vm_compute. reflexivity. }
  assert (Hw : 10 < 1000) by lia.
  split; [exact Hr|]. split; [exact Hn|]. split; [exact Hd|]. split; [exact Hw|].
  apply (C5_debounce_coalescing settledState burstState 10 2 Hr Hn Hd Hw).
Defined.

(** *** Fast paths of the allocator *)






(** *** Slots beyond the elements *)






(** *** Contiguity *)










(** *** Reserved space and the fast paths *)















End Claims.

(** ** Deferred layout requests *)

Module LayoutFacts.
Import Layout.

Lemma requestAll_pending nodes : forall n, requestAll nodes (Some n) = Some n.
Proof.
  induction nodes as [|x r IH]; intros n; [reflexivity|].
  unfold requestAll in *. cbn [fold_left requestCalculateLayout]. apply IH.
Qed.

Lemma requestAll_idle nodes : requestAll nodes None = find hasYogaNode nodes.
Proof.
  induction nodes as [|x r IH]; [reflexivity|].
  unfold requestAll in *. cbn [fold_left requestCalculateLayout find].
  destruct (hasYogaNode x); [apply (requestAll_pending r)|exact IH].
Qed.

(** X13 (createDeferredRequestLayoutCalculation).  However many layout
    calculations are requested between two frames, the frame runs
    [calculateLayout] once at most: on the node that was already pending, else
    on the first requested node that has a yoga node; every other request is
    dropped, and afterwards nothing is pending. *)
Theorem deferred_layout_first_request_wins nodes pending :
  onFrame (requestAll nodes pending)
  = (None,
     match pending with
     | Some n => [n]
     | None => match find hasYogaNode nodes with
               | Some n => [n]
               | None => []
               end
     end).
Proof.
  destruct pending as [n|].
  - rewrite requestAll_pending. reflexivity.
  - rewrite requestAll_idle. destruct (find hasYogaNode nodes); reflexivity.
Qed.

End LayoutFacts.

(** ** Names of the HTML conversion *)

Module ConvertFacts.
Import Convert.

Lemma kebab_cons_other x r :
  (x =? hyphen) = false -> kebabToCamelCase (x :: r) = x :: kebabToCamelCase r.
Proof.
  intros Hx. destruct r as [|c r']; [reflexivity|].
  cbn [kebabToCamelCase]. rewrite Hx. reflexivity.
Qed.

Lemma kebab_match c r :
  inClass c = true ->
  kebabToCamelCase (hyphen :: c :: r) = toUpperCase c :: kebabToCamelCase r.
Proof.
  intros Hc. cbn [kebabToCamelCase]. rewrite Hc, Z.eqb_refl. reflexivity.
Qed.

Lemma kebab_prefix w : forall rest,
  noHyphen w = true ->
  kebabToCamelCase (w ++ rest) = w ++ kebabToCamelCase rest.
Proof.
  induction w as [|x w IH]; intros rest Hw; [reflexivity|].
  cbn [noHyphen forallb] in Hw. apply andb_prop in Hw. destruct Hw as [Hx Hw].
  apply negb_true_iff in Hx.
  rewrite <- app_comm_cons, kebab_cons_other by exact Hx.
  rewrite (IH rest Hw). reflexivity.
Qed.

Lemma kebab_noHyphen w : noHyphen w = true -> kebabToCamelCase w = w.
Proof.
  intros Hw. rewrite <- (app_nil_r w) at 1. rewrite kebab_prefix by exact Hw.
  cbn [kebabToCamelCase]. apply app_nil_r.
Qed.

Lemma joinHyphen_cons w w1 ws :
  joinHyphen (w :: w1 :: ws) = w ++ hyphen :: joinHyphen (w1 :: ws).
Proof. reflexivity. Qed.

Lemma joinHyphen_head c w ws :
  joinHyphen ((c :: w) :: ws) = c :: joinHyphen (w :: ws).
Proof. destruct ws; reflexivity. Qed.

(** X14 (kebabToCamelCase).  A name made of words joined by single hyphens,
    every word after the first starting with a unit from [A] to [z] and no
    word holding a hyphen, becomes the first word followed by the other
    words, each with its first unit in upper case: no hyphen is left. *)
Theorem kebabToCamelCase_words ws : forall w,
  noHyphen w = true -> forallb isWord ws = true ->
  kebabToCamelCase (joinHyphen (w :: ws)) = w ++ concat (map capitalize ws).
Proof.
  induction ws as [|w1 ws IH]; intros w Hw Hws.
  - cbn [joinHyphen map concat]. rewrite app_nil_r. apply kebab_noHyphen, Hw.
  - cbn [forallb] in Hws. apply andb_prop in Hws. destruct Hws as [H1 Hws].
    destruct w1 as [|c w1]; [discriminate|].
    cbn [isWord] in H1. apply andb_prop in H1. destruct H1 as [Hc H1].
    cbn [noHyphen forallb] in H1. apply andb_prop in H1. destruct H1 as [_ H1].
    fold (noHyphen w1) in H1.
    rewrite joinHyphen_cons, joinHyphen_head.
    rewrite kebab_prefix by exact Hw.
    rewrite kebab_match by exact Hc.
    pose proof (IH w1 H1 Hws) as E. unfold jsString in *. rewrite E.
    cbn [map concat capitalize]. reflexivity.
Qed.

Lemma kebabToCamelCase_words_witness :
  kebabToCamelCase (joinHyphen [[98; 111]; [116; 111; 112]; [119]])
  = [98; 111] ++ concat (map capitalize [[116; 111; 112]; [119]]).
Proof.
  apply (kebabToCamelCase_words [[116; 111; 112]; [119]] [98; 111]);
    vm_compute; reflexivity.
Defined.

Lemma kebab_step x c r :
  kebabToCamelCase (x :: c :: r)
  = if (x =? hyphen) && inClass c
    then toUpperCase c :: kebabToCamelCase r
    else x :: kebabToCamelCase (c :: r).
Proof. reflexivity. Qed.

Lemma matches_step x c r :
  matches (x :: c :: r)
  = if (x =? hyphen) && inClass c then S (matches r) else matches (c :: r).
Proof. reflexivity. Qed.

Lemma kebab_length name :
  (length (kebabToCamelCase name) + matches name = length name)%nat.
Proof.
  remember (length name) as n eqn:Hn.
  revert name Hn. induction n as [n IH] using lt_wf_ind. intros name Hn.
  destruct name as [|x [|c r]]; [subst; reflexivity|subst; reflexivity|].
  rewrite kebab_step, matches_step.
  destruct ((x =? hyphen) && inClass c).
  - assert (Hlt : (length r < n)%nat) by (subst; cbn [length]; lia).
    pose proof (IH (length r) Hlt r eq_refl) as E.
    subst. cbn [length] in *. lia.
  - assert (Hlt : (length (c :: r) < n)%nat) by (subst; cbn [length]; lia).
    pose proof (IH (length (c :: r)) Hlt (c :: r) eq_refl) as E.
    subst. change (length (x :: kebabToCamelCase (c :: r)))
      with (S (length (kebabToCamelCase (c :: r)))).
    change (length (x :: c :: r)) with (S (length (c :: r))). lia.
Qed.

Lemma kebab_unmatched name : matches name = O -> kebabToCamelCase name = name.
Proof.
  remember (length name) as n eqn:Hn.
  revert name Hn. induction n as [n IH] using lt_wf_ind. intros name Hn Hm.
  destruct name as [|x [|c r]]; [reflexivity|reflexivity|].
  rewrite kebab_step. rewrite matches_step in Hm.
  destruct ((x =? hyphen) && inClass c); [discriminate|].
  f_equal. apply (IH (length (c :: r))); [subst; cbn [length]; lia|reflexivity|exact Hm].
Qed.

(** X15 (kebabToCamelCase).  The result is shorter than the name by one unit
    for every match of the regular expression, and a name is returned
    unchanged exactly when it has no match.  The class of the expression runs
    from [A] to [z] and so holds the six units between [Z] and [a]: a hyphen
    in front of an underscore is dropped as well. *)
Theorem kebabToCamelCase_length name :
  (length (kebabToCamelCase name) + matches name = length name)%nat
  /\ (kebabToCamelCase name = name <-> matches name = O)
  /\ kebabToCamelCase (hyphen :: 95 :: name) = 95 :: kebabToCamelCase name.
Proof.
  split; [apply kebab_length|]. split.
  - split; [|apply kebab_unmatched].
    intros Heq. pose proof (kebab_length name) as Hl. rewrite Heq in Hl. lia.
  - apply (kebab_match 95 name). reflexivity.
Qed.

(** *** Tailwind classes *)

Lemma stringEqb_eq a : forall b, stringEqb a b = true <-> a = b.
Proof.
  induction a as [|x a IH]; intros [|y b]; cbn [stringEqb];
    try (split; [discriminate|discriminate]); [tauto|].
  rewrite andb_true_iff, Z.eqb_eq, IH. split.
  - intros [-> ->]. reflexivity.
  - intros E. injection E as -> ->. auto.
Qed.

Lemma getProperty_set {V : Type} (o : object V) k k' v :
  getProperty (Registry.mapSet stringEqb k v o) k'
  = if stringEqb k' k then Some v else getProperty o k'.
Proof.
  unfold getProperty.
  induction o as [|[k0 v0] r IH]; cbn [Registry.mapSet Registry.mapGet].
  - reflexivity.
  - destruct (stringEqb k k0) eqn:E; cbn [Registry.mapGet].
    + apply stringEqb_eq in E. subst k0.
      destruct (stringEqb k' k); reflexivity.
    + rewrite IH. destruct (stringEqb k' k) eqn:E1; [|reflexivity].
      destruct (stringEqb k' k0) eqn:E2; [|reflexivity].
      apply stringEqb_eq in E1, E2. subst k k0.
      assert (stringEqb k' k' = true) by (apply stringEqb_eq; reflexivity).
      congruence.
Qed.

Lemma getProperty_app {V : Type} (a b : object V) key :
  getProperty (a ++ b) key
  = match getProperty a key with Some v => Some v | None => getProperty b key end.
Proof.
  unfold getProperty. induction a as [|[k0 v0] r IH]; cbn [app Registry.mapGet].
  - reflexivity.
  - destruct (stringEqb key k0); [reflexivity|exact IH].
Qed.

Lemma getProperty_assign {V : Type} (source : object V) : forall target key,
  getProperty (objectAssign target source) key
  = match getProperty (rev source) key with
    | Some v => Some v
    | None => getProperty target key
    end.
Proof.
  unfold objectAssign.
  induction source as [|[k0 v0] r IH]; intros target key; cbn [fold_left rev fst snd].
  - reflexivity.
  - rewrite IH, getProperty_app, getProperty_set.
    destruct (getProperty (rev r) key); [reflexivity|].
    unfold getProperty. cbn [Registry.mapGet].
    destruct (stringEqb key k0); reflexivity.
Qed.

Lemma nonWhitespaceRuns_app a sep b : forall current,
  isWhiteSpace sep = true ->
  nonWhitespaceRuns (a ++ sep :: b) current
  = nonWhitespaceRuns a current ++ nonWhitespaceRuns b [].
Proof.
  induction a as [|c a IH]; intros current Hs; cbn [app nonWhitespaceRuns].
  - rewrite Hs. destruct (SortedBuckets.isNil current); reflexivity.
  - destruct (isWhiteSpace c).
    + destruct (SortedBuckets.isNil current); rewrite IH by exact Hs; reflexivity.
    + apply IH. exact Hs.
Qed.

Lemma mergeClasses_target {V : Type} (classes : list (jsString * object V)) key
    (names : list jsString) : forall target,
  getProperty
    (fold_left
       (fun result className =>
          match Registry.mapGet stringEqb className classes with
          | Some classesEntry => objectAssign result classesEntry
          | None => result
          end) names target) key
  = match getProperty
            (fold_left
               (fun result className =>
                  match Registry.mapGet stringEqb className classes with
                  | Some classesEntry => objectAssign result classesEntry
                  | None => result
                  end) names []) key
    with
    | Some v => Some v
    | None => getProperty target key
    end.
Proof.
  set (step := fun (result : object V) (className : jsString) =>
                 match Registry.mapGet stringEqb className classes with
                 | Some classesEntry => objectAssign result classesEntry
                 | None => result
                 end).
  induction names as [|n r IH]; intros target; cbn [fold_left].
  - reflexivity.
  - rewrite (IH (step target n)), (IH (step [] n)).
    destruct (getProperty (fold_left step r []) key); [reflexivity|].
    unfold step.
    destruct (Registry.mapGet stringEqb n classes) as [entry|]; [|reflexivity].
    rewrite !getProperty_assign.
    destruct (getProperty (rev entry) key); reflexivity.
Qed.

(** X21 (tailwindToJson).  Class names are split at white space, and classes
    further to the right override classes further to the left: the value of a
    property for two lists of class names put one after the other is the one
    the right list gives it, and the one the left list gives it only if the
    right list does not set the property. *)
Theorem tailwindToJson_right_overrides_left {V : Type} (left right : jsString)
    (sep : Z) (classes : list (jsString * object V)) (key : jsString) :
  isWhiteSpace sep = true ->
  getProperty (tailwindToJson (left ++ sep :: right) classes) key
  = match getProperty (tailwindToJson right classes) key with
    | Some v => Some v
    | None => getProperty (tailwindToJson left classes) key
    end.
Proof.
  intros Hs. unfold tailwindToJson.
  rewrite (nonWhitespaceRuns_app left sep right [] Hs), fold_left_app.
  apply mergeClasses_target.
Qed.

Lemma tailwindToJson_right_overrides_left_witness :
  getProperty
    (tailwindToJson ([112; 49] ++ 32 :: [112; 50])
       [([112; 49], [([97], 1); ([98], 2)]); ([112; 50], [([98], 3)])]) [98]
  = match getProperty
            (tailwindToJson [112; 50]
               [([112; 49], [([97], 1); ([98], 2)]); ([112; 50], [([98], 3)])]) [98]
    with
    | Some v => Some v
    | None =>
        getProperty
          (tailwindToJson [112; 49]
             [([112; 49], [([97], 1); ([98], 2)]); ([112; 50], [([98], 3)])]) [98]
    end.
Proof.
  apply (tailwindToJson_right_overrides_left [112; 49] [112; 50] 32
           [([112; 49], [([97], 1); ([98], 2)]); ([112; 50], [([98], 3)])] [98]).
  vm_compute. reflexivity.
Defined.

(** *** Default and inheriting properties *)

Lemma stringEqb_refl a : stringEqb a a = true.
Proof. apply stringEqb_eq. reflexivity. Qed.

Lemma getProperty_delete {V : Type} (o : object V) k k' :
  getProperty (objectDelete o k) k'
  = if stringEqb k' k then None else getProperty o k'.
Proof.
  unfold getProperty, objectDelete.
  induction o as [|[k0 v0] r IH]; cbn [filter Registry.mapGet fst].
  - destruct (stringEqb k' k); reflexivity.
  - destruct (stringEqb k0 k) eqn:E0; cbn [negb Registry.mapGet].
    + apply stringEqb_eq in E0. subst k0. rewrite IH.
      destruct (stringEqb k' k); reflexivity.
    + rewrite IH. destruct (stringEqb k' k) eqn:E1; [|reflexivity].
      destruct (stringEqb k' k0) eqn:E2; [|reflexivity].
      apply stringEqb_eq in E1, E2. subst k k0. rewrite stringEqb_refl in E0.
      discriminate.
Qed.

Lemma getProperty_keys {V : Type} (o : object V) k :
  existsb (stringEqb k) (map fst o)
  = match getProperty o k with Some _ => true | None => false end.
Proof.
  unfold getProperty.
  induction o as [|[k0 v0] r IH]; cbn [map existsb Registry.mapGet fst].
  - reflexivity.
  - destruct (stringEqb k k0); [reflexivity|exact IH].
Qed.

Lemma getProperty_rev {V : Type} (o : object V) k :
  uniqueKeys o = true -> getProperty (rev o) k = getProperty o k.
Proof.
  induction o as [|[k0 v0] r IH]; intros Hu; [reflexivity|].
  cbn [uniqueKeys fst] in Hu. apply andb_prop in Hu. destruct Hu as [Hk Hu].
  apply negb_true_iff in Hk. rewrite getProperty_keys in Hk.
  cbn [rev]. rewrite getProperty_app, (IH Hu).
  change (getProperty [(k0, v0)] k) with (if stringEqb k k0 then Some v0 else None).
  change (getProperty ((k0, v0) :: r) k)
    with (if stringEqb k k0 then Some v0 else getProperty r k).
  destruct (stringEqb k k0) eqn:E.
  - apply stringEqb_eq in E. subst k0.
    destruct (getProperty r k); [discriminate|reflexivity].
  - destruct (getProperty r k); reflexivity.
Qed.

Lemma sortLoop_spec {V : Type} (isInheritingProperty : jsString -> bool)
    (keys : list jsString) : forall (result inheriting : object V) k,
  let sorted :=
    fold_left
      (fun (st : object V * object V) key =>
         if isInheritingProperty key then
           match getProperty (fst st) key with
           | Some v =>
               (objectDelete (fst st) key,
                Registry.mapSet stringEqb key v (snd st))
           | None => st
           end
         else st)
      keys (result, inheriting) in
  getProperty (fst sorted) k
  = (if isInheritingProperty k && existsb (stringEqb k) keys
     then None else getProperty result k)
  /\ getProperty (snd sorted) k
     = (if isInheritingProperty k && existsb (stringEqb k) keys
        then match getProperty result k with
             | Some v => Some v
             | None => getProperty inheriting k
             end
        else getProperty inheriting k).
Proof.
  induction keys as [|k0 r IH]; intros result inheriting k; cbn [fold_left existsb].
  - rewrite andb_false_r. auto.
  - destruct (isInheritingProperty k0) eqn:E0.
    + cbn [fst snd]. destruct (getProperty result k0) as [v|] eqn:Ev.
      * destruct (IH (objectDelete result k0)
                    (Registry.mapSet stringEqb k0 v inheriting) k) as [A B].
        cbv zeta in A, B. split.
        -- etransitivity; [exact A|]. rewrite getProperty_delete.
           destruct (stringEqb k k0) eqn:E; cbn [orb]; [|reflexivity].
           apply stringEqb_eq in E. subst k0. rewrite E0. cbn [andb].
           destruct (existsb (stringEqb k) r); reflexivity.
        -- etransitivity; [exact B|].
           rewrite getProperty_delete, getProperty_set.
           destruct (stringEqb k k0) eqn:E; cbn [orb]; [|reflexivity].
           apply stringEqb_eq in E. subst k0. rewrite E0, Ev. cbn [andb].
           destruct (existsb (stringEqb k) r); reflexivity.
      * destruct (IH result inheriting k) as [A B].
        cbv zeta in A, B. split.
        -- etransitivity; [exact A|].
           destruct (stringEqb k k0) eqn:E; cbn [orb]; [|reflexivity].
           apply stringEqb_eq in E. subst k0. rewrite E0, Ev. cbn [andb].
           destruct (existsb (stringEqb k) r); reflexivity.
        -- etransitivity; [exact B|].
           destruct (stringEqb k k0) eqn:E; cbn [orb]; [|reflexivity].
           apply stringEqb_eq in E. subst k0. rewrite E0, Ev. cbn [andb].
           destruct (existsb (stringEqb k) r); reflexivity.
    + destruct (IH result inheriting k) as [A B].
      cbv zeta in A, B. split.
      * etransitivity; [exact A|].
        destruct (stringEqb k k0) eqn:E; cbn [orb]; [|reflexivity].
        apply stringEqb_eq in E. subst k0. rewrite E0. reflexivity.
      * etransitivity; [exact B|].
        destruct (stringEqb k k0) eqn:E; cbn [orb]; [|reflexivity].
        apply stringEqb_eq in E. subst k0. rewrite E0. reflexivity.
Qed.

(** X22 (convertMergeSortProperties).  Every property of the defaults and of
    the converted attributes ends up in exactly one of the two objects: in
    [inheritingProperties] if it is an inheriting property, in [properties]
    otherwise; its value is the converted one, and the default only where
    the attributes do not set the property.  [srOnly] is handed through. *)
Theorem convertMergeSortProperties_sorts {V : Type}
    (isInheritingProperty : jsString -> bool)
    (defaultProperties converted : object V) (flag : bool) (key : jsString) :
  uniqueKeys defaultProperties = true -> uniqueKeys converted = true ->
  let merged := match getProperty converted key with
                | Some v => Some v
                | None => getProperty defaultProperties key
                end in
  let sorted := convertMergeSortProperties isInheritingProperty
                  (Some defaultProperties) (converted, flag) in
  getProperty (inheritingProperties sorted) key
  = (if isInheritingProperty key then merged else None)
  /\ getProperty (properties sorted) key
     = (if isInheritingProperty key then None else merged)
  /\ srOnly sorted = flag.
Proof.
  intros Hd Hc merged sorted. subst sorted. unfold convertMergeSortProperties.
  cbn [inheritingProperties properties srOnly fst snd].
  set (result := objectAssign (objectAssign [] defaultProperties) converted).
  assert (Hres : getProperty result key = merged).
  { unfold result, merged. rewrite !getProperty_assign.
    rewrite (getProperty_rev converted key Hc),
      (getProperty_rev defaultProperties key Hd).
    destruct (getProperty converted key); [reflexivity|].
    destruct (getProperty defaultProperties key); reflexivity. }
  destruct (sortLoop_spec isInheritingProperty (map fst result) result [] key)
    as [A B].
  cbv zeta in A, B. rewrite getProperty_keys, Hres in A, B.
  split; [|split; [|reflexivity]].
  - etransitivity; [exact B|].
    destruct (isInheritingProperty key); cbn [andb]; [|reflexivity].
    destruct merged; reflexivity.
  - etransitivity; [exact A|].
    destruct (isInheritingProperty key); cbn [andb]; [|reflexivity].
    destruct merged; reflexivity.
Qed.

Lemma convertMergeSortProperties_sorts_witness :
  getProperty
    (inheritingProperties
       (convertMergeSortProperties (stringEqb [99])
          (Some [([97], 1); ([99], 2)]) ([([99], 3); ([98], 4)], true))) [99]
  = Some 3
  /\ getProperty
       (properties
          (convertMergeSortProperties (stringEqb [99])
             (Some [([97], 1); ([99], 2)]) ([([99], 3); ([98], 4)], true))) [99]
     = None
  /\ srOnly
       (convertMergeSortProperties (stringEqb [99])
          (Some [([97], 1); ([99], 2)]) ([([99], 3); ([98], 4)], true))
     = true.
Proof.
  apply (convertMergeSortProperties_sorts (stringEqb [99])
           [([97], 1); ([99], 2)] [([99], 3); ([98], 4)] true [99]);
    vm_compute; reflexivity.
Defined.

End ConvertFacts.

(** ** The group registry *)

Module RegistryFacts.
Import SortedBuckets Group Moves Invariants Scenarios Registry.
Import SortedBucketsFacts MovesFacts GroupFacts.

(** *** The key of a group *)

Lemma toInt32_small x : -2147483648 <= x < 2147483648 -> toInt32 x = x.
Proof. intros H. unfold toInt32. rewrite Z.mod_small by lia. lia. Qed.

Lemma toInt32_period x k : toInt32 (x + k * 4294967296) = toInt32 x.
Proof.
  unfold toInt32.
  replace (x + k * 4294967296 + 2147483648)
    with (x + 2147483648 + k * 4294967296) by lia.
  rewrite Z.mod_add by lia. reflexivity.
Qed.

Lemma toInt32_times4 x : toInt32 (toInt32 x * 4) = toInt32 (x * 4).
Proof.
  assert (E : toInt32 x * 4
              = x * 4 + (- 4 * ((x + 2147483648) / 4294967296)) * 4294967296).
  { unfold toInt32. rewrite Z.mod_eq by lia. lia. }
  rewrite E. apply toInt32_period.
Qed.

Lemma groupKey_flags majorIndex r c :
  groupKey majorIndex r c = toInt32 (majorIndex * 4) + 2 * boolBit r + boolBit c.
Proof.
  unfold groupKey, shiftLeft32. rewrite !Z.shiftl_mul_pow2 by lia.
  change (2 ^ 2) with 4. change (2 ^ 1) with 2.
  rewrite toInt32_times4.
  destruct r; cbn [boolBit]; reflexivity.
Qed.

Lemma groupKey_small majorIndex r c :
  -536870912 <= majorIndex < 536870912 ->
  groupKey majorIndex r c = 4 * majorIndex + 2 * boolBit r + boolBit c.
Proof.
  intros H. rewrite groupKey_flags, toInt32_small by lia. lia.
Qed.

(** X1 (PanelGroupManager.getGroup, the key).  For major indices of thirty
    bits, from [-2^29] up to [2^29 - 1], the key tells the major index and
    both shadow flags apart: two requests get the same key only if they agree
    on all three. *)
Theorem groupKey_injective m1 r1 c1 m2 r2 c2 :
  -536870912 <= m1 < 536870912 -> -536870912 <= m2 < 536870912 ->
  groupKey m1 r1 c1 = groupKey m2 r2 c2 ->
  m1 = m2 /\ r1 = r2 /\ c1 = c2.
Proof.
  intros H1 H2. rewrite !groupKey_small by assumption.
  destruct r1, c1, r2, c2; cbn [boolBit]; intros E;
    repeat split; try reflexivity; lia.
Qed.

Lemma groupKey_injective_witness :
  groupKey 3 true false = groupKey 3 true false
  /\ (3 = 3 /\ true = true /\ false = false).
Proof.
  split; [reflexivity|].
  apply (groupKey_injective 3 true false 3 true false); [lia|lia|reflexivity].
Defined.

Lemma groupKey_wraps majorIndex r c :
  groupKey (majorIndex + 1073741824) r c = groupKey majorIndex r c.
Proof.
  rewrite !groupKey_flags.
  replace ((majorIndex + 1073741824) * 4) with (majorIndex * 4 + 1 * 4294967296) by lia.
  rewrite toInt32_period. reflexivity.
Qed.

(** *** The map of groups *)

Lemma mapGet_set_same_nat {V : Type} k (v : V) m :
  mapGet Nat.eqb k (mapSet Nat.eqb k v m) = Some v.
Proof.
  induction m as [|[k' v'] r IH]; cbn [mapSet mapGet].
  - rewrite Nat.eqb_refl. reflexivity.
  - destruct (Nat.eqb k k') eqn:E; cbn [mapGet]; rewrite ?Nat.eqb_refl, ?E; auto.
Qed.

Lemma mapGet_set_other_nat {V : Type} k k' (v : V) m :
  k' <> k -> mapGet Nat.eqb k' (mapSet Nat.eqb k v m) = mapGet Nat.eqb k' m.
Proof.
  intros Hne. induction m as [|[k0 v0] r IH]; cbn [mapSet mapGet].
  - destruct (Nat.eqb_spec k' k); [contradiction|reflexivity].
  - destruct (Nat.eqb_spec k k0) as [->|Hk]; cbn [mapGet].
    + destruct (Nat.eqb_spec k' k0); [contradiction|reflexivity].
    + rewrite IH. reflexivity.
Qed.

Lemma mapGet_set_same_Z {V : Type} k (v : V) m :
  mapGet Z.eqb k (mapSet Z.eqb k v m) = Some v.
Proof.
  induction m as [|[k' v'] r IH]; cbn [mapSet mapGet].
  - rewrite Z.eqb_refl. reflexivity.
  - destruct (Z.eqb k k') eqn:E; cbn [mapGet]; rewrite ?Z.eqb_refl, ?E; auto.
Qed.

Lemma mapGet_set_other_Z {V : Type} k k' (v : V) m :
  k' <> k -> mapGet Z.eqb k' (mapSet Z.eqb k v m) = mapGet Z.eqb k' m.
Proof.
  intros Hne. induction m as [|[k0 v0] r IH]; cbn [mapSet mapGet].
  - destruct (Z.eqb_spec k' k); [contradiction|reflexivity].
  - destruct (Z.eqb_spec k k0) as [->|Hk]; cbn [mapGet].
    + destruct (Z.eqb_spec k' k0); [contradiction|reflexivity].
    + rewrite IH. reflexivity.
Qed.

Lemma mapSet_in {K V : Type} (eqb : K -> K -> bool) k (v : V) m k' v' :
  In (k', v') (mapSet eqb k v m) -> (k' = k /\ v' = v) \/ In (k', v') m.
Proof.
  induction m as [|[k0 v0] r IH]; cbn [mapSet].
  - intros [E|[]]. inversion E. auto.
  - destruct (eqb k k0).
    + intros [E|H]; [inversion E; auto|right; right; exact H].
    + intros [E|H]; [right; left; exact E|].
      destruct (IH H) as [?|?]; [auto|right; right; assumption].
Qed.

Lemma mapGet_in_nat {V : Type} k (v : V) m :
  mapGet Nat.eqb k m = Some v -> In (k, v) m.
Proof.
  induction m as [|[k0 v0] r IH]; cbn [mapGet]; [discriminate|].
  destruct (Nat.eqb_spec k k0) as [->|Hk].
  - intros E. inversion E. left. reflexivity.
  - intros E. right. auto.
Qed.

Lemma mapGet_in_Z {V : Type} k (v : V) m :
  mapGet Z.eqb k m = Some v -> In (k, v) m.
Proof.
  induction m as [|[k0 v0] r IH]; cbn [mapGet]; [discriminate|].
  destruct (Z.eqb_spec k k0) as [->|Hk].
  - intros E. inversion E. left. reflexivity.
  - intros E. right. auto.
Qed.

Lemma getGroup_lookup majorIndex properties mgr :
  let props := match properties with Some p => p | None => defaultPanelDependencies end in
  let ref := (panelMaterialClass props,
              groupKey majorIndex (receiveShadow props) (castShadow props)) in
  snd (getGroup majorIndex properties mgr) = ref
  /\ match groupAt ref mgr with
     | Some pg =>
         fst (getGroup majorIndex properties mgr) = mgr
     | None =>
         groupAt ref (fst (getGroup majorIndex properties mgr))
         = Some (newPanelGroup (renderOrderSignal mgr) (depthTestSignal mgr)
                   majorIndex (receiveShadow props) (castShadow props) (hostNow mgr))
     end
  /\ forall ref', ref' <> ref ->
       groupAt ref' (fst (getGroup majorIndex properties mgr)) = groupAt ref' mgr.
Proof.
  intros props ref. unfold getGroup, groupAt. fold props.
  subst ref. cbn [fst snd].
  destruct (mapGet Nat.eqb (panelMaterialClass props) (groupMap mgr)) as [gs|] eqn:Eg.
  - destruct (mapGet Z.eqb _ gs) as [pg|] eqn:Ek; cbn [fst snd].
    + auto.
    + split; [reflexivity|]. split.
      * cbn [withGroupMap groupMap]. rewrite mapGet_set_same_nat, mapGet_set_same_Z.
        reflexivity.
      * intros [mc k] Hne. cbn [withGroupMap groupMap fst snd].
        destruct (Nat.eq_dec mc (panelMaterialClass props)) as [->|Hmc].
        -- rewrite mapGet_set_same_nat, Eg.
           apply mapGet_set_other_Z. intros ->. apply Hne. reflexivity.
        -- rewrite mapGet_set_other_nat by exact Hmc. reflexivity.
  - cbn [mapGet fst snd]. split; [reflexivity|]. split.
    + cbn [withGroupMap groupMap]. rewrite mapGet_set_same_nat.
      cbn [mapSet mapGet]. rewrite Z.eqb_refl. reflexivity.
    + intros [mc k] Hne. cbn [withGroupMap groupMap fst snd].
      destruct (Nat.eq_dec mc (panelMaterialClass props)) as [->|Hmc].
      * rewrite mapGet_set_same_nat, Eg. cbn [mapSet mapGet].
        destruct (Z.eqb_spec k (groupKey majorIndex (receiveShadow props)
                                  (castShadow props))) as [->|Hk];
          [exfalso; apply Hne; reflexivity|reflexivity].
      * rewrite mapGet_set_other_nat by exact Hmc. reflexivity.
Qed.

(** X2 (PanelGroupManager.getGroup).  A first request constructs the group
    with the render order and the depth test the signals have at that
    moment and leaves every other group as it is; asking again with the same
    arguments returns that very group and changes nothing, and so does asking
    with a major index [2^30] higher, whose key wraps around to the same
    value. *)
Theorem getGroup_caches majorIndex properties mgr :
  let mgr1 := fst (getGroup majorIndex properties mgr) in
  let ref := snd (getGroup majorIndex properties mgr) in
  (exists pg, groupAt ref mgr1 = Some pg
     /\ match groupAt ref mgr with
        | Some old => pg = old /\ mgr1 = mgr
        | None =>
            renderOrder (core pg) = renderOrderSignal mgr
            /\ materialDepthTest pg = depthTestSignal mgr
            /\ orderMajorIndex pg = majorIndex
            /\ elementCount (core pg) = 0 /\ mesh (core pg) = None
        end)
  /\ (forall ref', ref' <> ref -> groupAt ref' mgr1 = groupAt ref' mgr)
  /\ getGroup majorIndex properties mgr1 = (mgr1, ref)
  /\ getGroup (majorIndex + 1073741824) properties mgr1 = (mgr1, ref).
Proof.
  intros mgr1 ref.
  destruct (getGroup_lookup majorIndex properties mgr) as [Hr [Hc Ho]].
  cbv zeta in Hr, Hc, Ho. fold ref in Hr. fold mgr1 in Hc, Ho.
  rewrite <- Hr in Hc, Ho.
  assert (Hfound : exists pg, groupAt ref mgr1 = Some pg).
  { destruct (groupAt ref mgr) as [old|] eqn:E.
    - exists old. rewrite Hc. exact E.
    - eexists. exact Hc. }
  split.
  - destruct (groupAt ref mgr) as [old|] eqn:E.
    + exists old. rewrite Hc. auto.
    + eexists. split; [exact Hc|]. cbn. auto.
  - split; [exact Ho|].
    destruct Hfound as [pg Hpg].
    assert (Hagain : forall mi,
              snd (getGroup mi properties mgr1) = ref ->
              getGroup mi properties mgr1 = (mgr1, ref)).
    { intros mi Hs.
      destruct (getGroup_lookup mi properties mgr1) as [Hr' [Hc' _]].
      cbv zeta in Hr', Hc'. rewrite <- Hr', Hs, Hpg in Hc'.
      rewrite (surjective_pairing (getGroup mi properties mgr1)).
      rewrite Hc', Hs. reflexivity. }
    split; apply Hagain.
    + destruct (getGroup_lookup majorIndex properties mgr1) as [Hr' _].
      cbv zeta in Hr'. rewrite Hr'. symmetry. exact Hr.
    + destruct (getGroup_lookup (majorIndex + 1073741824) properties mgr1) as [Hr' _].
      cbv zeta in Hr'. rewrite Hr', groupKey_wraps. symmetry. exact Hr.
Qed.

(** *** The render order of the mesh *)

Lemma runCall_order c g g' :
  runCall c g = OK g' ->
  mesh g' = mesh g /\ renderOrder g' = renderOrder g
  /\ renderRequests g' = renderRequests g.
Proof.
  destruct c; cbn [runCall]; intros H.
  - unfold activateElement in H. destruct (instanceData g); [|discriminate].
    destruct (_ && _); [|discriminate]. inversion H. fields. auto.
  - unfold clearBufferAt in H. destruct (instanceMatrix g); [|discriminate].
    inversion H. fields. auto.
  - inversion H. auto.
  - unfold bufferCopyWithin, copyWithinAttribute in H.
    destruct (instanceMatrix g); cbn [bind] in H; [|discriminate].
    destruct (instanceData g); cbn [bind] in H; [|discriminate].
    destruct (instanceClipping g); cbn [bind] in H; [|discriminate].
    inversion H. fields. auto.
Qed.

Lemma runCalls_order cs : forall g g',
  runCalls cs g = OK g' ->
  mesh g' = mesh g /\ renderOrder g' = renderOrder g
  /\ renderRequests g' = renderRequests g.
Proof.
  induction cs as [|c r IH]; intros g g' H; cbn [runCalls] in H.
  - inversion H. auto.
  - destruct (runCall c g) as [g1|] eqn:E; cbn [bind] in H; [|discriminate].
    destruct (runCall_order _ _ _ E) as [A [B C]].
    destruct (IH _ _ H) as [A' [B' C']]. repeat split; congruence.
Qed.

Lemma updateCount_order g g' :
  updateCount g = OK g' ->
  renderOrder g' = renderOrder g /\ (meshOrdered g -> meshOrdered g').
Proof.
  unfold updateCount, meshOrdered. intros H.
  destruct (lastOf (buckets g)); [|discriminate].
  destruct (mesh g) as [m|] eqn:Em; inversion H; subst; fields.
  - split; [reflexivity|]. intros Ho m' Hm'. inversion Hm'. cbn. auto.
  - split; [reflexivity|]. rewrite Em. auto.
Qed.

Lemma requestUpdate_order time g :
  mesh (requestUpdate time g) = mesh g
  /\ renderOrder (requestUpdate time g) = renderOrder g.
Proof.
  unfold requestUpdate, schedule.
  destruct (nextUpdateTime g) as [[|t]|]; [auto| |auto].
  destruct (t <? now g + time); auto.
Qed.

Lemma resize_order g g' :
  resize g = OK g' -> renderOrder g' = renderOrder g /\ meshOrdered g'.
Proof.
  unfold resize, meshOrdered. intros H.
  destruct (ceil15 (elementCount g) <? 0); [discriminate|].
  inversion H. fields. split; [reflexivity|].
  intros m Hm. inversion Hm. reflexivity.
Qed.

Lemma rearrange_order g g' :
  rearrange g = OK g' -> mesh g' = mesh g /\ renderOrder g' = renderOrder g.
Proof.
  unfold rearrange. destruct (updateSortedBucketsAllocation (buckets g)) as [bs calls].
  intros H. destruct (runCalls_order _ _ _ H) as [A [B _]]. fields. auto.
Qed.

Lemma meshOrdered_same g g' :
  mesh g' = mesh g -> renderOrder g' = renderOrder g ->
  meshOrdered g -> meshOrdered g'.
Proof. unfold meshOrdered. intros Em Er H m Hm. rewrite Em in Hm. rewrite Er. auto. Qed.

Lemma updateBuffers_order g g' :
  updateBuffers g = OK g' ->
  renderOrder g' = renderOrder g /\ (meshOrdered g -> meshOrdered g').
Proof.
  unfold updateBuffers. intros H.
  destruct (bufferElementSize g <? elementCount g).
  - destruct (resize g) as [g1|] eqn:E1; cbn [bind] in H; [|discriminate].
    destruct (resize_order _ _ E1) as [A B].
    destruct (rearrange_order _ _ H) as [C D].
    split; [congruence|]. intros _. apply (meshOrdered_same g1); assumption.
  - destruct (3 * elementCount g <=? bufferElementSize g).
    + destruct (rearrange g) as [g1|] eqn:E1; cbn [bind] in H; [|discriminate].
      destruct (rearrange_order _ _ E1) as [A B].
      destruct (resize_order _ _ H) as [C D].
      split; [congruence|]. intros _. exact D.
    + destruct (rearrange_order _ _ H) as [A B].
      split; [exact B|]. apply meshOrdered_same; assumption.
Qed.

Lemma update_order g g' :
  update g = OK g' ->
  renderOrder g' = renderOrder g /\ (meshOrdered g -> meshOrdered g').
Proof.
  unfold update. intros H.
  destruct (elementCount (emit EvUpdate g) =? 0).
  - unfold meshOrdered.
    destruct (mesh (emit EvUpdate g)) as [m|] eqn:Em; inversion H; subst; fields.
    + split; [reflexivity|]. intros Ho m' Hm'. inversion Hm'. cbn. auto.
    + split; [reflexivity|]. rewrite Em. auto.
  - destruct (updateBuffers (emit EvUpdate g)) as [g1|] eqn:E1; cbn [bind] in H;
      [|discriminate].
    destruct (updateBuffers_order _ _ E1) as [A B].
    destruct (mesh g1) as [m|] eqn:Em; [|discriminate].
    injection H as <-. fields. split; [exact A|].
    intros Ho m' Hm'. injection Hm' as <-. cbn [meshRenderOrder]. fields.
    apply (B Ho). exact Em.
Qed.

Lemma insert_order bucketIndex panel g g' :
  insert bucketIndex panel g = OK g' ->
  renderOrder g' = renderOrder g /\ (meshOrdered g -> meshOrdered g').
Proof.
  unfold insert. intros H.
  destruct (addToSortedBuckets _ bucketIndex panel) as [[bs calls] needs].
  destruct (runCalls calls _) as [g2|] eqn:E2; cbn [bind] in H; [|discriminate].
  destruct (runCalls_order _ _ _ E2) as [A [B _]]. fields.
  destruct needs; cbn [negb] in H.
  - inversion H. unfold requestUpdateNextFrame. fields.
    split; [exact B|]. apply meshOrdered_same; assumption.
  - destruct (updateCount_order _ _ H) as [C D].
    split; [congruence|]. intros Ho. apply D.
    apply (meshOrdered_same g); assumption.
Qed.

Lemma delete_order bucketIndex elementIndex panel g g' :
  delete bucketIndex elementIndex panel g = OK g' ->
  renderOrder g' = renderOrder g /\ (meshOrdered g -> meshOrdered g').
Proof.
  unfold delete. intros H.
  destruct (removeFromSortedBuckets _ bucketIndex panel elementIndex)
    as [[[bs calls] needs]|]; cbn [bind] in H; [|discriminate].
  destruct (runCalls calls _) as [g2|] eqn:E2; cbn [bind] in H; [|discriminate].
  destruct (runCalls_order _ _ _ E2) as [A [B _]]. fields.
  destruct needs; cbn [negb] in H.
  - inversion H. destruct (requestUpdate_order 1000 g2) as [C D].
    split; [congruence|]. intros Ho.
    apply (meshOrdered_same g); [congruence|congruence|exact Ho].
  - destruct (updateCount_order _ _ H) as [C D].
    split; [congruence|]. intros Ho. apply D.
    apply (meshOrdered_same g); assumption.
Qed.

Lemma onFrame_order g g' :
  onFrame g = OK g' ->
  renderOrder g' = renderOrder g /\ (meshOrdered g -> meshOrdered g').
Proof.
  unfold onFrame. intros H.
  destruct (nextUpdateTime g) as [[|t]|]; try (inversion H; auto; fail).
  destruct (update_order _ _ H) as [A B]. fields. split; [exact A|].
  intros Ho. apply B. exact Ho.
Qed.

Lemma fireTimer_order id g g' :
  fireTimer id g = Some g' ->
  renderOrder g' = renderOrder g /\ (meshOrdered g -> meshOrdered g').
Proof.
  unfold fireTimer. intros H.
  destruct (timerDue id g); [|discriminate].
  destruct (_ <=? _); [|discriminate].
  inversion H. unfold requestUpdateNextFrame. fields. auto.
Qed.

Lemma panelWrite_order s m d c g g' :
  panelWrite s m d c g = Some g' ->
  renderOrder g' = renderOrder g /\ (meshOrdered g -> meshOrdered g').
Proof.
  unfold panelWrite. intros H.
  destruct (instanceMatrix g); [|discriminate].
  destruct (instanceData g); [|discriminate].
  destruct (instanceClipping g); [|discriminate].
  destruct (occupied s (buckets g)); [|discriminate].
  inversion H. fields. auto.
Qed.

Lemma setRenderOrder_order r g :
  renderOrder (setRenderOrder r g) = r /\ meshOrdered (setRenderOrder r g).
Proof.
  unfold setRenderOrder, meshOrdered. fields.
  destruct (mesh g) as [m|] eqn:Em; fields.
  - split; [reflexivity|]. intros m' Hm'. inversion Hm'. reflexivity.
  - split; [reflexivity|]. rewrite Em. discriminate.
Qed.

Lemma groupMove_order g g' :
  groupMove g g' ->
  renderOrder g' = renderOrder g /\ (meshOrdered g -> meshOrdered g').
Proof.
  intros H. destruct H.
  - eapply insert_order; eassumption.
  - eapply delete_order; eassumption.
  - eapply onFrame_order; eassumption.
  - eapply fireTimer_order; eassumption.
  - split; [reflexivity|]. apply meshOrdered_same; reflexivity.
  - eapply panelWrite_order; eassumption.
Qed.

Lemma step_order_kept g g' : step g g' -> meshOrdered g -> meshOrdered g'.
Proof.
  intros H. destruct H.
  - eapply insert_order; eassumption.
  - eapply delete_order; eassumption.
  - eapply onFrame_order; eassumption.
  - eapply fireTimer_order; eassumption.
  - apply meshOrdered_same; reflexivity.
  - intros _. apply setRenderOrder_order.
  - eapply panelWrite_order; eassumption.
Qed.

Lemma reachable_meshOrdered g : reachable g -> meshOrdered g.
Proof.
  induction 1 as [r t|g g' Hr IH Hs].
  - intros m Hm. discriminate.
  - apply (step_order_kept g g' Hs IH).
Qed.

(** X4 (setRenderOrder, resize).  In every state a group can reach, its mesh,
    once it exists, is drawn in the render order of the group: a mesh made by
    a resize takes the current order, and a new order reaches the mesh at
    once. *)
Theorem mesh_follows_render_order g :
  reachable g ->
  (forall m, mesh g = Some m -> meshRenderOrder m = renderOrder g)
  /\ (forall r, renderOrder (setRenderOrder r g) = r
        /\ forall m, mesh (setRenderOrder r g) = Some m -> meshRenderOrder m = r).
Proof.
  intros Hr. split.
  - apply reachable_meshOrdered. exact Hr.
  - intros r. destruct (setRenderOrder_order r g) as [A B].
    split; [exact A|]. intros m Hm. rewrite (B m Hm). exact A.
Qed.

Lemma mesh_follows_render_order_witness :
  reachable settledState
  /\ (forall m, mesh settledState = Some m -> meshRenderOrder m = renderOrder settledState)
  /\ (forall r, renderOrder (setRenderOrder r settledState) = r
        /\ forall m, mesh (setRenderOrder r settledState) = Some m ->
             meshRenderOrder m = r).
Proof.
  assert (Hr : reachable settledState).
  { apply (Claims.stateAfter_reachable settledOps). vm_compute. reflexivity. }
  split; [exact Hr|]. apply (mesh_follows_render_order settledState). exact Hr.
Defined.

(** *** The settings of the manager *)

Lemma inSync_signals mgr mgr' pg :
  renderOrderSignal mgr' = renderOrderSignal mgr ->
  depthTestSignal mgr' = depthTestSignal mgr ->
  inSync mgr pg -> inSync mgr' pg.
Proof. unfold inSync. intros -> ->. auto. Qed.

Lemma traverse_in fn mgr mc gs key pg :
  In (mc, gs) (groupMap (traverse fn mgr)) -> In (key, pg) gs ->
  exists gs0 pg0, In (mc, gs0) (groupMap mgr) /\ In (key, pg0) gs0 /\ pg = fn pg0.
Proof.
  unfold traverse. cbn [withGroupMap groupMap]. intros H1 H2.
  apply in_map_iff in H1. destruct H1 as [[mc0 gs0] [E1 H1]].
  cbn [fst snd] in E1. inversion E1. subst mc0 gs.
  apply in_map_iff in H2. destruct H2 as [[key0 pg0] [E2 H2]].
  cbn [fst snd] in E2. inversion E2. subst key0 pg.
  exists gs0, pg0. auto.
Qed.

Lemma renderOrderEffect_sync mgr mc gs key pg :
  (forall mc0 gs0 key0 pg0, In (mc0, gs0) (groupMap mgr) -> In (key0, pg0) gs0 ->
     materialDepthTest pg0 = depthTestSignal mgr) ->
  In (mc, gs) (groupMap (renderOrderEffect mgr)) -> In (key, pg) gs ->
  inSync (renderOrderEffect mgr) pg.
Proof.
  intros Hd H1 H2. unfold renderOrderEffect in *. cbn [groupMap] in H1.
  destruct (traverse_in _ _ _ _ _ _ H1 H2) as [gs0 [pg0 [A [B ->]]]].
  unfold inSync. cbn [renderOrderSignal depthTestSignal traverse withGroupMap].
  unfold setGroupRenderOrder, withCore. cbn [core materialDepthTest].
  destruct (setRenderOrder_order (renderOrderSignal mgr) (core pg0)) as [C D].
  split; [exact C|]. split; [eapply Hd; eassumption|].
  intros m Hm. rewrite (D m Hm). exact C.
Qed.

Lemma depthTestEffect_sync mgr mc gs key pg :
  (forall mc0 gs0 key0 pg0, In (mc0, gs0) (groupMap mgr) -> In (key0, pg0) gs0 ->
     renderOrder (core pg0) = renderOrderSignal mgr
     /\ meshOrdered (core pg0)) ->
  In (mc, gs) (groupMap (depthTestEffect mgr)) -> In (key, pg) gs ->
  inSync (depthTestEffect mgr) pg.
Proof.
  intros Hd H1 H2. unfold depthTestEffect in *. cbn [groupMap] in H1.
  destruct (traverse_in _ _ _ _ _ _ H1 H2) as [gs0 [pg0 [A [B ->]]]].
  unfold inSync. cbn [renderOrderSignal depthTestSignal traverse withGroupMap].
  unfold setDepthTest. cbn [core materialDepthTest].
  destruct (Hd _ _ _ _ A B) as [C D].
  split; [exact C|]. split; [reflexivity|].
  intros m Hm. rewrite (D m Hm). exact C.
Qed.

Lemma inSync_ordered mgr pg :
  inSync mgr pg ->
  renderOrder (core pg) = renderOrderSignal mgr /\ meshOrdered (core pg).
Proof.
  unfold inSync, meshOrdered. intros [A [B C]]. split; [exact A|].
  intros m Hm. rewrite A. auto.
Qed.

Lemma frameGroups_in gs : forall gs' key pg',
  frameGroups gs = OK gs' -> In (key, pg') gs' ->
  exists pg g',
    In (key, pg) gs /\ onFrame (core pg) = OK g' /\ pg' = withCore g' pg.
Proof.
  induction gs as [|[k pg] r IH]; intros gs' key pg' H Hin; cbn [frameGroups] in H.
  - injection H as <-. contradiction.
  - cbn [fst snd] in H.
    destruct (onFrame (core pg)) as [g'|] eqn:E; cbn [bind] in H; [|discriminate].
    destruct (frameGroups r) as [r'|] eqn:Er; cbn [bind] in H; [|discriminate].
    injection H as <-. destruct Hin as [Heq|Hin].
    + injection Heq as <- <-. exists pg, g'. split; [left; reflexivity|auto].
    + destruct (IH _ _ _ eq_refl Hin) as (pg0 & g0 & A & B & C).
      exists pg0, g0. split; [right; exact A|auto].
Qed.

Lemma frameMaps_in m : forall m' mc gs',
  frameMaps m = OK m' -> In (mc, gs') m' ->
  exists gs, In (mc, gs) m /\ frameGroups gs = OK gs'.
Proof.
  induction m as [|[c gs] r IH]; intros m' mc gs' H Hin; cbn [frameMaps] in H.
  - injection H as <-. contradiction.
  - cbn [fst snd] in H.
    destruct (frameGroups gs) as [gs1|] eqn:E; cbn [bind] in H; [|discriminate].
    destruct (frameMaps r) as [r'|] eqn:Er; cbn [bind] in H; [|discriminate].
    injection H as <-. destruct Hin as [Heq|Hin].
    + injection Heq as <- <-. exists gs. split; [left; reflexivity|exact E].
    + destruct (IH _ _ _ eq_refl Hin) as (gs0 & A & B).
      exists gs0. split; [right; exact A|exact B].
Qed.

Lemma getGroup_initialized majorIndex properties mgr :
  initialized (fst (getGroup majorIndex properties mgr)) = initialized mgr.
Proof.
  unfold getGroup. destruct (mapGet Z.eqb _ _); reflexivity.
Qed.

Lemma assignRenderOrder_initialized r mgr :
  initialized (assignRenderOrder r mgr) = initialized mgr.
Proof.
  unfold assignRenderOrder. destruct (_ && _); reflexivity.
Qed.

Lemma assignDepthTest_initialized d mgr :
  initialized (assignDepthTest d mgr) = initialized mgr.
Proof.
  unfold assignDepthTest. destruct (_ && _); reflexivity.
Qed.

Lemma updateGroup_initialized ref pg mgr :
  initialized (updateGroup ref pg mgr) = initialized mgr.
Proof.
  unfold updateGroup. destruct (mapGet Nat.eqb _ _); reflexivity.
Qed.

Lemma initialize_sync mgr mc gs key pg :
  In (mc, gs) (groupMap (initialize mgr)) -> In (key, pg) gs ->
  inSync (initialize mgr) pg.
Proof.
  unfold initialize. intros H1 H2.
  apply (depthTestEffect_sync _ mc gs key pg); [|exact H1|exact H2].
  intros mc0 gs0 key0 pg0 A B. unfold renderOrderEffect in A. cbn [groupMap] in A.
  destruct (traverse_in _ _ _ _ _ _ A B) as [gs1 [pg1 [_ [_ ->]]]].
  cbn [renderOrderSignal renderOrderEffect traverse withGroupMap].
  unfold setGroupRenderOrder, withCore. cbn [core].
  apply setRenderOrder_order.
Qed.

(** X3 (PanelGroupManager, the two effects).  Once the initializers of the
    manager have run, every group of the manager carries the render order and
    the depth test the signals have now, and so does its mesh: the groups made
    before are brought up to date when the effects first run, groups made
    later are constructed with the current values, a signal that changes is
    handed to all groups, and nothing a panel or the host does to a group
    changes either setting. *)
Theorem manager_settings_reach_every_group mgr :
  managerReachable mgr -> initialized mgr = true ->
  forall ref pg,
    groupAt ref mgr = Some pg ->
    renderOrder (core pg) = renderOrderSignal mgr
    /\ materialDepthTest pg = depthTestSignal mgr
    /\ (forall m, mesh (core pg) = Some m -> meshRenderOrder m = renderOrderSignal mgr).
Proof.
  intros Hr.
  assert (Hall : initialized mgr = true ->
                 forall mc gs key pg,
                   In (mc, gs) (groupMap mgr) -> In (key, pg) gs -> inSync mgr pg).
  { induction Hr as [r d t|mgr mgr' Hr IH Hs].
    - intros Hi. discriminate.
    - destruct Hs as [majorIndex properties mgr|r mgr|d mgr|ref pg g' mgr Hat Hmove
                     |mgr Hnot|mgr mgr' Hi Hframe]; intros Hi'.
      + rewrite getGroup_initialized in Hi'. specialize (IH Hi'). unfold getGroup.
        set (props := match properties with
                      | Some p => p | None => defaultPanelDependencies end).
        set (groups := match mapGet Nat.eqb (panelMaterialClass props) (groupMap mgr) with
                       | Some gs => gs | None => [] end).
        destruct (mapGet Z.eqb _ groups) eqn:Ek; cbn [fst]; [exact IH|].
        cbn [withGroupMap groupMap].
        intros mc gs key pg H1 H2.
        apply (inSync_signals mgr); [reflexivity|reflexivity|].
        apply mapSet_in in H1. destruct H1 as [[-> ->]|H1]; [|eapply IH; eassumption].
        apply mapSet_in in H2. destruct H2 as [[-> ->]|H2].
        * unfold inSync. cbn. repeat split. discriminate.
        * subst groups.
          destruct (mapGet Nat.eqb (panelMaterialClass props) (groupMap mgr))
            as [gs|] eqn:Eg; [|contradiction].
          apply mapGet_in_nat in Eg. eapply IH; eassumption.
      + rewrite assignRenderOrder_initialized in Hi'. specialize (IH Hi').
        unfold assignRenderOrder. rewrite Hi'. cbn [andb].
        destruct (Z.eqb_spec r (renderOrderSignal mgr)) as [->|Hne]; cbn [negb].
        * cbn [groupMap]. intros mc gs key pg H1 H2.
          apply (inSync_signals mgr); [reflexivity|reflexivity|].
          eapply IH; eassumption.
        * intros mc gs key pg H1 H2.
          apply (renderOrderEffect_sync _ mc gs key pg); [|exact H1|exact H2].
          cbn [groupMap depthTestSignal]. intros mc0 gs0 key0 pg0 A B.
          apply (IH mc0 gs0 key0 pg0 A B).
      + rewrite assignDepthTest_initialized in Hi'. specialize (IH Hi').
        unfold assignDepthTest. rewrite Hi'. cbn [andb].
        destruct (Bool.eqb d (depthTestSignal mgr)) eqn:Ed; cbn [negb].
        * apply Bool.eqb_prop in Ed. subst d.
          cbn [groupMap]. intros mc gs key pg H1 H2.
          apply (inSync_signals mgr); [reflexivity|reflexivity|].
          eapply IH; eassumption.
        * intros mc gs key pg H1 H2.
          apply (depthTestEffect_sync _ mc gs key pg); [|exact H1|exact H2].
          cbn [groupMap renderOrderSignal]. intros mc0 gs0 key0 pg0 A B.
          apply (inSync_ordered mgr). apply (IH mc0 gs0 key0 pg0 A B).
      + rewrite updateGroup_initialized in Hi'. specialize (IH Hi').
        unfold updateGroup. unfold groupAt in Hat.
        destruct (mapGet Nat.eqb (fst ref) (groupMap mgr)) as [groups|] eqn:Eg;
          [|discriminate].
        cbn [withGroupMap groupMap].
        intros mc gs key pg0 H1 H2.
        apply (inSync_signals mgr); [reflexivity|reflexivity|].
        apply mapSet_in in H1. destruct H1 as [[-> ->]|H1]; [|eapply IH; eassumption].
        apply mapGet_in_nat in Eg.
        apply mapSet_in in H2. destruct H2 as [[-> ->]|H2]; [|eapply IH; eassumption].
        apply mapGet_in_Z in Hat.
        pose proof (IH _ _ _ _ Eg Hat) as Hsync.
        destruct (inSync_ordered _ _ Hsync) as [A B].
        destruct (groupMove_order _ _ Hmove) as [C D].
        destruct Hsync as [_ [S2 _]].
        unfold inSync, withCore. cbn [core materialDepthTest].
        split; [congruence|]. split; [exact S2|].
        intros m Hm. rewrite (D B m Hm). congruence.
      + intros mc gs key pg H1 H2. eapply initialize_sync; eassumption.
      + specialize (IH Hi). unfold managerOnFrame in Hframe.
        destruct (frameMaps (groupMap mgr)) as [m'|] eqn:Em; cbn [bind] in Hframe;
          [|discriminate].
        injection Hframe as <-. cbn [withGroupMap groupMap].
        intros mc gs key pg H1 H2.
        apply (inSync_signals mgr); [reflexivity|reflexivity|].
        destruct (frameMaps_in _ _ _ _ Em H1) as (gs0 & A0 & B0).
        destruct (frameGroups_in _ _ _ _ B0 H2) as (pg0 & g0 & A1 & B1 & ->).
        pose proof (IH _ _ _ _ A0 A1) as Hsync.
        destruct (inSync_ordered _ _ Hsync) as [A B].
        destruct (onFrame_order _ _ B1) as [C D].
        destruct Hsync as [_ [S2 _]].
        unfold inSync, withCore. cbn [core materialDepthTest].
        split; [congruence|]. split; [exact S2|].
        intros m Hm. rewrite (D B m Hm). congruence. }
  intros Hi ref pg Hat. unfold groupAt in Hat.
  destruct (mapGet Nat.eqb (fst ref) (groupMap mgr)) as [groups|] eqn:Eg;
    [|discriminate].
  apply mapGet_in_nat in Eg. apply mapGet_in_Z in Hat.
  exact (Hall Hi _ _ _ _ Eg Hat).
Qed.

Lemma runManagerOp_step op mgr mgr' :
  runManagerOp op mgr = Some mgr' -> managerStep mgr mgr'.
Proof.
  destruct op; cbn [runManagerOp]; intros H.
  - destruct (initialized mgr) eqn:Ei; [discriminate|].
    injection H as <-. apply mstep_initialize. exact Ei.
  - injection H as <-. constructor.
  - injection H as <-. constructor.
  - injection H as <-. constructor.
  - unfold onGroup in H. destruct (groupAt ref mgr) as [pg|] eqn:Eg; [|discriminate].
    destruct (insert bucketIndex panel (core pg)) as [g'|] eqn:E; [|discriminate].
    injection H as <-. eapply mstep_group; [exact Eg|].
    eapply move_insert. exact E.
  - unfold onGroup in H. destruct (groupAt ref mgr) as [pg|] eqn:Eg; [|discriminate].
    destruct (delete bucketIndex elementIndex panel (core pg)) as [g'|] eqn:E;
      [|discriminate].
    injection H as <-. eapply mstep_group; [exact Eg|].
    eapply move_delete. exact E.
  - destruct (initialized mgr) eqn:Ei; [|discriminate].
    destruct (managerOnFrame mgr) as [m|] eqn:E; [|discriminate].
    injection H as <-. apply mstep_frame; [exact Ei|exact E].
Qed.

Lemma runManagerOps_reachable ops : forall mgr mgr',
  managerReachable mgr -> runManagerOps ops mgr = Some mgr' -> managerReachable mgr'.
Proof.
  induction ops as [|op r IH]; intros mgr mgr' Hr H; cbn [runManagerOps] in H.
  - injection H as <-. exact Hr.
  - destruct (runManagerOp op mgr) as [m1|] eqn:E; [|discriminate].
    apply (IH m1 mgr'); [|exact H].
    eapply mreach_step; [exact Hr|]. apply (runManagerOp_step op). exact E.
Qed.

Lemma manager_settings_reach_every_group_witness :
  exists pg,
    groupAt (meshBasicMaterial, 4) busyManager = Some pg
    /\ renderOrder (core pg) = renderOrderSignal busyManager
    /\ materialDepthTest pg = depthTestSignal busyManager
    /\ (forall m, mesh (core pg) = Some m ->
          meshRenderOrder m = renderOrderSignal busyManager).
Proof.
  assert (Hr : managerReachable busyManager).
  { apply (runManagerOps_reachable busyManagerOps (newManager 5 true 0));
      [constructor|]. vm_compute. reflexivity. }
  eexists. split; [vm_compute; reflexivity|].
  apply (manager_settings_reach_every_group busyManager Hr eq_refl
           (meshBasicMaterial, 4)).
  vm_compute. reflexivity.
Defined.

(** *** Frames of the manager *)

Lemma groupMove_step g g' : groupMove g g' -> step g g'.
Proof.
  intros H. destruct H.
  - eapply step_insert; eassumption.
  - eapply step_delete; eassumption.
  - eapply step_frame; eassumption.
  - eapply step_timer; eassumption.
  - apply step_clock. assumption.
  - eapply step_write; eassumption.
Qed.

Lemma managerReachable_cores mgr :
  managerReachable mgr ->
  forall mc gs key pg,
    In (mc, gs) (groupMap mgr) -> In (key, pg) gs -> reachable (core pg).
Proof.
  induction 1 as [r d t|mgr mgr' Hr IH Hs].
  - intros mc gs key pg H. cbn in H. contradiction.
  - destruct Hs as [majorIndex properties mgr|r mgr|d mgr|ref pg g' mgr Hat Hmove
                   |mgr Hnot|mgr mgr' Hi Hframe].
    + unfold getGroup.
      set (props := match properties with
                    | Some p => p | None => defaultPanelDependencies end).
      set (groups := match mapGet Nat.eqb (panelMaterialClass props) (groupMap mgr) with
                     | Some gs => gs | None => [] end).
      destruct (mapGet Z.eqb _ groups) eqn:Ek; cbn [fst]; [exact IH|].
      cbn [withGroupMap groupMap]. intros mc gs key pg H1 H2.
      apply mapSet_in in H1. destruct H1 as [[-> ->]|H1]; [|eapply IH; eassumption].
      apply mapSet_in in H2. destruct H2 as [[-> ->]|H2].
      * cbn [newPanelGroup core]. apply reach_new.
      * subst groups.
        destruct (mapGet Nat.eqb (panelMaterialClass props) (groupMap mgr))
          as [gs|] eqn:Eg; [|contradiction].
        apply mapGet_in_nat in Eg. eapply IH; eassumption.
    + unfold assignRenderOrder.
      destruct (initialized mgr && negb (r =? renderOrderSignal mgr)).
      * unfold renderOrderEffect. cbn [groupMap]. intros mc gs key pg H1 H2.
        destruct (traverse_in _ _ _ _ _ _ H1 H2) as [gs0 [pg0 [A [B ->]]]].
        cbn [groupMap] in A. unfold setGroupRenderOrder, withCore. cbn [core].
        eapply reach_step; [eapply IH; eassumption|apply step_order].
      * exact IH.
    + unfold assignDepthTest.
      destruct (initialized mgr && negb (Bool.eqb d (depthTestSignal mgr))).
      * unfold depthTestEffect. cbn [groupMap]. intros mc gs key pg H1 H2.
        destruct (traverse_in _ _ _ _ _ _ H1 H2) as [gs0 [pg0 [A [B ->]]]].
        cbn [groupMap] in A. unfold setDepthTest. cbn [core].
        eapply IH; eassumption.
      * exact IH.
    + unfold updateGroup. unfold groupAt in Hat.
      destruct (mapGet Nat.eqb (fst ref) (groupMap mgr)) as [groups|] eqn:Eg;
        [|discriminate].
      cbn [withGroupMap groupMap]. intros mc gs key pg0 H1 H2.
      apply mapSet_in in H1. destruct H1 as [[-> ->]|H1]; [|eapply IH; eassumption].
      apply mapGet_in_nat in Eg.
      apply mapSet_in in H2. destruct H2 as [[-> ->]|H2]; [|eapply IH; eassumption].
      apply mapGet_in_Z in Hat. unfold withCore. cbn [core].
      eapply reach_step; [eapply IH; eassumption|apply groupMove_step; exact Hmove].
    + unfold initialize, depthTestEffect, renderOrderEffect. cbn [groupMap].
      intros mc gs key pg H1 H2.
      destruct (traverse_in _ _ _ _ _ _ H1 H2) as [gs0 [pg0 [A [B ->]]]].
      cbn [groupMap] in A.
      destruct (traverse_in _ _ _ _ _ _ A B) as [gs1 [pg1 [A1 [B1 ->]]]].
      cbn [groupMap] in A1.
      unfold setDepthTest, setGroupRenderOrder, withCore. cbn [core].
      eapply reach_step; [eapply IH; eassumption|apply step_order].
    + unfold managerOnFrame in Hframe.
      destruct (frameMaps (groupMap mgr)) as [m'|] eqn:Em; cbn [bind] in Hframe;
        [|discriminate].
      injection Hframe as <-. cbn [withGroupMap groupMap].
      intros mc gs key pg H1 H2.
      destruct (frameMaps_in _ _ _ _ Em H1) as (gs0 & A0 & B0).
      destruct (frameGroups_in _ _ _ _ B0 H2) as (pg0 & g0 & A1 & B1 & ->).
      unfold withCore. cbn [core].
      eapply reach_step; [eapply IH; eassumption|apply step_frame; exact B1].
Qed.

Lemma frameGroups_ok gs :
  (forall key pg, In (key, pg) gs -> wf (core pg)) ->
  exists gs', frameGroups gs = OK gs'.
Proof.
  induction gs as [|[k pg] r IH]; intros Hwf; cbn [frameGroups fst snd].
  - eexists. reflexivity.
  - destruct (wf_onFrame (core pg)) as (g' & E & _);
      [apply (Hwf k); left; reflexivity|].
    destruct IH as [r' Er]; [intros key pg0 Hin; apply (Hwf key); right; exact Hin|].
    rewrite E, Er. cbn [bind]. eexists. reflexivity.
Qed.

Lemma frameMaps_ok m :
  (forall mc gs key pg, In (mc, gs) m -> In (key, pg) gs -> wf (core pg)) ->
  exists m', frameMaps m = OK m'.
Proof.
  induction m as [|[c gs] r IH]; intros Hwf; cbn [frameMaps fst snd].
  - eexists. reflexivity.
  - destruct (frameGroups_ok gs) as [gs' E];
      [intros key pg Hin; apply (Hwf c gs key); [left; reflexivity|exact Hin]|].
    destruct IH as [r' Er];
      [intros mc gs0 key pg H1 H2; apply (Hwf mc gs0 key); [right; exact H1|exact H2]|].
    rewrite E, Er. cbn [bind]. eexists. reflexivity.
Qed.

Lemma frameGroups_get gs : forall gs' k,
  frameGroups gs = OK gs' ->
  mapGet Z.eqb k gs'
  = match mapGet Z.eqb k gs with
    | Some pg =>
        match onFrame (core pg) with
        | OK g' => Some (withCore g' pg)
        | Error _ => None
        end
    | None => None
    end.
Proof.
  induction gs as [|[k0 pg] r IH]; intros gs' k H; cbn [frameGroups fst snd] in H.
  - injection H as <-. reflexivity.
  - destruct (onFrame (core pg)) as [g'|] eqn:E; cbn [bind] in H; [|discriminate].
    destruct (frameGroups r) as [r'|] eqn:Er; cbn [bind] in H; [|discriminate].
    injection H as <-. cbn [mapGet].
    destruct (Z.eqb k k0); [rewrite E; reflexivity|].
    apply IH. reflexivity.
Qed.

Lemma frameMaps_get m : forall m' mc,
  frameMaps m = OK m' ->
  mapGet Nat.eqb mc m'
  = match mapGet Nat.eqb mc m with
    | Some gs =>
        match frameGroups gs with
        | OK gs' => Some gs'
        | Error _ => None
        end
    | None => None
    end.
Proof.
  induction m as [|[c gs] r IH]; intros m' mc H; cbn [frameMaps fst snd] in H.
  - injection H as <-. reflexivity.
  - destruct (frameGroups gs) as [gs1|] eqn:E; cbn [bind] in H; [|discriminate].
    destruct (frameMaps r) as [r'|] eqn:Er; cbn [bind] in H; [|discriminate].
    injection H as <-. cbn [mapGet].
    destruct (Nat.eqb mc c); [rewrite E; reflexivity|].
    apply IH. reflexivity.
Qed.

(** X16 (PanelGroupManager, the frame callback).  A frame of the manager
    never throws and runs [onFrame] of every group: a group whose update was
    due at the next frame is updated, every other group is left exactly as it
    was, no group is added or lost, and after the frame no group is still
    waiting for a frame. *)
Theorem manager_frame_runs_every_due_update mgr :
  managerReachable mgr ->
  exists mgr',
    managerOnFrame mgr = OK mgr'
    /\ forall ref,
         match groupAt ref mgr with
         | None => groupAt ref mgr' = None
         | Some pg =>
             exists g',
               onFrame (core pg) = OK g'
               /\ groupAt ref mgr' = Some (withCore g' pg)
               /\ nextUpdateTime g' <> Some NextFrame
               /\ (nextUpdateTime (core pg) <> Some NextFrame -> g' = core pg)
         end.
Proof.
  intros Hr. pose proof (managerReachable_cores mgr Hr) as Hcores.
  destruct (frameMaps_ok (groupMap mgr)) as [m' Em].
  { intros mc gs key pg H1 H2. apply reachable_wf. eapply Hcores; eassumption. }
  unfold managerOnFrame. rewrite Em. cbn [bind].
  eexists. split; [reflexivity|]. intros [mc key]. unfold groupAt.
  cbn [withGroupMap groupMap fst snd]. rewrite (frameMaps_get _ _ mc Em).
  destruct (mapGet Nat.eqb mc (groupMap mgr)) as [gs|] eqn:Eg; [|reflexivity].
  apply mapGet_in_nat in Eg.
  destruct (frameGroups_ok gs) as [gs' Egs].
  { intros k pg Hin. apply reachable_wf. eapply Hcores; eassumption. }
  rewrite Egs, (frameGroups_get _ _ key Egs).
  destruct (mapGet Z.eqb key gs) as [pg|] eqn:Ek; [|reflexivity].
  apply mapGet_in_Z in Ek.
  pose proof (reachable_wf _ (Hcores _ _ _ _ Eg Ek)) as Hwf.
  destruct (nextUpdateTime (core pg)) as [[|t]|] eqn:En.
  - destruct (Claims.frame_runs_update (core pg) Hwf En) as (g' & E & _ & _ & _ & N & _).
    rewrite E. exists g'. split; [reflexivity|]. split; [reflexivity|].
    split; [rewrite N; discriminate|]. intros Hx. exfalso. apply Hx. reflexivity.
  - unfold onFrame. rewrite En. exists (core pg).
    split; [reflexivity|]. split; [reflexivity|]. split; [rewrite En; discriminate|].
    reflexivity.
  - unfold onFrame. rewrite En. exists (core pg).
    split; [reflexivity|]. split; [reflexivity|]. split; [rewrite En; discriminate|].
    reflexivity.
Qed.

Lemma manager_frame_runs_every_due_update_witness :
  managerReachable busyManager
  /\ exists mgr',
       managerOnFrame busyManager = OK mgr'
       /\ forall ref,
            match groupAt ref busyManager with
            | None => groupAt ref mgr' = None
            | Some pg =>
                exists g',
                  onFrame (core pg) = OK g'
                  /\ groupAt ref mgr' = Some (withCore g' pg)
                  /\ nextUpdateTime g' <> Some NextFrame
                  /\ (nextUpdateTime (core pg) <> Some NextFrame -> g' = core pg)
            end.
Proof.
  assert (Hr : managerReachable busyManager).
  { apply (runManagerOps_reachable busyManagerOps (newManager 5 true 0));
      [constructor|]. vm_compute. reflexivity. }
  split; [exact Hr|]. apply (manager_frame_runs_every_due_update busyManager). exact Hr.
Defined.

(** *** Teardown *)

(** X7 (InstancedPanelGroup.destroy).  Destroying a group cancels its delayed
    update: no timer of the group is left to fire.  The material is disposed
    only if the group has a mesh; a group that never got one returns early
    and keeps its material.  The pending update time and the buffers are left
    as they were. *)
Theorem destroy_cancels_timer pg :
  reachable (core pg) ->
  timers (core (destroy pg)) = []
  /\ (forall id, fireTimer id (core (destroy pg)) = None)
  /\ materialDisposed (destroy pg)
     = match mesh (core pg) with Some _ => true | None => materialDisposed pg end
  /\ nextUpdateTime (core (destroy pg)) = nextUpdateTime (core pg)
  /\ buckets (core (destroy pg)) = buckets (core pg)
  /\ elementCount (core (destroy pg)) = elementCount (core pg).
Proof.
  intros Hr. pose proof (wf_sched _ (reachable_wf _ Hr)) as Hs.
  pose proof (clearTimeout_timers _ Hs) as Ht.
  assert (Hc : core (destroy pg) = clearTimeout (core pg)).
  { unfold destroy. destruct (mesh (clearTimeout (core pg))); reflexivity. }
  rewrite Hc. split; [exact Ht|]. split.
  - intros id. unfold fireTimer, timerDue. rewrite Ht. reflexivity.
  - split; [|auto]. unfold destroy. cbn [clearTimeout mesh].
    destruct (mesh (core pg)); reflexivity.
Qed.

Lemma destroy_cancels_timer_witness :
  reachable (core pendingPanelGroup)
  /\ timers (core pendingPanelGroup) = [(0%nat, 1000)]
  /\ timers (core (destroy pendingPanelGroup)) = []
  /\ (forall id, fireTimer id (core (destroy pendingPanelGroup)) = None)
  /\ materialDisposed (destroy pendingPanelGroup)
     = match mesh (core pendingPanelGroup) with
       | Some _ => true
       | None => materialDisposed pendingPanelGroup
       end
  /\ nextUpdateTime (core (destroy pendingPanelGroup))
     = nextUpdateTime (core pendingPanelGroup)
  /\ buckets (core (destroy pendingPanelGroup)) = buckets (core pendingPanelGroup)
  /\ elementCount (core (destroy pendingPanelGroup))
     = elementCount (core pendingPanelGroup).
Proof.
  assert (Hr : reachable (core pendingPanelGroup)).
  { apply (Claims.stateAfter_reachable pendingOps). vm_compute. reflexivity. }
  split; [exact Hr|]. split; [vm_compute; reflexivity|].
  apply (destroy_cancels_timer pendingPanelGroup). exact Hr.
Defined.

Lemma mapGet_map {K V : Type} (eqb : K -> K -> bool) (f : V -> V) k m :
  mapGet eqb k (map (fun e => (fst e, f (snd e))) m) = option_map f (mapGet eqb k m).
Proof.
  induction m as [|[k0 v0] r IH]; cbn [map mapGet fst snd]; [reflexivity|].
  destruct (eqb k k0); [reflexivity|exact IH].
Qed.

Lemma groupAt_traverse fn ref mgr :
  groupAt ref (traverse fn mgr) = option_map fn (groupAt ref mgr).
Proof.
  unfold groupAt, traverse. cbn [withGroupMap groupMap].
  rewrite (mapGet_map Nat.eqb
             (fun gs => map (fun ge => (fst ge, fn (snd ge))) gs)).
  destruct (mapGet Nat.eqb (fst ref) (groupMap mgr)) as [gs|]; cbn [option_map];
    [|reflexivity].
  apply mapGet_map.
Qed.

(** X17 (PanelGroupManager, the teardown).  When the manager is torn down
    every group is destroyed and none is lost: afterwards no group has a
    timer left that could fire. *)
Theorem manager_teardown_cancels_every_timer mgr :
  managerReachable mgr ->
  forall ref,
    groupAt ref (destroyAll mgr) = option_map destroy (groupAt ref mgr)
    /\ forall pg,
         groupAt ref (destroyAll mgr) = Some pg ->
         timers (core pg) = [] /\ forall id, fireTimer id (core pg) = None.
Proof.
  intros Hr ref. unfold destroyAll. rewrite groupAt_traverse.
  split; [reflexivity|]. intros pg Hpg.
  destruct (groupAt ref mgr) as [pg0|] eqn:Eg; [|discriminate].
  injection Hpg as <-.
  unfold groupAt in Eg.
  destruct (mapGet Nat.eqb (fst ref) (groupMap mgr)) as [gs|] eqn:Em; [|discriminate].
  apply mapGet_in_nat in Em. apply mapGet_in_Z in Eg.
  pose proof (managerReachable_cores mgr Hr _ _ _ _ Em Eg) as Hcore.
  pose proof (clearTimeout_timers _ (wf_sched _ (reachable_wf _ Hcore))) as Ht.
  assert (Hc : core (destroy pg0) = clearTimeout (core pg0)).
  { unfold destroy. destruct (mesh (clearTimeout (core pg0))); reflexivity. }
  rewrite Hc. split; [exact Ht|].
  intros id. unfold fireTimer, timerDue. rewrite Ht. reflexivity.
Qed.

Lemma manager_teardown_cancels_every_timer_witness :
  managerReachable busyManager
  /\ option_map (fun pg => timers (core pg)) (groupAt (meshBasicMaterial, 4) busyManager)
     = Some [(0%nat, 1000)]
  /\ forall ref,
       groupAt ref (destroyAll busyManager)
       = option_map destroy (groupAt ref busyManager)
       /\ forall pg,
            groupAt ref (destroyAll busyManager) = Some pg ->
            timers (core pg) = [] /\ forall id, fireTimer id (core pg) = None.
Proof.
  assert (Hr : managerReachable busyManager).
  { apply (runManagerOps_reachable busyManagerOps (newManager 5 true 0));
      [constructor|]. vm_compute. reflexivity. }
  split; [exact Hr|]. split; [vm_compute; reflexivity|].
  apply (manager_teardown_cancels_every_timer busyManager). exact Hr.
Defined.

End RegistryFacts.

(** ** Further properties of the buffer group *)

Module GroupExtras.
Import SortedBuckets Group Moves Invariants Scenarios Registry MoreScenarios.
Import SortedBucketsFacts MovesFacts GroupFacts RegistryFacts.

(** *** Copies inside the arrays *)

Lemma relIndex_bounds l x : 0 <= l -> 0 <= relIndex l x <= l.
Proof. intros H. unfold relIndex. destruct (Z.ltb_spec x 0); lia. Qed.

Lemma copyWithin_len {A : Type} (arr : list A) t s e :
  len (copyWithin arr t s e) = len arr.
Proof.
  unfold copyWithin.
  pose proof (len_nonneg arr) as Hl.
  pose proof (relIndex_bounds (len arr) t Hl) as Ht.
  pose proof (relIndex_bounds (len arr) s Hl) as Hs.
  pose proof (relIndex_bounds (len arr) e Hl) as He.
  destruct (Z.ltb_spec 0 (Z.min (relIndex (len arr) e - relIndex (len arr) s)
                            (len arr - relIndex (len arr) t))) as [Hc|Hc];
    [|reflexivity].
  unfold len in *. rewrite !length_app, !length_firstn, !length_skipn. lia.
Qed.

Lemma copyWithin_read {A : Type} (arr : list A) t s e j :
  0 <= t -> 0 <= s <= e -> e <= len arr ->
  readSlot (copyWithin arr t s e) j
  = if (t <=? j) && (j <? t + (e - s)) && (j <? len arr)
    then readSlot arr (s + (j - t)) else readSlot arr j.
Proof.
  intros Ht Hs He. unfold copyWithin, relIndex.
  destruct (Z.ltb_spec t 0); [lia|]. destruct (Z.ltb_spec s 0); [lia|].
  destruct (Z.ltb_spec e 0); [lia|].
  rewrite (Z.min_l s), (Z.min_l e) by lia.
  remember (Z.min (e - s) (len arr - Z.min t (len arr))) as cnt eqn:Hcnt.
  destruct (Z.ltb_spec 0 cnt) as [Hc|Hc].
  - assert (Htl : t < len arr) by lia.
    rewrite (Z.min_l t) in * by lia.
    assert (Hc1 : cnt <= e - s) by lia.
    assert (Hc2 : cnt <= len arr - t) by lia.
    assert (Hc3 : cnt = e - s \/ cnt = len arr - t) by lia.
    clear Hcnt.
    assert (L1 : length (firstn (Z.to_nat t) arr) = Z.to_nat t).
    { rewrite length_firstn. unfold len in *. lia. }
    assert (L2 : length (firstn (Z.to_nat cnt) (skipn (Z.to_nat s) arr))
                 = Z.to_nat cnt).
    { rewrite length_firstn, length_skipn. unfold len in *. lia. }
    unfold readSlot.
    destruct (Z.leb_spec 0 j) as [Hj|Hj].
    + destruct (Z.leb_spec t j) as [Htj|Htj]; cbn [andb].
      * assert (Hin : j < t + (e - s) /\ j < len arr <-> j < t + cnt) by lia.
        destruct (Z.ltb_spec j (t + cnt)) as [Hjc|Hjc].
        -- destruct (Z.ltb_spec j (t + (e - s))); [|lia].
           destruct (Z.ltb_spec j (len arr)); [|lia]. cbn [andb].
           rewrite nth_error_app2 by lia. rewrite L1.
           rewrite nth_error_app1 by lia.
           rewrite nth_error_firstn.
           destruct (Nat.ltb_spec (Z.to_nat j - Z.to_nat t) (Z.to_nat cnt)); [|lia].
           rewrite nth_error_skipn.
           destruct (Z.leb_spec 0 (s + (j - t))); [|lia].
           f_equal. lia.
        -- assert (Hout : (j <? t + (e - s)) && (j <? len arr) = false).
           { destruct (Z.ltb_spec j (t + (e - s))); [|reflexivity].
             destruct (Z.ltb_spec j (len arr)); [lia|reflexivity]. }
           rewrite Hout.
           rewrite nth_error_app2 by lia. rewrite L1.
           rewrite nth_error_app2 by lia. rewrite L2.
           rewrite nth_error_skipn. f_equal. lia.
      * rewrite nth_error_app1 by lia.
        rewrite nth_error_firstn.
        destruct (Nat.ltb_spec (Z.to_nat j) (Z.to_nat t)); [reflexivity|lia].
    + destruct (Z.leb_spec t j); [lia|]. reflexivity.
  - destruct (Z.leb_spec t j); cbn [andb]; [|reflexivity].
    destruct (Z.ltb_spec j (t + (e - s))); cbn [andb]; [|reflexivity].
    destruct (Z.ltb_spec j (len arr)); [lia|reflexivity].
Qed.

(** X5 (bufferCopyWithin, copyWithinAttribute).  A copy of the slots from
    [startIndex] up to [endIndex] to [targetIndex] reads every block from the
    arrays as they were before the call, also where source and target
    overlap; it is cut off at the end of the arrays; all three arrays get the
    same copy, keep their length, and every slot outside the target keeps its
    blocks. *)
Theorem bufferCopyWithin_copies_old_blocks g m d c targetIndex startIndex endIndex :
  instanceMatrix g = Some m -> instanceData g = Some d ->
  instanceClipping g = Some c -> len d = len m -> len c = len m ->
  0 <= targetIndex -> 0 <= startIndex <= endIndex -> endIndex <= len m ->
  exists g' m' d' c',
    bufferCopyWithin targetIndex startIndex endIndex g = OK g'
    /\ instanceMatrix g' = Some m' /\ instanceData g' = Some d'
    /\ instanceClipping g' = Some c'
    /\ len m' = len m /\ len d' = len m /\ len c' = len m
    /\ buckets g' = buckets g /\ mesh g' = mesh g
    /\ forall j,
         matrixAt g' j
         = (if (targetIndex <=? j) && (j <? targetIndex + (endIndex - startIndex))
               && (j <? len m)
            then matrixAt g (startIndex + (j - targetIndex)) else matrixAt g j)
         /\ dataAt g' j
            = (if (targetIndex <=? j) && (j <? targetIndex + (endIndex - startIndex))
                  && (j <? len m)
               then dataAt g (startIndex + (j - targetIndex)) else dataAt g j)
         /\ clippingAt g' j
            = (if (targetIndex <=? j) && (j <? targetIndex + (endIndex - startIndex))
                  && (j <? len m)
               then clippingAt g (startIndex + (j - targetIndex))
               else clippingAt g j).
Proof.
  intros Em Ed Ec Ld Lc Ht Hs He.
  unfold bufferCopyWithin, copyWithinAttribute. rewrite Em, Ed, Ec. cbn [bind].
  eexists. exists (copyWithin m targetIndex startIndex endIndex),
    (copyWithin d targetIndex startIndex endIndex),
    (copyWithin c targetIndex startIndex endIndex).
  split; [reflexivity|]. fields.
  rewrite !copyWithin_len.
  do 3 (split; [reflexivity|]). do 3 (split; [assumption || reflexivity|]).
  do 2 (split; [reflexivity|]).
  intros j. unfold matrixAt, dataAt, clippingAt. fields. rewrite Em, Ed, Ec.
  rewrite <- Ld at 1. rewrite <- Lc at 2.
  rewrite !copyWithin_read by lia.
  rewrite Ld, Lc. auto.
Qed.

Lemma bufferCopyWithin_copies_old_blocks_witness :
  exists g' m' d' c',
    bufferCopyWithin 1 0 2 settledState = OK g'
    /\ instanceMatrix g' = Some m' /\ instanceData g' = Some d'
    /\ instanceClipping g' = Some c'
    /\ len m' = len (repeat zeroBlock 5) /\ len d' = len (repeat zeroBlock 5)
    /\ len c' = len (repeat zeroBlock 5)
    /\ buckets g' = buckets settledState /\ mesh g' = mesh settledState
    /\ forall j,
         matrixAt g' j
         = (if (1 <=? j) && (j <? 1 + (2 - 0)) && (j <? len (repeat zeroBlock 5))
            then matrixAt settledState (0 + (j - 1)) else matrixAt settledState j)
         /\ dataAt g' j
            = (if (1 <=? j) && (j <? 1 + (2 - 0)) && (j <? len (repeat zeroBlock 5))
               then dataAt settledState (0 + (j - 1)) else dataAt settledState j)
         /\ clippingAt g' j
            = (if (1 <=? j) && (j <? 1 + (2 - 0)) && (j <? len (repeat zeroBlock 5))
               then clippingAt settledState (0 + (j - 1))
               else clippingAt settledState j).
Proof.
  apply (bufferCopyWithin_copies_old_blocks settledState (repeat zeroBlock 5)
           [repeat 1 16; repeat 2 16; repeat 3 16; zeroBlock; zeroBlock]
           (repeat zeroBlock 5) 1 0 2);
    try (vm_compute; reflexivity); try lia.
  vm_compute. intros H. discriminate H.
Defined.

(** *** Requests for an update *)

(** X6 (requestUpdate).  A delayed request never postpones a pending one: an
    update due at the next frame stays due at the next frame, and otherwise
    the update is due at the earlier of the pending time and the requested
    one, with exactly one timer, set for that time. *)
Theorem requestUpdate_keeps_earliest time g :
  reachable g ->
  match nextUpdateTime g with
  | Some NextFrame => requestUpdate time g = g
  | Some (AtTime t) =>
      nextUpdateTime (requestUpdate time g) = Some (AtTime (Z.min t (now g + time)))
      /\ exists id, timers (requestUpdate time g) = [(id, Z.min t (now g + time))]
  | None =>
      nextUpdateTime (requestUpdate time g) = Some (AtTime (now g + time))
      /\ exists id, timers (requestUpdate time g) = [(id, now g + time)]
  end.
Proof.
  intros Hr. pose proof (wf_sched _ (reachable_wf _ Hr)) as Hs.
  unfold requestUpdate.
  destruct (nextUpdateTime g) as [[|t]|] eqn:E; [reflexivity| |].
  - destruct (Z.ltb_spec t (now g + time)) as [Hlt|Hge].
    + rewrite Z.min_l by lia. split; [exact E|].
      unfold scheduled in Hs. rewrite E in Hs. destruct Hs as [id [_ Ht]].
      exists id. exact Ht.
    + rewrite Z.min_r by lia.
      destruct (schedule_sched time g Hs) as (A & B & _).
      split; [exact A|]. eexists. exact B.
  - destruct (schedule_sched time g Hs) as (A & B & _).
    split; [exact A|]. eexists. exact B.
Qed.

Lemma requestUpdate_keeps_earliest_witness :
  reachable pendingState
  /\ nextUpdateTime pendingState = Some (AtTime 1000)
  /\ nextUpdateTime (requestUpdate 2000 pendingState) = Some (AtTime 1000)
  /\ nextUpdateTime (requestUpdate 500 pendingState) = Some (AtTime 500).
Proof.
  assert (Hr : reachable pendingState).
  { apply (Claims.stateAfter_reachable pendingOps). vm_compute. reflexivity. }
  split; [exact Hr|]. split; [vm_compute; reflexivity|].
  pose proof (requestUpdate_keeps_earliest 2000 pendingState Hr) as H1.
  pose proof (requestUpdate_keeps_earliest 500 pendingState Hr) as H2.
  change (nextUpdateTime pendingState) with (Some (AtTime 1000)) in H1, H2.
  split; [exact (proj1 H1)|exact (proj1 H2)].
Defined.

(** *** The draw count *)






(** *** Capacity *)

Lemma ceil15_below_triple n : 1 <= n -> ceil15 n < 3 * n.
Proof.
  intros H. unfold ceil15. apply Z.div_lt_upper_bound; lia.
Qed.

Lemma capacityAfter_band n cap :
  1 <= n -> n <= capacityAfter n cap < 3 * n.
Proof.
  intros H. pose proof (ceil15_ge n ltac:(lia)). pose proof (ceil15_below_triple n H).
  unfold capacityAfter.
  destruct (Z.ltb_spec cap n); cbn [orb]; [lia|].
  destruct (Z.leb_spec (3 * n) cap); lia.
Qed.

(** X9 (update).  An update that finds elements leaves a capacity of at least
    the element count and below three times the element count, so the
    thresholds do not chase each other: an update that follows with the same
    elements keeps the capacity, resizes nothing and only rearranges, and the
    mesh keeps its count, visibility and render order. *)
Theorem update_settles g g1 :
  reachable g -> 1 <= elementCount g -> update g = OK g1 ->
  elementCount g1 <= bufferElementSize g1 < 3 * elementCount g1
  /\ exists g2,
       update g1 = OK g2
       /\ bufferElementSize g2 = bufferElementSize g1
       /\ elementCount g2 = elementCount g1
       /\ trace g2 = trace g1 ++ [EvUpdate; EvRearrange]
       /\ mesh g2 = mesh g1.
Proof.
  intros Hr Hn Hrun. pose proof (reachable_wf _ Hr) as Hwf.
  destruct (update_spec g Hwf Hn) as (g1' & Hrun' & Hl & r & Hm).
  assert (g1' = g1) by congruence. subst g1'.
  destruct Hl as (Hwf1 & L1 & L2 & _).
  pose proof (capacityAfter_band (elementCount g) (bufferElementSize g) Hn) as Hband.
  rewrite <- L2, <- L1 in Hband. split; [lia|].
  destruct (update_spec g1 Hwf1 ltac:(lia)) as (g2 & Hrun2 & Hl2 & r2 & Hm2).
  destruct Hl2 as (_ & M1 & M2 & _ & M4 & _).
  assert (Hcap : capacityAfter (elementCount g1) (bufferElementSize g1)
                 = bufferElementSize g1).
  { unfold capacityAfter.
    destruct (Z.ltb_spec (bufferElementSize g1) (elementCount g1)); [lia|].
    destruct (Z.leb_spec (3 * elementCount g1) (bufferElementSize g1)); [lia|].
    reflexivity. }
  assert (Hev : layoutEvents (elementCount g1) (bufferElementSize g1) = [EvRearrange]).
  { unfold layoutEvents.
    destruct (Z.ltb_spec (bufferElementSize g1) (elementCount g1)); [lia|].
    destruct (Z.leb_spec (3 * elementCount g1) (bufferElementSize g1)); [lia|].
    reflexivity. }
  exists g2. split; [exact Hrun2|]. split; [congruence|]. split; [exact M1|].
  split; [rewrite M4, Hev; reflexivity|].
  pose proof (reachable_meshOrdered g Hr) as Ho.
  destruct (update_order _ _ Hrun) as [A B].
  destruct (update_order _ _ Hrun2) as [A2 B2].
  pose proof (B Ho _ Hm) as R1. pose proof (B2 (B Ho) _ Hm2) as R2.
  cbn [meshRenderOrder] in R1, R2. rewrite Hm, Hm2, L1. congruence.
Qed.

Lemma update_settles_witness :
  reachable pendingState /\ 1 <= elementCount pendingState
  /\ update pendingState = OK updatedState
  /\ elementCount updatedState <= bufferElementSize updatedState
     < 3 * elementCount updatedState
  /\ exists g2,
       update updatedState = OK g2
       /\ bufferElementSize g2 = bufferElementSize updatedState
       /\ elementCount g2 = elementCount updatedState
       /\ trace g2 = trace updatedState ++ [EvUpdate; EvRearrange]
       /\ mesh g2 = mesh updatedState.
Proof.
  assert (Hr : reachable pendingState).
  { apply (Claims.stateAfter_reachable pendingOps). vm_compute. reflexivity. }
  assert (Hn : 1 <= elementCount pendingState) by (vm_compute; discriminate).
  assert (Hrun : update pendingState = OK updatedState) by (vm_compute; reflexivity).
  split; [exact Hr|]. split; [exact Hn|]. split; [exact Hrun|].
  apply (update_settles pendingState updatedState Hr Hn Hrun).
Defined.

(** *** Buffers and counters *)

(** X10 (InstancedPanelGroup, resize).  In every state a group can reach, the
    mesh and the three instance arrays exist together or not at all: without
    a mesh the capacity is zero, with one each array holds exactly
    [bufferElementSize] slots.  The element count is never negative and is
    the number of elements in the buckets. *)
Theorem buffers_exist_together g :
  reachable g ->
  match mesh g with
  | None =>
      instanceMatrix g = None /\ instanceData g = None
      /\ instanceClipping g = None /\ bufferElementSize g = 0
  | Some _ =>
      exists m d c,
        instanceMatrix g = Some m /\ instanceData g = Some d
        /\ instanceClipping g = Some c
        /\ len m = bufferElementSize g /\ len d = bufferElementSize g
        /\ len c = bufferElementSize g
  end
  /\ 0 <= elementCount g
  /\ elementCount g = totalSize (buckets g).
Proof.
  intros Hr. pose proof (reachable_wf _ Hr) as Hwf.
  pose proof (wf_count_nonneg _ Hwf) as Hn.
  destruct Hwf as [Ha _ _ Hc _ _]. split; [|split; [exact Hn|symmetry; exact Hc]].
  unfold allocated in Ha.
  destruct (mesh g) as [me|], (instanceMatrix g) as [m|], (instanceData g) as [d|],
    (instanceClipping g) as [c|]; try contradiction.
  - exists m, d, c. tauto.
  - auto.
Qed.

Lemma buffers_exist_together_witness :
  reachable pendingState
  /\ match mesh pendingState with
     | None =>
         instanceMatrix pendingState = None /\ instanceData pendingState = None
         /\ instanceClipping pendingState = None
         /\ bufferElementSize pendingState = 0
     | Some _ =>
         exists m d c,
           instanceMatrix pendingState = Some m /\ instanceData pendingState = Some d
           /\ instanceClipping pendingState = Some c
           /\ len m = bufferElementSize pendingState
           /\ len d = bufferElementSize pendingState
           /\ len c = bufferElementSize pendingState
     end
  /\ 0 <= elementCount pendingState
  /\ elementCount pendingState = totalSize (buckets pendingState).
Proof.
  assert (Hr : reachable pendingState).
  { apply (Claims.stateAfter_reachable pendingOps). vm_compute. reflexivity. }
  split; [exact Hr|]. apply (buffers_exist_together pendingState). exact Hr.
Defined.

(** X11 (insert).  Every insertion asks the root for a render exactly once:
    through [updateCount] when the panel got its slot at once, for then the
    mesh exists, and through [requestUpdateNextFrame] otherwise. *)
Theorem insert_requests_render g g' bucketIndex panel :
  reachable g -> insert bucketIndex panel g = OK g' ->
  renderRequests g' = S (renderRequests g).
Proof.
  intros Hr Hrun. pose proof (reachable_wf _ Hr) as Hwf.
  pose proof Hwf as [Ha _ Hreg _ _ _].
  unfold insert, addToSortedBuckets in Hrun. fields.
  destruct (addFrom 0 (buckets g) bucketIndex panel) as [[bs calls] needs] eqn:Hadd.
  destruct (runCalls calls _) as [g2|] eqn:E2; cbn [bind] in Hrun; [|discriminate].
  destruct (runCalls_order _ _ _ E2) as (A & _ & C). fields.
  destruct (addFrom_calls _ _ _ _ _ _ _ _ Hadd Hreg)
    as [[-> ->]|(-> & o & i & -> & Hb)]; cbn [negb] in Hrun.
  - injection Hrun as <-. unfold requestUpdateNextFrame. fields. congruence.
  - destruct (allocated_arrays _ Ha ltac:(lia)) as (me & _ & _ & _ & Eme & _).
    unfold updateCount in Hrun.
    destruct (lastOf (buckets g2)); [|discriminate].
    rewrite A, Eme in Hrun. injection Hrun as <-. fields. congruence.
Qed.

Lemma insert_requests_render_witness :
  reachable settledState /\ insert 5 panel4 settledState = OK grownState
  /\ renderRequests grownState = S (renderRequests settledState).
Proof.
  assert (Hr : reachable settledState).
  { apply (Claims.stateAfter_reachable settledOps). vm_compute. reflexivity. }
  assert (Hrun : insert 5 panel4 settledState = OK grownState)
    by (vm_compute; reflexivity).
  split; [exact Hr|]. split; [exact Hrun|].
  apply (insert_requests_render settledState grownState 5 panel4 Hr Hrun).
Defined.

(** X12 (resize).  A resize sets the capacity to one and a half times the
    element count, rounded up, and gives the three arrays that length.  Every
    slot below the new capacity that the old arrays had keeps its blocks, and
    every slot the old arrays did not have is zero. *)
Theorem resize_keeps_blocks g g' :
  resize g = OK g' ->
  bufferElementSize g' = ceil15 (elementCount g)
  /\ (exists m d c,
        instanceMatrix g' = Some m /\ instanceData g' = Some d
        /\ instanceClipping g' = Some c
        /\ len m = ceil15 (elementCount g) /\ len d = ceil15 (elementCount g)
        /\ len c = ceil15 (elementCount g))
  /\ forall s, 0 <= s < ceil15 (elementCount g) ->
       matrixAt g' s
       = Some (match matrixAt g s with Some b => b | None => zeroBlock end)
       /\ dataAt g' s
          = Some (match dataAt g s with Some b => b | None => zeroBlock end)
       /\ clippingAt g' s
          = Some (match clippingAt g s with Some b => b | None => zeroBlock end).
Proof.
  unfold resize. intros H.
  destruct (Z.ltb_spec (ceil15 (elementCount g)) 0) as [Hneg|Hpos]; [discriminate|].
  injection H as <-. fields.
  assert (Hread : forall old s, 0 <= s < ceil15 (elementCount g) ->
            readSlot (reallocate (ceil15 (elementCount g)) old) s
            = Some (match match old with Some arr => readSlot arr s | None => None end
                    with Some b => b | None => zeroBlock end)).
  { intros old s Hs. unfold reallocate, readSlot.
    destruct (Z.leb_spec 0 s); [|lia].
    destruct old as [arr|].
    - destruct (Z.ltb_spec s (len arr)) as [Hin|Hout]; unfold len in *.
      + rewrite nth_error_app1 by (rewrite length_firstn; lia).
        rewrite nth_error_firstn.
        destruct (Nat.ltb_spec (Z.to_nat s) (Z.to_nat (ceil15 (elementCount g))));
          [|lia].
        destruct (nth_error arr (Z.to_nat s)) eqn:E; [reflexivity|].
        apply nth_error_None in E. lia.
      + rewrite nth_error_app2 by (rewrite length_firstn; lia).
        rewrite nth_error_repeat by (rewrite length_firstn; lia).
        destruct (nth_error arr (Z.to_nat s)) eqn:E; [|reflexivity].
        assert (nth_error arr (Z.to_nat s) <> None) as Hx by congruence.
        apply nth_error_Some in Hx. lia.
    - rewrite nth_error_repeat by lia. reflexivity. }
  split; [reflexivity|]. split.
  - do 3 eexists. do 3 (split; [reflexivity|]).
    rewrite !len_reallocate by lia. auto.
  - intros s Hs. unfold matrixAt, dataAt, clippingAt. fields.
    rewrite !Hread by exact Hs. auto.
Qed.

Lemma resize_keeps_blocks_witness :
  resize settledState = OK resizedState
  /\ bufferElementSize resizedState = ceil15 (elementCount settledState)
  /\ (exists m d c,
        instanceMatrix resizedState = Some m /\ instanceData resizedState = Some d
        /\ instanceClipping resizedState = Some c
        /\ len m = ceil15 (elementCount settledState)
        /\ len d = ceil15 (elementCount settledState)
        /\ len c = ceil15 (elementCount settledState))
  /\ forall s, 0 <= s < ceil15 (elementCount settledState) ->
       matrixAt resizedState s
       = Some (match matrixAt settledState s with
               | Some b => b | None => zeroBlock end)
       /\ dataAt resizedState s
          = Some (match dataAt settledState s with
                  | Some b => b | None => zeroBlock end)
       /\ clippingAt resizedState s
          = Some (match clippingAt settledState s with
                  | Some b => b | None => zeroBlock end).
Proof.
  assert (Hrun : resize settledState = OK resizedState) by (vm_compute; reflexivity).
  split; [exact Hrun|].
  apply (resize_keeps_blocks settledState resizedState Hrun).
Defined.

(** *** Timers and frames *)

(** X18 (requestUpdate, requestUpdateNextFrame).  The only timer that can
    fire is the one of the pending delayed update, and not before its time;
    when it fires the update becomes due at the next frame, no timer is left,
    one render is requested, and buckets, buffers and counters are as they
    were. *)
Theorem timer_turns_into_frame_request g g' id :
  reachable g -> fireTimer id g = Some g' ->
  (exists t, nextUpdateTime g = Some (AtTime t) /\ timers g = [(id, t)] /\ t <= now g)
  /\ nextUpdateTime g' = Some NextFrame /\ timers g' = []
  /\ nextUpdateTimeoutRef g' = None
  /\ renderRequests g' = S (renderRequests g)
  /\ buckets g' = buckets g /\ elementCount g' = elementCount g
  /\ bufferElementSize g' = bufferElementSize g /\ mesh g' = mesh g
  /\ instanceMatrix g' = instanceMatrix g /\ instanceData g' = instanceData g
  /\ instanceClipping g' = instanceClipping g.
Proof.
  intros Hr H. pose proof (wf_sched _ (reachable_wf _ Hr)) as Hs.
  unfold fireTimer, timerDue in H.
  destruct (find (fun t => Nat.eqb (fst t) id) (timers g)) as [[id0 due]|] eqn:Ef;
    cbn [option_map snd] in H; [|discriminate].
  destruct (Z.leb_spec due (now g)) as [Hdue|Hdue]; [|discriminate].
  injection H as <-.
  unfold scheduled in Hs.
  destruct (nextUpdateTime g) as [[|t]|] eqn:En;
    try (destruct Hs as [Ht _]; rewrite Ht in Ef; discriminate).
  destruct Hs as (id1 & Href & Ht). rewrite Ht in Ef. cbn [find fst] in Ef.
  destruct (Nat.eqb_spec id1 id) as [Heq|Hne]; [subst id1|discriminate].
  injection Ef as <- <-.
  split; [exists t; auto|].
  unfold requestUpdateNextFrame. fields. rewrite Href, Ht.
  cbn [filter fst]. rewrite Nat.eqb_refl. cbn [negb filter].
  repeat split; reflexivity.
Qed.

Lemma timer_turns_into_frame_request_witness :
  reachable dueState /\ fireTimer 0 dueState = Some firedState
  /\ (exists t, nextUpdateTime dueState = Some (AtTime t)
        /\ timers dueState = [(0%nat, t)] /\ t <= now dueState)
  /\ nextUpdateTime firedState = Some NextFrame /\ timers firedState = []
  /\ nextUpdateTimeoutRef firedState = None
  /\ renderRequests firedState = S (renderRequests dueState)
  /\ buckets firedState = buckets dueState
  /\ elementCount firedState = elementCount dueState
  /\ bufferElementSize firedState = bufferElementSize dueState
  /\ mesh firedState = mesh dueState
  /\ instanceMatrix firedState = instanceMatrix dueState
  /\ instanceData firedState = instanceData dueState
  /\ instanceClipping firedState = instanceClipping dueState.
Proof.
  assert (Hr : reachable dueState).
  { apply (Claims.stateAfter_reachable (pendingOps ++ [OpClock 1000])).
    vm_compute. reflexivity. }
  assert (Hrun : fireTimer 0 dueState = Some firedState) by (vm_compute; reflexivity).
  split; [exact Hr|]. split; [exact Hrun|].
  apply (timer_turns_into_frame_request dueState firedState 0%nat Hr Hrun).
Defined.

(** X19 (onFrame).  A frame uses up the request it serves: after a frame no
    update is due at the next frame, so a second frame that follows without a
    new request changes nothing. *)
Theorem frame_uses_up_request g g' :
  reachable g -> onFrame g = OK g' ->
  nextUpdateTime g' <> Some NextFrame /\ onFrame g' = OK g'.
Proof.
  intros Hr H. pose proof (reachable_wf _ Hr) as Hwf.
  destruct (nextUpdateTime g) as [[|t]|] eqn:En.
  - destruct (Claims.frame_runs_update g Hwf En) as (g2 & E & _ & _ & _ & N & _ & F).
    assert (g2 = g') by congruence. subst g2.
    split; [rewrite N; discriminate|exact F].
  - unfold onFrame in H. rewrite En in H. injection H as <-.
    split; [rewrite En; discriminate|]. unfold onFrame. rewrite En. reflexivity.
  - unfold onFrame in H. rewrite En in H. injection H as <-.
    split; [rewrite En; discriminate|]. unfold onFrame. rewrite En. reflexivity.
Qed.

Lemma frame_uses_up_request_witness :
  reachable unsettledState
  /\ onFrame unsettledState = OK settledState
  /\ nextUpdateTime settledState <> Some NextFrame
  /\ onFrame settledState = OK settledState.
Proof.
  assert (Hr : reachable unsettledState).
  { apply (Claims.stateAfter_reachable unsettledOps). vm_compute. reflexivity. }
  assert (Hrun : onFrame unsettledState = OK settledState)
    by (vm_compute; reflexivity).
  split; [exact Hr|]. split; [exact Hrun|].
  apply (frame_uses_up_request unsettledState settledState Hr Hrun).
Defined.

(** X20 (insert, delete, update).  The capacity of the buffers changes in one
    place only: a frame that serves a due update and finds the elements
    either more than the capacity or at most a third of it; the capacity then
    becomes one and a half times the element count, rounded up.  Insertions,
    deletions, timers, a new render order and writes of panels never change
    it. *)
Theorem capacity_changes_only_in_due_frame g g' :
  reachable g -> step g g' -> bufferElementSize g' <> bufferElementSize g ->
  nextUpdateTime g = Some NextFrame /\ onFrame g = OK g'
  /\ 1 <= elementCount g
  /\ (bufferElementSize g < elementCount g
      \/ 3 * elementCount g <= bufferElementSize g)
  /\ bufferElementSize g' = ceil15 (elementCount g).
Proof.
  intros Hr Hs Hne. pose proof (reachable_wf _ Hr) as Hwf.
  destruct Hs as [b p g g' H|b k p g g' H|g g' H|id g g' H|t g Ht|r g|s m d c g g' H].
  - exfalso. apply Hne.
    destruct (addToSortedBuckets (buckets g) b p) as [[bs calls] needs] eqn:Ha.
    destruct (insert_spec _ _ _ _ _ _ Hwf Ha) as (g2 & E & _ & _ & _ & C & _).
    congruence.
  - exfalso. apply Hne.
    destruct (removeFromSortedBuckets (buckets g) b p k) as [[[bs calls] needs]|f]
      eqn:Hrem.
    + destruct (delete_spec _ _ _ _ _ _ _ Hwf Hrem) as (g2 & E & _ & _ & _ & C & _).
      congruence.
    + unfold delete in H. fields. rewrite Hrem in H. discriminate.
  - pose proof H as Hframe. unfold onFrame in H.
    destruct (nextUpdateTime g) as [[|t]|] eqn:En;
      try (exfalso; apply Hne; injection H as <-; reflexivity).
    set (g0 := setNextUpdateTime None g) in *.
    assert (Hwf0 : wf g0).
    { destruct Hwf as [Ha Hs Hreg Hc Hsp Hsc]. constructor; auto.
      unfold scheduled in *. fields. now rewrite En in Hsc. }
    pose proof (wf_count_nonneg _ Hwf) as Hn.
    destruct (Z.eq_dec (elementCount g) 0) as [Hz|Hnz].
    + exfalso. apply Hne. rewrite (update_empty g0 Hz) in H. injection H as <-.
      destruct (mesh g); reflexivity.
    + assert (Hn0 : 1 <= elementCount g0) by (unfold g0; fields; lia).
      destruct (update_spec g0 Hwf0 Hn0) as (g2 & E & Hl & _).
      assert (g2 = g') by congruence. subst g2.
      destruct Hl as (_ & _ & L2 & _). unfold g0 in L2. fields.
      split; [reflexivity|]. split; [exact Hframe|]. split; [lia|].
      unfold capacityAfter in L2.
      destruct (Z.ltb_spec (bufferElementSize g) (elementCount g)); cbn [orb] in L2.
      * split; [left; assumption|exact L2].
      * destruct (Z.leb_spec (3 * elementCount g) (bufferElementSize g)).
        -- split; [right; assumption|exact L2].
        -- contradiction.
  - exfalso. apply Hne. unfold fireTimer in H.
    destruct (timerDue id g); [|discriminate].
    destruct (_ <=? _); [|discriminate]. injection H as <-. reflexivity.
  - exfalso. apply Hne. reflexivity.
  - exfalso. apply Hne. unfold setRenderOrder. fields.
    destruct (mesh g); reflexivity.
  - exfalso. apply Hne. unfold panelWrite in H.
    destruct (instanceMatrix g); [|discriminate].
    destruct (instanceData g); [|discriminate].
    destruct (instanceClipping g); [|discriminate].
    destruct (occupied s (buckets g)); [|discriminate].
    injection H as <-. reflexivity.
Qed.

Lemma capacity_changes_only_in_due_frame_witness :
  reachable unsettledState
  /\ step unsettledState settledState
  /\ bufferElementSize settledState <> bufferElementSize unsettledState
  /\ nextUpdateTime unsettledState = Some NextFrame
  /\ onFrame unsettledState = OK settledState
  /\ 1 <= elementCount unsettledState
  /\ (bufferElementSize unsettledState < elementCount unsettledState
      \/ 3 * elementCount unsettledState <= bufferElementSize unsettledState)
  /\ bufferElementSize settledState = ceil15 (elementCount unsettledState).
Proof.
  assert (Hr : reachable unsettledState).
  { apply (Claims.stateAfter_reachable unsettledOps). vm_compute. reflexivity. }
  assert (Hs : step unsettledState settledState).
  { apply step_frame. vm_compute. reflexivity. }
  assert (Hne : bufferElementSize settledState <> bufferElementSize unsettledState)
    by (vm_compute; discriminate).
  split; [exact Hr|]. split; [exact Hs|]. split; [exact Hne|].
  apply (capacity_changes_only_in_due_frame unsettledState settledState Hr Hs Hne).
Defined.

(** *** Activation *)

(** X23 (activateElement).  Activating an element at a slot inside the
    buffer writes its default data at that slot and nothing else: every other
    slot of the data array, the matrix and clipping arrays, the buckets and
    the mesh are as before.  A slot outside the buffer makes the write
    throw. *)
Theorem activateElement_writes_one_slot element bucketOffset indexInBucket g d :
  instanceData g = Some d ->
  (0 <= bucketOffset + indexInBucket < len d ->
   exists g',
     activateElement element bucketOffset indexInBucket g = OK g'
     /\ dataAt g' (bucketOffset + indexInBucket) = Some (defaultData element)
     /\ (forall s, s <> bucketOffset + indexInBucket -> dataAt g' s = dataAt g s)
     /\ instanceMatrix g' = instanceMatrix g
     /\ instanceClipping g' = instanceClipping g
     /\ buckets g' = buckets g /\ mesh g' = mesh g
     /\ elementCount g' = elementCount g)
  /\ (~ 0 <= bucketOffset + indexInBucket < len d ->
      activateElement element bucketOffset indexInBucket g = Error RangeError).
Proof.
  intros Ed. unfold activateElement. rewrite Ed. split.
  - intros Hin.
    destruct (Z.leb_spec 0 (bucketOffset + indexInBucket)); [|lia].
    destruct (Z.ltb_spec (bucketOffset + indexInBucket) (len d)); [|lia].
    cbn [andb]. eexists. split; [reflexivity|].
    unfold dataAt. fields. rewrite Ed.
    split; [apply readSlot_writeSlot_same; lia|].
    split; [|auto].
    intros s Hs. apply readSlot_writeSlot_other. congruence.
  - intros Hout.
    destruct (Z.leb_spec 0 (bucketOffset + indexInBucket)); cbn [andb];
      [|reflexivity].
    destruct (Z.ltb_spec (bucketOffset + indexInBucket) (len d)); [lia|reflexivity].
Qed.

Lemma activateElement_writes_one_slot_witness :
  instanceData settledState
  = Some [repeat 1 16; repeat 2 16; repeat 3 16; zeroBlock; zeroBlock]
  /\ 0 <= 2 + 1 < len [repeat 1 16; repeat 2 16; repeat 3 16; zeroBlock; zeroBlock]
  /\ exists g',
       activateElement panel4 2 1 settledState = OK g'
       /\ dataAt g' (2 + 1) = Some (defaultData panel4)
       /\ (forall s, s <> 2 + 1 -> dataAt g' s = dataAt settledState s)
       /\ instanceMatrix g' = instanceMatrix settledState
       /\ instanceClipping g' = instanceClipping settledState
       /\ buckets g' = buckets settledState /\ mesh g' = mesh settledState
       /\ elementCount g' = elementCount settledState.
Proof.
  assert (Ed : instanceData settledState
               = Some [repeat 1 16; repeat 2 16; repeat 3 16; zeroBlock; zeroBlock])
    by (vm_compute; reflexivity).
  assert (Hin : 0 <= 2 + 1
                < len [repeat 1 16; repeat 2 16; repeat 3 16; zeroBlock; zeroBlock])
    by (vm_compute; split; [discriminate|reflexivity]).
  split; [exact Ed|]. split; [exact Hin|].
  apply (proj1 (activateElement_writes_one_slot panel4 2 1 settledState _ Ed)).
  exact Hin.
Defined.

End GroupExtras.
